(** * Trace analytics engine of the observability stack: a shallow embedding

    The development follows the TypeScript sources of the tracing panel:
    the span tree builder and the flattening of the timeline components
    ([TraceTimeline], [ModernTraceTimeline]), the metrics aggregators
    ([TraceMetrics], [ResponsiveMetricCards]) and the two filter engines
    ([TraceSearch], [AdvancedTraceSearch]).

    Conventions of the embedding:
    - an ISO-8601 timestamp is read through [new Date(s).getTime()] in the
      sources; the embedding stores the resulting millisecond epoch as a [Z]
      (a well-formed timestamp);
    - a JavaScript number that is the result of a division, or of
      [parseFloat], is a [jsnum]: [NaN], a signed infinity or a finite value,
      held as a rational; [js_div], [js_mul] and [js_add] give the exact
      value of an operation, [f64_div], [f64_mul] and [f64_add] round it to
      binary64 as the program does;
    - JavaScript objects that are mutated after their creation live in an
      explicit [heap]; references are heap addresses. *)

From Stdlib Require Import ZArith QArith List String Ascii Lia.
From Stdlib Require Import Sorting.Permutation Sorting.Sorted.
From Stdlib Require Import DecimalString QArith.Qround QArith.Qpower QArith.Qabs Lqa.
From stdpp Require Import base list strings gmap.

Import ListNotations.
Set Warnings "-register-all,-clear-no-such-hyp".
Local Open Scope string_scope.
Local Open Scope list_scope.
Local Open Scope Z_scope.

(** ** Generic helpers *)

(** [Array.prototype.sort(cmp)]: a stable sort (ECMAScript 2019 onwards);
    [cmp a b <= 0] keeps [a] before [b]. *)
Fixpoint insert_by {A : Type} (cmp : A -> A -> Z) (x : A) (l : list A) : list A :=
  match l with
  | [] => [x]
  | y :: l' => if cmp x y <=? 0 then x :: y :: l' else y :: insert_by cmp x l'
  end.

Fixpoint sort_by {A : Type} (cmp : A -> A -> Z) (l : list A) : list A :=
  match l with
  | [] => []
  | x :: l' => insert_by cmp x (sort_by cmp l')
  end.

(** [xs.map(f)] for an [f] that can fail. *)
Fixpoint mapM {A B : Type} (f : A -> option B) (l : list A) : option (list B) :=
  match l with
  | [] => Some []
  | x :: l' =>
      match f x with
      | Some y => match mapM f l' with Some ys => Some (y :: ys) | None => None end
      | None => None
      end
  end.

(** [Math.min(...xs)] and [Math.max(...xs)] on a list headed by [x]. *)
Definition min_list (x : Z) (xs : list Z) : Z := fold_left Z.min xs x.
Definition max_list (x : Z) (xs : list Z) : Z := fold_left Z.max xs x.

(** ** JavaScript numbers *)

Inductive jsnum : Type :=
| JNaN
| JInf (negative : bool)
| JFin (q : Q).

Definition js_of_Z (z : Z) : jsnum := JFin (inject_Z z).

Definition q_neg (q : Q) : bool := (Qnum q <? 0)%Z.
Definition q_zero (q : Q) : bool := (Qnum q =? 0)%Z.

(** [a / b]. The zero divisor of the sources is a difference of integers,
    hence [+0]. *)
Definition js_div (a b : jsnum) : jsnum :=
  match a, b with
  | JNaN, _ | _, JNaN => JNaN
  | JInf _, JInf _ => JNaN
  | JInf s, JFin q => JInf (xorb s (q_neg q))
  | JFin _, JInf _ => JFin 0
  | JFin p, JFin q =>
      if q_zero q then (if q_zero p then JNaN else JInf (q_neg p))
      else JFin (p / q)
  end.

(** [a * b]. *)
Definition js_mul (a b : jsnum) : jsnum :=
  match a, b with
  | JNaN, _ | _, JNaN => JNaN
  | JInf s, JInf t => JInf (xorb s t)
  | JInf s, JFin q | JFin q, JInf s =>
      if q_zero q then JNaN else JInf (xorb s (q_neg q))
  | JFin p, JFin q => JFin (p * q)
  end.

(** [a + b]. *)
Definition js_add (a b : jsnum) : jsnum :=
  match a, b with
  | JNaN, _ | _, JNaN => JNaN
  | JInf s, JInf t => if Bool.eqb s t then JInf s else JNaN
  | JInf s, JFin _ | JFin _, JInf s => JInf s
  | JFin p, JFin q => JFin (p + q)
  end.

(** [a <= b]; every comparison with [NaN] is false. *)
Definition js_le (a b : jsnum) : bool :=
  match a, b with
  | JNaN, _ | _, JNaN => false
  | JInf true, _ => true
  | _, JInf false => true
  | JInf false, _ => false
  | _, JInf true => false
  | JFin p, JFin q => Qle_bool p q
  end.

(** [a >= b]. *)
Definition js_ge (a b : jsnum) : bool := js_le b a.

(** [Math.max(a, b)]: [NaN] as soon as one argument is [NaN]. *)
Definition js_max (a b : jsnum) : jsnum :=
  match a, b with
  | JNaN, _ | _, JNaN => JNaN
  | _, _ => if js_le a b then b else a
  end.

Definition js_finite (a : jsnum) : bool :=
  match a with JFin _ => true | _ => false end.

(** *** Rounding to binary64

    The arithmetic operations of JavaScript return the exact result rounded
    to the nearest binary64 value, ties to even: 53 significant bits, the
    exponent of the last bit not below -1074, infinity from [2^1024] on. *)

Definition pow2 (k : Z) : Q := (2 ^ k)%Q.

(** The nearest integer, ties to even. *)
Definition rne (q : Q) : Z :=
  let f := Qfloor q in
  match (q - inject_Z f ?= 1 # 2)%Q with
  | Lt => f
  | Gt => f + 1
  | Eq => if Z.even f then f else f + 1
  end.

(** [floor (log2 q)] for [0 < q]. *)
Definition ilog2 (q : Q) : Z :=
  let e := Z.log2 (Qnum q) - Z.log2 (Zpos (Qden q)) in
  if Qle_bool (pow2 e) q then e else e - 1.

(** The binary64 value nearest to the rational [q]. The sign of a zero is
    not kept. *)
Definition round64 (q : Q) : jsnum :=
  if Qeq_bool q 0 then JFin 0
  else
    let a := Qabs q in
    let k := Z.max (ilog2 a - 52) (-1074) in
    let r := (inject_Z (rne (a / pow2 k)) * pow2 k)%Q in
    if Qle_bool (pow2 1024) r then JInf (q_neg q)
    else JFin (if q_neg q then (- r)%Q else r).

Definition js_round (a : jsnum) : jsnum :=
  match a with JFin q => round64 q | _ => a end.

(** [a / b], [a * b] and [a + b] as the program computes them, for operands
    that are binary64 values. *)
Definition f64_div (a b : jsnum) : jsnum := js_round (js_div a b).
Definition f64_mul (a b : jsnum) : jsnum := js_round (js_mul a b).
Definition f64_add (a b : jsnum) : jsnum := js_round (js_add a b).

(** ** Data model ([types/tracing.ts]) *)

(** References are heap addresses. *)
Abbreviation loc := nat.

Record TraceSpan : Type := mkTraceSpan {
  span_id : string;
  trace_id : string;
  parent_span_id : option string;   (* [undefined] and [null] are [None] *)
  name : string;
  start_time : Z;
  end_time : Z;
  status_code : string;
  status_message : option string;
  attributes : loc;                 (* reference to the attribute object *)
  events : loc;                     (* reference to the event array *)
  kind : string
}.

Record TraceSummary : Type := mkTraceSummary {
  s_trace_id : string;
  root_span_name : string;
  session_id : option string;
  conversation_id : option string;
  s_start_time : Z;
  s_end_time : Z;
  span_count : Z
}.

(** [interface TimelineSpan extends TraceSpan]: the copied span fields are
    kept together in [ts_span]; [children] holds references. *)
Record TimelineSpan : Type := mkTimelineSpan {
  ts_span : TraceSpan;
  depth : nat;
  children : list loc;
  startMs : Z;
  durationMs : Z
}.

Inductive attr_value : Type :=
| ANum (z : Z)
| AStr (s : string)
| ABool (b : bool)
| ANull.

Record TraceEvent : Type := mkTraceEvent {
  ev_name : string;
  ev_timestamp : Z;
  ev_attributes : loc
}.

(** Heap objects. *)
Inductive obj : Type :=
| OSpan (s : TraceSpan)
| OAttrs (kv : list (string * attr_value))
| OEvents (evs : list TraceEvent)
| ONode (n : TimelineSpan).

Abbreviation heap := (list obj).

(** The value returned by the builder, read back from the heap: the object
    graph below a root, with the address of every node. *)
Inductive SpanNode : Type :=
| SNode (ref : loc) (ts : TimelineSpan) (kids : list SpanNode).

Definition node_ref (n : SpanNode) : loc := let (r, _, _) := n in r.
Definition node_ts (n : SpanNode) : TimelineSpan := let (_, t, _) := n in t.
Definition node_kids (n : SpanNode) : list SpanNode := let (_, _, k) := n in k.
Definition node_id (n : SpanNode) : string := span_id (ts_span (node_ts n)).
Definition node_depth (n : SpanNode) : nat := depth (node_ts n).

(** A JavaScript string is truthy when it is present and not empty. *)
Definition truthy (o : option string) : option string :=
  match o with
  | Some s => if String.eqb s "" then None else Some s
  | None => None
  end.

(** ** Span tree builder ([spanTree] of [TraceTimeline] and [ModernTraceTimeline]) *)

Module SpanTree.

(** [Map<string, TimelineSpan>]: keys in insertion order; [set] on a key
    that is present keeps its position and replaces its value. *)
Abbreviation spanMap := (list (string * loc)).

Fixpoint map_set (k : string) (v : loc) (m : spanMap) : spanMap :=
  match m with
  | [] => [(k, v)]
  | (k', v') :: m' =>
      if String.eqb k k' then (k', v) :: m' else (k', v') :: map_set k v m'
  end.

Fixpoint map_get (k : string) (m : spanMap) : option loc :=
  match m with
  | [] => None
  | (k', v') :: m' => if String.eqb k k' then Some v' else map_get k m'
  end.

Definition map_has (k : string) (m : spanMap) : bool :=
  match map_get k m with Some _ => true | None => false end.

Definition read_span (h : heap) (l : loc) : option TraceSpan :=
  match h !! l with Some (OSpan s) => Some s | _ => None end.

Definition read_node (h : heap) (l : loc) : option TimelineSpan :=
  match h !! l with Some (ONode n) => Some n | _ => None end.

(** [Math.min(...spans.map(s => new Date(s.start_time).getTime()))]. *)
Definition minTime (ss : list TraceSpan) : Z :=
  match ss with
  | [] => 0
  | s :: ss' => min_list (start_time s) (map start_time ss')
  end.

Definition timelineSpan (minT : Z) (span : TraceSpan) : TimelineSpan :=
  let startMs := start_time span - minT in
  let endMs := end_time span - minT in
  {| ts_span := span; depth := 0; children := [];
     startMs := startMs; durationMs := endMs - startMs |}.

(** Body of the first [spans.forEach]: allocate the node, index it. *)
Definition convert_step (minT : Z) (st : option (heap * spanMap)) (l : loc)
  : option (heap * spanMap) :=
  match st with
  | Some (h, m) =>
      match read_span h l with
      | Some span =>
          Some (h ++ [ONode (timelineSpan minT span)],
                map_set (span_id span) (length h) m)
      | None => None
      end
  | None => None
  end.

Definition push_child (c : loc) (n : TimelineSpan) : TimelineSpan :=
  {| ts_span := ts_span n; depth := depth n; children := children n ++ [c];
     startMs := startMs n; durationMs := durationMs n |}.

Definition set_depth (d : nat) (n : TimelineSpan) : TimelineSpan :=
  {| ts_span := ts_span n; depth := d; children := children n;
     startMs := startMs n; durationMs := durationMs n |}.

Definition set_children (cs : list loc) (n : TimelineSpan) : TimelineSpan :=
  {| ts_span := ts_span n; depth := depth n; children := cs;
     startMs := startMs n; durationMs := durationMs n |}.

(** The builder's mutable state after the conversion: the heap and the
    local array [rootSpans]. *)
Record state : Type := mkState {
  st_heap : heap;
  rootSpans : list loc
}.

(** [span.parent_span_id && spanMap.has(span.parent_span_id)], giving the
    parent's node when the test succeeds. *)
Definition resolve (m : spanMap) (span : TimelineSpan) : option loc :=
  match truthy (parent_span_id (ts_span span)) with
  | Some pid => map_get pid m
  | None => None
  end.

(** Body of [spanMap.forEach]. *)
Definition attach_step (m : spanMap) (st : option state) (e : string * loc)
  : option state :=
  match st with
  | Some (mkState h roots) =>
      let l := snd e in
      match read_node h l with
      | Some span =>
          match resolve m span with
          | Some pl =>
              match read_node h pl with
              | Some parent =>
                  (* parent.children.push(span) *)
                  let h1 := <[pl := ONode (push_child l parent)]> h in
                  (* span.depth = parent.depth + 1 *)
                  match read_node h1 l, read_node h1 pl with
                  | Some span1, Some parent1 =>
                      Some (mkState
                              (<[l := ONode (set_depth (depth parent1 + 1) span1)]> h1)
                              roots)
                  | _, _ => None
                  end
              | None => None
              end
          | None => Some (mkState h (roots ++ [l]))   (* rootSpans.push(span) *)
          end
      | None => None
      end
  | None => None
  end.

(** The arrays that [sortChildren] receives. *)
Inductive aref : Type :=
| ARoots
| AChildren (l : loc).

Definition read_arr (st : state) (a : aref) : option (list loc) :=
  match a with
  | ARoots => Some (rootSpans st)
  | AChildren l =>
      match read_node (st_heap st) l with
      | Some n => Some (children n)
      | None => None
      end
  end.

Definition write_arr (st : state) (a : aref) (ls : list loc) : option state :=
  match a with
  | ARoots => Some (mkState (st_heap st) ls)
  | AChildren l =>
      match read_node (st_heap st) l with
      | Some n => Some (mkState (<[l := ONode (set_children ls n)]> (st_heap st))
                                (rootSpans st))
      | None => None
      end
  end.

Definition with_start (h : heap) (l : loc) : option (Z * loc) :=
  match read_node h l with
  | Some n => Some (startMs n, l)
  | None => None
  end.

(** [spans.sort((a, b) => a.startMs - b.startMs)], in place. *)
Definition sort_arr (st : state) (a : aref) : option (state * list loc) :=
  match read_arr st a with
  | Some ls =>
      match mapM (with_start (st_heap st)) ls with
      | Some keyed =>
          let sorted := map snd (sort_by (fun x y => fst x - fst y) keyed) in
          match write_arr st a sorted with
          | Some st' => Some (st', sorted)
          | None => None
          end
      | None => None
      end
  | None => None
  end.

(** [sortChildren]; [fuel] bounds the depth of the recursion, [None] stands
    for a recursion that does not return within it. The [forEach] runs over
    the array as it is after the sort. *)
Fixpoint sortChildren (fuel : nat) (st : state) (a : aref) : option state :=
  match fuel with
  | O => None
  | S fuel' =>
      match sort_arr st a with
      | Some (st1, sorted) =>
          fold_left
            (fun acc l =>
               match acc with
               | Some s => sortChildren fuel' s (AChildren l)
               | None => None
               end)
            sorted (Some st1)
      | None => None
      end
  end.

(** Reading the returned [rootSpans] back as a forest. *)
Fixpoint reify (fuel : nat) (h : heap) (ls : list loc) : option (list SpanNode) :=
  match fuel with
  | O => None
  | S fuel' =>
      mapM (fun l =>
              match read_node h l with
              | Some n =>
                  match reify fuel' h (children n) with
                  | Some kids => Some (SNode l n kids)
                  | None => None
                  end
              | None => None
              end) ls
  end.

(** The three phases, up to [return rootSpans]. [spans] is the input array
    (references to span objects of the heap [h]). *)
Definition build (h : heap) (spans : list loc) : option (spanMap * state) :=
  match mapM (read_span h) spans with
  | Some ss =>
      let minT := minTime ss in
      match fold_left (convert_step minT) spans (Some (h, [])) with
      | Some (h1, m) =>
          match fold_left (attach_step m) m (Some (mkState h1 [])) with
          | Some st => Some (m, st)
          | None => None
          end
      | None => None
      end
  | None => None
  end.

Definition spanTree_state (h : heap) (spans : list loc) : option state :=
  match spans with
  | [] => Some (mkState h [])                 (* if (!spans.length) return [] *)
  | _ =>
      match build h spans with
      | Some (_, st) => sortChildren (S (length spans)) st ARoots
      | None => None
      end
  end.

Definition spanTree (h : heap) (spans : list loc) : option (list SpanNode) :=
  match spanTree_state h spans with
  | Some st => reify (S (length spans)) (st_heap st) (rootSpans st)
  | None => None
  end.

End SpanTree.

(** ** Timeline layout ([flattenedSpans], [maxTime] and the bar placement) *)

Module Timeline.

(** [flattenedSpans]: the sequence of [result.push(span)] calls made by
    [flatten(spanTree)] for the collapsed set [collapsedSpans]. *)
Fixpoint flatten_span (collapsedSpans : gset string) (span : SpanNode) : list SpanNode :=
  match span with
  | SNode _ ts kids =>
      span ::
        (if decide (span_id (ts_span ts) ∈ collapsedSpans) then []
         else flat_map (flatten_span collapsedSpans) kids)
  end.

Definition flatten (collapsedSpans : gset string) (spans : list SpanNode) : list SpanNode :=
  flat_map (flatten_span collapsedSpans) spans.

(** [toggleCollapse]. *)
Definition toggleCollapse (collapsedSpans : gset string) (spanId : string) : gset string :=
  if decide (spanId ∈ collapsedSpans) then collapsedSpans ∖ {[spanId]}
  else collapsedSpans ∪ {[spanId]}.

(** [maxTime]: 1 for the empty trace, else the latest end minus the earliest
    start. *)
Definition maxTime (spans : list TraceSpan) : Z :=
  match spans with
  | [] => 1
  | s :: ss =>
      let minTime := min_list (start_time s) (map start_time ss) in
      max_list (end_time s) (map end_time ss) - minTime
  end.

(** [ModernTraceTimeline]: bar placement in percent of the track,
    [Math.max(2, (span.durationMs / maxTime) * 100)] and
    [(span.startMs / maxTime) * 100], each operation rounded to binary64. *)
Definition barWidth (maxT : Z) (span : TimelineSpan) : jsnum :=
  js_max (js_of_Z 2)
         (f64_mul (f64_div (js_of_Z (durationMs span)) (js_of_Z maxT)) (js_of_Z 100)).

Definition barLeft (maxT : Z) (span : TimelineSpan) : jsnum :=
  f64_mul (f64_div (js_of_Z (startMs span)) (js_of_Z maxT)) (js_of_Z 100).

(** [TraceTimeline] (canvas): bar placement in pixels. *)
Definition leftMargin : Z := 300.
Definition rightMargin : Z := 20.

Definition canvas_x (maxT width : Z) (span : TimelineSpan) : jsnum :=
  let timelineWidth := width - leftMargin - rightMargin in
  f64_add (js_of_Z leftMargin)
          (f64_mul (f64_div (js_of_Z (startMs span)) (js_of_Z maxT)) (js_of_Z timelineWidth)).

Definition canvas_w (maxT width : Z) (span : TimelineSpan) : jsnum :=
  let timelineWidth := width - leftMargin - rightMargin in
  js_max (js_of_Z 2)
         (f64_mul (f64_div (js_of_Z (durationMs span)) (js_of_Z maxT)) (js_of_Z timelineWidth)).

End Timeline.

(** ** Metrics aggregators *)

(** [new Date(t.end_time).getTime() - new Date(t.start_time).getTime()]. *)
Definition duration (t : TraceSummary) : Z := s_end_time t - s_start_time t.

(** [sortedLatencies[i] || 0]: an index out of range reads [undefined], and
    [undefined] and [0] are both falsy. *)
Definition at_or_zero (l : list Z) (i : Z) : Z :=
  if i <? 0 then 0
  else match nth_error l (Z.to_nat i) with
       | Some v => if v =? 0 then 0 else v
       | None => 0
       end.

Definition sum_Z (l : list Z) : Z := fold_left Z.add l 0.

Definition len {A : Type} (l : list A) : Z := Z.of_nat (length l).

(** [spans.filter(s => s.status_code === 'ERROR').length]. *)
Definition errorCount (spans : list TraceSpan) : Z :=
  len (List.filter (fun s => String.eqb (status_code s) "ERROR") spans).

(** [traces.length > 1 ? start(traces[0]) - start(traces[length - 1]) : 3600000]. *)
Definition timeSpan (traces : list TraceSummary) : Z :=
  match traces with
  | t0 :: _ :: _ => s_start_time t0 - s_start_time (List.last traces t0)
  | _ => 3600000
  end.

(** [(traces.length / Math.max(timeSpan, 3600000)) * 3600000], the division
    and the product rounded to binary64. *)
Definition throughput_of (traces : list TraceSummary) : jsnum :=
  f64_mul (f64_div (js_of_Z (len traces)) (js_of_Z (Z.max (timeSpan traces) 3600000)))
          (js_of_Z 3600000).

(** [Math.floor(n * 0.95)] and [Math.floor(n * 0.99)] for an array length
    [n]: the binary64 product rounds to the exact product whenever that is an
    integer, so the floor is the one of the exact quotient. *)
Definition p95Index (n : Z) : Z := (n * 95) / 100.
Definition p99Index (n : Z) : Z := (n * 99) / 100.

Module TraceMetrics.

Record Metrics : Type := mkMetrics {
  avgLatency : Q;
  p95Latency : Z;
  errorRate : Q;
  throughput : jsnum
}.

Definition metrics (traces : list TraceSummary) (spans : list TraceSpan) : Metrics :=
  match traces with
  | [] => {| avgLatency := 0%Q; p95Latency := 0; errorRate := 0%Q;
             throughput := js_of_Z 0 |}
  | _ =>
      let latencies := map duration traces in
      let avgLatency := (inject_Z (sum_Z latencies) / inject_Z (len latencies))%Q in
      let sortedLatencies := sort_by (fun a b => a - b) latencies in
      let p95Latency := at_or_zero sortedLatencies (p95Index (len sortedLatencies)) in
      let errorRate :=
        match spans with
        | [] => 0%Q
        | _ => ((inject_Z (errorCount spans) / inject_Z (len spans)) * 100)%Q
        end in
      {| avgLatency := avgLatency; p95Latency := p95Latency;
         errorRate := errorRate; throughput := throughput_of traces |}
  end.

End TraceMetrics.

Module ResponsiveMetricCards.

Record Metrics : Type := mkMetrics {
  avgLatency : Q;
  p95Latency : Z;
  p99Latency : Z;
  errorRate : Q;
  throughput : jsnum;
  successRate : Q;
  slowestTrace : Z
}.

Definition metrics (traces : list TraceSummary) (spans : list TraceSpan) : Metrics :=
  match traces with
  | [] => {| avgLatency := 0%Q; p95Latency := 0; p99Latency := 0; errorRate := 0%Q;
             throughput := js_of_Z 0; successRate := 0%Q; slowestTrace := 0 |}
  | t0 :: ts =>
      let latencies := map duration traces in
      let avgLatency := (inject_Z (sum_Z latencies) / inject_Z (len latencies))%Q in
      let sortedLatencies := sort_by (fun a b => a - b) latencies in
      let p95Latency := at_or_zero sortedLatencies (p95Index (len sortedLatencies)) in
      let p99Latency := at_or_zero sortedLatencies (p99Index (len sortedLatencies)) in
      let slowestTrace := max_list (duration t0) (map duration ts) in
      let errorRate :=
        match spans with
        | [] => 0%Q
        | _ => ((inject_Z (errorCount spans) / inject_Z (len spans)) * 100)%Q
        end in
      let successRate := (100 - errorRate)%Q in
      {| avgLatency := avgLatency; p95Latency := p95Latency; p99Latency := p99Latency;
         errorRate := errorRate; throughput := throughput_of traces;
         successRate := successRate; slowestTrace := slowestTrace |}
  end.

End ResponsiveMetricCards.

(** ** Strings and [parseFloat] *)

(** [toLowerCase] on the ASCII range. *)
Definition lower_ascii (c : ascii) : ascii :=
  let n := nat_of_ascii c in
  if ((65 <=? n) && (n <=? 90))%nat then ascii_of_nat (n + 32) else c.

Fixpoint toLowerCase (s : string) : string :=
  match s with
  | EmptyString => EmptyString
  | String c s' => String (lower_ascii c) (toLowerCase s')
  end.

(** [s.includes(t)]. *)
Fixpoint includes (s t : string) : bool :=
  if String.prefix t s then true
  else match s with
       | EmptyString => false
       | String _ s' => includes s' t
       end.

Definition is_ws (c : ascii) : bool :=
  let n := nat_of_ascii c in
  ((n =? 9) || (n =? 10) || (n =? 11) || (n =? 12) || (n =? 13) || (n =? 32))%nat.

Fixpoint skip_ws (s : string) : string :=
  match s with
  | String c s' => if is_ws c then skip_ws s' else s
  | EmptyString => s
  end.

Definition digit_of (c : ascii) : option Z :=
  let n := Z.of_nat (nat_of_ascii c) in
  if (48 <=? n) && (n <=? 57) then Some (n - 48) else None.

(** Longest run of decimal digits at the head of [s]: its value continued
    from [acc], the number of digits read, and the rest. *)
Fixpoint read_digits (acc : Z) (cnt : nat) (s : string) : Z * nat * string :=
  match s with
  | String c s' =>
      match digit_of c with
      | Some d => read_digits (acc * 10 + d) (S cnt) s'
      | None => (acc, cnt, s)
      end
  | EmptyString => (acc, cnt, s)
  end.

Definition read_sign (s : string) : bool * string :=
  match s with
  | String "-" s' => (true, s')
  | String "+" s' => (false, s')
  | _ => (false, s)
  end.

(** The exponent part, when it is complete; 0 otherwise. *)
Definition read_exponent (s : string) : Z :=
  match s with
  | String c s' =>
      if (Ascii.eqb c "e" || Ascii.eqb c "E")%bool then
        let '(neg, s'') := read_sign s' in
        let '(e, cnt, _) := read_digits 0 0 s'' in
        match cnt with
        | O => 0
        | _ => if neg then - e else e
        end
      else 0
  | EmptyString => 0
  end.

Definition scale10 (q : Q) (e : Z) : Q :=
  if 0 <=? e then (q * inject_Z (10 ^ e))%Q
  else (q / inject_Z (10 ^ (- e)))%Q.

(** [parseFloat(s)]: leading white space is skipped, then the longest
    prefix that is a decimal literal is read; [NaN] when there is none. *)
Definition parseFloat (s : string) : jsnum :=
  let '(neg, s1) := read_sign (skip_ws s) in
  if String.prefix "Infinity" s1 then JInf neg
  else
    let '(ip, ic, s2) := read_digits 0 0 s1 in
    let '(fp, fc, s3) :=
      match s2 with
      | String "." s2' => read_digits 0 0 s2'
      | _ => (0, O, s2)
      end in
    match ic, fc with
    | O, O => JNaN
    | _, _ =>
        let mant := (inject_Z (ip * 10 ^ Z.of_nat fc + fp) / inject_Z (10 ^ Z.of_nat fc))%Q in
        let v := scale10 mant (read_exponent s3) in
        JFin (Qred (if neg then - v else v)%Q)
    end.

(** ** Trace filter engines *)

Definition opt_includes (o : option string) (term : string) : bool :=
  match truthy o with
  | Some s => includes (toLowerCase s) term
  | None => false
  end.

(** [trace.session_id === filters.sessionId]. *)
Definition opt_eqb (o : option string) (s : string) : bool :=
  match o with
  | Some x => String.eqb x s
  | None => false
  end.

Definition nonempty (s : string) : bool := negb (String.eqb s "").

Definition search_filter (searchTerm : string) (traces : list TraceSummary) :=
  if nonempty searchTerm then
    let term := toLowerCase searchTerm in
    List.filter (fun trace =>
      includes (toLowerCase (root_span_name trace)) term
      || includes (toLowerCase (s_trace_id trace)) term
      || opt_includes (session_id trace) term) traces
  else traces.

Definition min_filter (minDuration : string) (traces : list TraceSummary) :=
  if nonempty minDuration then
    let minMs := parseFloat minDuration in
    List.filter (fun trace => js_ge (js_of_Z (duration trace)) minMs) traces
  else traces.

Definition max_filter (maxDuration : string) (traces : list TraceSummary) :=
  if nonempty maxDuration then
    let maxMs := parseFloat maxDuration in
    List.filter (fun trace => js_le (js_of_Z (duration trace)) maxMs) traces
  else traces.

Definition session_filter (sessionId : string) (traces : list TraceSummary) :=
  if nonempty sessionId then
    List.filter (fun trace => opt_eqb (session_id trace) sessionId) traces
  else traces.

Module TraceSearch.

Record Filters : Type := mkFilters {
  searchTerm : string;
  minDuration : string;
  maxDuration : string;
  status : string;
  sessionId : string;
  dateRange : string
}.

(** The predicate of the status filter, on a duration. *)
Definition status_matches (status : string) (d : Z) : bool :=
  if String.eqb status "error" then 10000 <? d
  else if String.eqb status "success" then d <=? 10000
  else true.

Definition status_filter (status : string) (traces : list TraceSummary) :=
  if negb (String.eqb status "all") then
    List.filter (fun trace => status_matches status (duration trace)) traces
  else traces.

Definition cutoff (now : Z) (dateRange : string) : Z :=
  if String.eqb dateRange "1h" then now - 60 * 60 * 1000
  else if String.eqb dateRange "24h" then now - 24 * 60 * 60 * 1000
  else if String.eqb dateRange "7d" then now - 7 * 24 * 60 * 60 * 1000
  else 0.

Definition date_filter (now : Z) (dateRange : string) (traces : list TraceSummary) :=
  if negb (String.eqb dateRange "all") then
    List.filter (fun trace => cutoff now dateRange <=? s_start_time trace) traces
  else traces.

(** [filteredTraces]; [now] is the reading of [new Date()]. *)
Definition filteredTraces (now : Z) (traces : list TraceSummary) (filters : Filters)
  : list TraceSummary :=
  let filtered := traces in
  let filtered := search_filter (searchTerm filters) filtered in
  let filtered := min_filter (minDuration filters) filtered in
  let filtered := max_filter (maxDuration filters) filtered in
  let filtered := status_filter (status filters) filtered in
  let filtered := session_filter (sessionId filters) filtered in
  let filtered := date_filter now (dateRange filters) filtered in
  filtered.

End TraceSearch.

Module AdvancedTraceSearch.

Record Filters : Type := mkFilters {
  searchTerm : string;
  minDuration : string;
  maxDuration : string;
  status : string;
  sessionId : string;
  dateRange : string;
  sortBy : string;
  sortOrder : string
}.

(** The predicate of the status filter, on a duration. *)
Definition status_matches (status : string) (d : Z) : bool :=
  if String.eqb status "error" then 15000 <? d
  else if String.eqb status "success" then d <=? 5000
  else if String.eqb status "slow" then (5000 <? d) && (d <=? 15000)
  else true.

Definition status_filter (status : string) (traces : list TraceSummary) :=
  if negb (String.eqb status "all") then
    List.filter (fun trace => status_matches status (duration trace)) traces
  else traces.

Definition cutoff (now : Z) (dateRange : string) : Z :=
  if String.eqb dateRange "15m" then now - 15 * 60 * 1000
  else if String.eqb dateRange "1h" then now - 60 * 60 * 1000
  else if String.eqb dateRange "6h" then now - 6 * 60 * 60 * 1000
  else if String.eqb dateRange "24h" then now - 24 * 60 * 60 * 1000
  else if String.eqb dateRange "7d" then now - 7 * 24 * 60 * 60 * 1000
  else 0.

Definition date_filter (now : Z) (dateRange : string) (traces : list TraceSummary) :=
  if negb (String.eqb dateRange "all") then
    List.filter (fun trace => cutoff now dateRange <=? s_start_time trace) traces
  else traces.

(** The comparator handed to [filtered.sort]. *)
Definition compare_traces (sortBy sortOrder : string) (a b : TraceSummary) : Z :=
  let comparison :=
    if String.eqb sortBy "timestamp" then s_start_time a - s_start_time b
    else if String.eqb sortBy "duration" then duration a - duration b
    else if String.eqb sortBy "spans" then span_count a - span_count b
    else 0 in
  if String.eqb sortOrder "desc" then - comparison else comparison.

(** [filteredTraces]; [now] is the reading of [new Date()]. *)
Definition filteredTraces (now : Z) (traces : list TraceSummary) (filters : Filters)
  : list TraceSummary :=
  let filtered := traces in
  let filtered := search_filter (searchTerm filters) filtered in
  let filtered := min_filter (minDuration filters) filtered in
  let filtered := max_filter (maxDuration filters) filtered in
  let filtered := status_filter (status filters) filtered in
  let filtered := session_filter (sessionId filters) filtered in
  let filtered := date_filter now (dateRange filters) filtered in
  sort_by (compare_traces (sortBy filters) (sortOrder filters)) filtered.

End AdvancedTraceSearch.

(** * Specifications, invariants and sample inputs *)

Import SpanTree.

(** ** Spec-level definitions *)

(** The error rate of the span input alone, as the spec words it. *)
Definition spec_errorRate (spans : list TraceSpan) : Q :=
  match spans with
  | [] => 0%Q
  | _ => ((inject_Z (errorCount spans) / inject_Z (len spans)) * 100)%Q
  end.

(** The words of the spec: the pre-order traversal of the forest, every node
    with the ids of its proper ancestors, of which the nodes whose proper
    ancestors are all expanded are kept. *)
Fixpoint preorder_span (ancestors : list string) (span : SpanNode)
  : list (list string * SpanNode) :=
  match span with
  | SNode _ ts kids =>
      (ancestors, span)
        :: flat_map (preorder_span (ancestors ++ [span_id (ts_span ts)])) kids
  end.

Definition preorder (forest : list SpanNode) : list (list string * SpanNode) :=
  flat_map (preorder_span []) forest.

Definition expanded (collapsed : gset string) (ancestors : list string) : bool :=
  forallb (fun a => negb (bool_decide (a ∈ collapsed))) ancestors.

(** No proper ancestor has the id [x]: the node is not a descendant of [x]. *)
Definition not_below (x : string) (ancestors : list string) : bool :=
  forallb (fun a => negb (String.eqb a x)) ancestors.

Definition visible (collapsed : gset string) (forest : list SpanNode)
  : list (list string * SpanNode) :=
  List.filter (fun p => expanded collapsed (fst p)) (preorder forest).

Definition spec_flatten (collapsed : gset string) (forest : list SpanNode) : list SpanNode :=
  map snd (visible collapsed forest).

(** ** Invariants of the span tree builder *)

(** The fields of a node that the builder never writes after creation. *)
Definition same_static (n n' : TimelineSpan) : Prop :=
  ts_span n' = ts_span n /\ startMs n' = startMs n /\ durationMs n' = durationMs n.

Section Resolution.

(** The heap and the index as the conversion loop leaves them. *)
Variable h1 : heap.
Variable m : spanMap.

(** The nodes in the order of [spanMap.forEach], and the parent that the
    test of the attachment loop finds for a node. *)
Definition order : list loc := map snd m.

Definition par (l : loc) : option loc :=
  match read_node h1 l with
  | Some n => resolve m n
  | None => None
  end.

Definition kids_in (es : list loc) (l : loc) : list loc :=
  List.filter (fun c => bool_decide (par c = Some l)) es.

Definition roots_in (es : list loc) : list loc :=
  List.filter (fun c => bool_decide (par c = None)) es.

(** Heaps that differ from [h1] only in the mutable fields of indexed nodes. *)
Definition inv (h : heap) : Prop :=
  forall l,
    (~ In l order -> h !! l = h1 !! l)
    /\ (forall n1, read_node h1 l = Some n1 ->
        exists n, read_node h l = Some n /\ same_static n1 n).

(** State of the attachment loop once the nodes [es] have been visited. *)
Definition attached (es : list loc) (st : state) : Prop :=
  inv (st_heap st)
  /\ (forall l n, In l order -> read_node (st_heap st) l = Some n ->
        children n = kids_in es l)
  /\ rootSpans st = roots_in es.

(** The [j]-th ancestor of a node along resolved parents. *)
Fixpoint up (j : nat) (l : loc) : option loc :=
  match j with
  | O => Some l
  | S j' => match par l with Some p => up j' p | None => None end
  end.

(** [level d l]: [d] parent steps lead from [l] to a node without a resolved
    parent. *)
Definition level (d : nat) (l : loc) : Prop :=
  exists r, up d l = Some r /\ par r = None.

(** The parent chain of a node of level [d]: [d + 1] distinct indexed nodes. *)
Fixpoint chain (d : nat) (l : loc) : list loc :=
  l :: match d with
       | O => []
       | S d' => match par l with Some p => chain d' p | None => [] end
       end.

Definition heap_inv (h : heap) : Prop :=
  inv h
  /\ forall l n, In l order -> read_node h l = Some n ->
       Permutation (children n) (kids_in order l).

Definition sorted_inv (st : state) : Prop :=
  heap_inv (st_heap st) /\ Permutation (rootSpans st) (roots_in order).

(** The level of the elements of an array handed to [sortChildren]. *)
Definition arr_level (a : aref) (d : nat) : Prop :=
  match a with
  | ARoots => d = 0%nat
  | AChildren l => In l order /\ exists d', d = S d' /\ level d' l
  end.

End Resolution.

(** A tree that agrees with the heap: what [reify] reads. *)
Inductive reified (h : heap) : SpanNode -> Prop :=
| reified_node (r : loc) (ts : TimelineSpan) (kids : list SpanNode) :
    read_node h r = Some ts ->
    map node_ref kids = children ts ->
    List.Forall (reified h) kids ->
    reified h (SNode r ts kids).

(** The references of the nodes of a tree, in pre-order. *)
Fixpoint refs_of (n : SpanNode) : list loc :=
  match n with
  | SNode r _ kids => r :: flat_map refs_of kids
  end.

(** The nodes of a tree, in pre-order. *)
Fixpoint nodes_of (n : SpanNode) : list SpanNode :=
  match n with
  | SNode _ _ kids => n :: flat_map nodes_of kids
  end.

Definition forest_nodes (f : list SpanNode) : list SpanNode := flat_map nodes_of f.

(** The index that the conversion loop builds for the spans [ss], the first
    node being allocated at [base]. *)
Fixpoint index_spans (base : nat) (ss : list TraceSpan) (m : spanMap) : spanMap :=
  match ss with
  | [] => m
  | s :: ss' => index_spans (S base) ss' (map_set (span_id s) base m)
  end.

(** Position of the last span of [ss] with id [k], and that span. *)
Fixpoint last_index (k : string) (ss : list TraceSpan) : option nat :=
  match ss with
  | [] => None
  | s :: ss' =>
      match last_index k ss' with
      | Some i => Some (S i)
      | None => if String.eqb k (span_id s) then Some 0%nat else None
      end
  end.

Fixpoint find_last (k : string) (ss : list TraceSpan) : option TraceSpan :=
  match ss with
  | [] => None
  | s :: ss' =>
      match find_last k ss' with
      | Some s' => Some s'
      | None => if String.eqb k (span_id s) then Some s else None
      end
  end.

Definition fresh_nodes (minT : Z) (ss : list TraceSpan) : heap :=
  map (fun s => ONode (timelineSpan minT s)) ss.

(** The heap and the index after the conversion loop over the spans [ss],
    started on the heap [h]. *)
Definition heap1 (h : heap) (ss : list TraceSpan) (minT : Z) : heap :=
  h ++ fresh_nodes minT ss.

Definition index1 (h : heap) (ss : list TraceSpan) : spanMap :=
  index_spans (length h) ss [].

(** The id that the attachment loop resolves as the parent of the span
    indexed under [k]: the [parent_span_id] of the last span with id [k], when
    it is truthy and some span of the input has it as id. *)
Definition parent_id (ss : list TraceSpan) (k : string) : option string :=
  match find_last k ss with
  | Some s =>
      match truthy (parent_span_id s) with
      | Some pid => match find_last pid ss with Some _ => Some pid | None => None end
      | None => None
      end
  | None => None
  end.

Fixpoint ancestor_id (ss : list TraceSpan) (j : nat) (k : string) : option string :=
  match j with
  | O => Some k
  | S j' => match parent_id ss k with Some p => ancestor_id ss j' p | None => None end
  end.

(** The parent chain of [k] revisits [k]. *)
Definition on_cycle (ss : list TraceSpan) (k : string) : Prop :=
  exists j, (0 < j)%nat /\ ancestor_id ss j k = Some k.

(** ** Sample inputs *)

Definition summary (start stop : Z) : TraceSummary :=
  {| s_trace_id := "trace-1"; root_span_name := "chat.send_message";
     session_id := None; conversation_id := None;
     s_start_time := start; s_end_time := stop; span_count := 1 |}.

Definition advanced_with_min (s : string) : AdvancedTraceSearch.Filters :=
  {| AdvancedTraceSearch.searchTerm := ""; AdvancedTraceSearch.minDuration := s;
     AdvancedTraceSearch.maxDuration := ""; AdvancedTraceSearch.status := "all";
     AdvancedTraceSearch.sessionId := ""; AdvancedTraceSearch.dateRange := "all";
     AdvancedTraceSearch.sortBy := "timestamp"; AdvancedTraceSearch.sortOrder := "desc" |}.

Definition advanced_with_status (s : string) : AdvancedTraceSearch.Filters :=
  {| AdvancedTraceSearch.searchTerm := ""; AdvancedTraceSearch.minDuration := "";
     AdvancedTraceSearch.maxDuration := ""; AdvancedTraceSearch.status := s;
     AdvancedTraceSearch.sessionId := ""; AdvancedTraceSearch.dateRange := "all";
     AdvancedTraceSearch.sortBy := "timestamp"; AdvancedTraceSearch.sortOrder := "desc" |}.

Definition simple_with_min (s : string) : TraceSearch.Filters :=
  {| TraceSearch.searchTerm := ""; TraceSearch.minDuration := s;
     TraceSearch.maxDuration := ""; TraceSearch.status := "all";
     TraceSearch.sessionId := ""; TraceSearch.dateRange := "all" |}.

Definition error_span : TraceSpan :=
  {| span_id := "s1"; trace_id := "t1"; parent_span_id := None;
     name := "provider.call"; start_time := 0; end_time := 10;
     status_code := "ERROR"; status_message := None;
     attributes := 0%nat; events := 1%nat; kind := "client" |}.

Definition instant_span : TraceSpan :=
  {| span_id := "s1"; trace_id := "t1"; parent_span_id := None;
     name := "storage.save"; start_time := 1000; end_time := 1000;
     status_code := "OK"; status_message := None;
     attributes := 0%nat; events := 1%nat; kind := "internal" |}.

Definition span_of (id : string) (parent : option string) (start stop : Z) : TraceSpan :=
  {| span_id := id; trace_id := "t1"; parent_span_id := parent;
     name := "chat.send_message"; start_time := start; end_time := stop;
     status_code := "OK"; status_message := None;
     attributes := 0%nat; events := 1%nat; kind := "internal" |}.

(** Scenario A as a forest: the root [R] with the children [C1] and [C2]. *)
Definition sample_forest : list SpanNode :=
  [SNode 5%nat
     {| ts_span := span_of "R" None 0 100; depth := 0; children := [6%nat; 7%nat];
        startMs := 0; durationMs := 100 |}
     [SNode 6%nat
        {| ts_span := span_of "C1" (Some "R") 10 40; depth := 1; children := [];
           startMs := 10; durationMs := 30 |} [];
      SNode 7%nat
        {| ts_span := span_of "C2" (Some "R") 50 90; depth := 1; children := [];
           startMs := 50; durationMs := 40 |} []]].

(** A span [X] that names itself as its parent. *)
Definition self_heap : heap :=
  [OAttrs []; OEvents []; OSpan (span_of "X" (Some "X") 20 30)].

(** The chain [A <- B <- C], the input listing every child before its parent. *)
Definition chain_heap : heap :=
  [OAttrs []; OEvents [];
   OSpan (span_of "C" (Some "B") 20 30);
   OSpan (span_of "B" (Some "A") 10 40);
   OSpan (span_of "A" None 0 100)].


(** The parent chain of [k] visits some span twice: [k] lies on a cycle of
    parent references or leads into one. *)
Definition chain_revisits (ss : list TraceSpan) (k : string) : Prop :=
  exists i j c, (i < j)%nat /\ ancestor_id ss i k = Some c /\ ancestor_id ss j k = Some c.

(** [D] leads into the cycle [A <-> B]; [R] is a root. *)
Definition cycle_heap : heap :=
  [OAttrs []; OEvents [];
   OSpan (span_of "D" (Some "A") 0 10);
   OSpan (span_of "A" (Some "B") 0 20);
   OSpan (span_of "B" (Some "A") 5 15);
   OSpan (span_of "R" None 0 100)].

(** A root [Q] listed after the root [R] that starts later, and the
    children of [R] listed latest first. *)
Definition sibling_heap : heap :=
  [OAttrs []; OEvents [];
   OSpan (span_of "R" None 5 100);
   OSpan (span_of "B" (Some "R") 50 90);
   OSpan (span_of "A" (Some "R") 10 40);
   OSpan (span_of "Q" None 0 3)].

(** A trace summary of a session. *)
Definition summary_of (session conversation : option string) (start stop : Z)
  : TraceSummary :=
  {| s_trace_id := "trace-1"; root_span_name := "chat.send_message";
     session_id := session; conversation_id := conversation;
     s_start_time := start; s_end_time := stop; span_count := 1 |}.

Definition session_traces : list TraceSummary :=
  [summary_of (Some "s1") None 0 1; summary 5 9;
   summary_of (Some "s1") None 7 8; summary_of (Some "s2") (Some "c9") 3 4].

(** * Further components *)

(** ** The rest of the search panels ([TraceSearch], [AdvancedTraceSearch]) *)

(** [n.toString()] for an integer [n]. *)
Definition toString_Z (n : Z) : string := NilZero.string_of_int (Z.to_int n).

(** [Set<string>] filled by [add]: the members in insertion order. *)
Fixpoint set_add (x : string) (s : list string) : list string :=
  match s with
  | [] => [x]
  | y :: s' => if String.eqb x y then s else y :: set_add x s'
  end.

(** The comparison of [Array.prototype.sort()] without comparator, on
    strings: by code unit (bytes here). *)
Definition string_cmp (a b : string) : Z :=
  match String.compare a b with
  | Lt => -1
  | Eq => 0
  | Gt => 1
  end.

(** [sessionIds]: the distinct truthy session ids of the traces, sorted. *)
Definition sessionIds (traces : list TraceSummary) : list string :=
  let ids :=
    fold_left (fun ids trace =>
                 match truthy (session_id trace) with
                 | Some id => set_add id ids
                 | None => ids
                 end) traces [] in
  sort_by string_cmp ids.

Module TraceSearchPanel.

Import TraceSearch.

(** [clearFilters]: the state it sets, which is also the initial state. *)
Definition clearFilters : Filters :=
  {| searchTerm := ""; minDuration := ""; maxDuration := ""; status := "all";
     sessionId := ""; dateRange := "all" |}.

(** [Object.values(filters).some(value => value !== '' && value !== 'all')]. *)
Definition hasActiveFilters (filters : Filters) : bool :=
  existsb (fun value => negb (String.eqb value "") && negb (String.eqb value "all"))
    [searchTerm filters; minDuration filters; maxDuration filters; status filters;
     sessionId filters; dateRange filters].

End TraceSearchPanel.

Module AdvancedTraceSearchPanel.

Import AdvancedTraceSearch.

Record Preset : Type := mkPreset {
  label : string;
  min : Z;
  max : option Z        (* [None] is [Infinity] *)
}.

Definition DURATION_PRESETS : list Preset :=
  [ {| label := "Fast (< 1s)"; min := 0; max := Some 1000 |};
    {| label := "Normal (1-5s)"; min := 1000; max := Some 5000 |};
    {| label := "Slow (5-10s)"; min := 5000; max := Some 10000 |};
    {| label := "Very Slow (> 10s)"; min := 10000; max := None |} ].

(** [applyDurationPreset]: the filters after the update. *)
Definition applyDurationPreset (preset : Preset) (prev : Filters) : Filters :=
  {| searchTerm := searchTerm prev;
     minDuration := toString_Z (min preset);
     maxDuration := match max preset with None => "" | Some m => toString_Z m end;
     status := status prev; sessionId := sessionId prev; dateRange := dateRange prev;
     sortBy := sortBy prev; sortOrder := sortOrder prev |}.

(** [clearFilters]: the state it sets, which is also the initial state. *)
Definition clearFilters : Filters :=
  {| searchTerm := ""; minDuration := ""; maxDuration := ""; status := "all";
     sessionId := ""; dateRange := "all"; sortBy := "timestamp"; sortOrder := "desc" |}.



End AdvancedTraceSearchPanel.

(** ** The filter engines as one predicate *)

(** The tests that the stages of [filteredTraces] apply to one trace; a
    stage that is switched off accepts every trace. *)
Definition search_ok (searchTerm : string) (trace : TraceSummary) : bool :=
  if nonempty searchTerm then
    let term := toLowerCase searchTerm in
    includes (toLowerCase (root_span_name trace)) term
    || includes (toLowerCase (s_trace_id trace)) term
    || opt_includes (session_id trace) term
  else true.

Definition min_ok (minDuration : string) (trace : TraceSummary) : bool :=
  if nonempty minDuration then js_ge (js_of_Z (duration trace)) (parseFloat minDuration)
  else true.

Definition max_ok (maxDuration : string) (trace : TraceSummary) : bool :=
  if nonempty maxDuration then js_le (js_of_Z (duration trace)) (parseFloat maxDuration)
  else true.

Definition session_ok (sessionId : string) (trace : TraceSummary) : bool :=
  if nonempty sessionId then opt_eqb (session_id trace) sessionId else true.

Definition simple_keep (now : Z) (f : TraceSearch.Filters) (trace : TraceSummary) : bool :=
  search_ok (TraceSearch.searchTerm f) trace
  && min_ok (TraceSearch.minDuration f) trace
  && max_ok (TraceSearch.maxDuration f) trace
  && (if negb (String.eqb (TraceSearch.status f) "all")
      then TraceSearch.status_matches (TraceSearch.status f) (duration trace) else true)
  && session_ok (TraceSearch.sessionId f) trace
  && (if negb (String.eqb (TraceSearch.dateRange f) "all")
      then TraceSearch.cutoff now (TraceSearch.dateRange f) <=? s_start_time trace
      else true).

Definition advanced_keep (now : Z) (f : AdvancedTraceSearch.Filters) (trace : TraceSummary)
  : bool :=
  search_ok (AdvancedTraceSearch.searchTerm f) trace
  && min_ok (AdvancedTraceSearch.minDuration f) trace
  && max_ok (AdvancedTraceSearch.maxDuration f) trace
  && (if negb (String.eqb (AdvancedTraceSearch.status f) "all")
      then AdvancedTraceSearch.status_matches (AdvancedTraceSearch.status f) (duration trace)
      else true)
  && session_ok (AdvancedTraceSearch.sessionId f) trace
  && (if negb (String.eqb (AdvancedTraceSearch.dateRange f) "all")
      then AdvancedTraceSearch.cutoff now (AdvancedTraceSearch.dateRange f)
           <=? s_start_time trace
      else true).

(** The number that [compare_traces] compares for a [sortBy] value. *)
Definition sort_key (sortBy : string) (t : TraceSummary) : Z :=
  if String.eqb sortBy "timestamp" then s_start_time t
  else if String.eqb sortBy "duration" then duration t
  else if String.eqb sortBy "spans" then span_count t
  else 0.

(** The filters with both duration bounds switched off. *)
Definition without_bounds (f : AdvancedTraceSearch.Filters) : AdvancedTraceSearch.Filters :=
  {| AdvancedTraceSearch.searchTerm := AdvancedTraceSearch.searchTerm f;
     AdvancedTraceSearch.minDuration := "";
     AdvancedTraceSearch.maxDuration := "";
     AdvancedTraceSearch.status := AdvancedTraceSearch.status f;
     AdvancedTraceSearch.sessionId := AdvancedTraceSearch.sessionId f;
     AdvancedTraceSearch.dateRange := AdvancedTraceSearch.dateRange f;
     AdvancedTraceSearch.sortBy := AdvancedTraceSearch.sortBy f;
     AdvancedTraceSearch.sortOrder := AdvancedTraceSearch.sortOrder f |}.

(** The order that [sortOrder] asks for, on sort keys. *)
Definition key_order (sortOrder : string) (a b : Z) : Prop :=
  if String.eqb sortOrder "desc" then b <= a else a <= b.

Definition advanced_sorted_by (sortBy sortOrder : string) : AdvancedTraceSearch.Filters :=
  {| AdvancedTraceSearch.searchTerm := ""; AdvancedTraceSearch.minDuration := "";
     AdvancedTraceSearch.maxDuration := ""; AdvancedTraceSearch.status := "all";
     AdvancedTraceSearch.sessionId := ""; AdvancedTraceSearch.dateRange := "all";
     AdvancedTraceSearch.sortBy := sortBy; AdvancedTraceSearch.sortOrder := sortOrder |}.

(** ** Breakdown aggregates of the metrics ([TraceMetrics],
    [ResponsiveMetricCards]) *)

Module SpanAggregates.

(** [attributes[key]]; [None] is [undefined]. The keys of an object are
    distinct. *)
Fixpoint attr_get (kv : list (string * attr_value)) (key : string) : option attr_value :=
  match kv with
  | [] => None
  | (k, v) :: kv' => if String.eqb k key then Some v else attr_get kv' key
  end.

Definition attr_truthy (v : option attr_value) : bool :=
  match v with
  | Some (ANum z) => negb (z =? 0)
  | Some (AStr s) => negb (String.eqb s "")
  | Some (ABool b) => b
  | Some ANull => false
  | None => false
  end.

(** [a || b]. *)
Definition js_or (a b : option attr_value) : option attr_value :=
  if attr_truthy a then a else b.

Definition read_attrs (h : heap) (span : TraceSpan) : option (list (string * attr_value)) :=
  match h !! attributes span with
  | Some (OAttrs kv) => Some kv
  | _ => None
  end.

(** The members of [Object.prototype]: read on a plain object they are not
    [undefined], so [(counts[key] || 0) + 1] is not a number for them. *)
Definition proto_names : list string :=
  ["constructor"; "__proto__"; "hasOwnProperty"; "isPrototypeOf";
   "propertyIsEnumerable"; "toLocaleString"; "toString"; "valueOf";
   "__defineGetter__"; "__defineSetter__"; "__lookupGetter__"; "__lookupSetter__"].

Definition is_proto_name (key : string) : bool :=
  existsb (String.eqb key) proto_names.

(** [counts[key] = (counts[key] || 0) + 1] on a [Record<string, number>];
    [None] for a key of [proto_names], which the embedding leaves out. *)
Definition count_up (counts : gmap string Z) (key : string) : option (gmap string Z) :=
  if is_proto_name key then None
  else Some (<[key := default 0 (counts !! key) + 1]> counts).

(** [statusBreakdown]. *)
Definition statusBreakdown (traces : list TraceSummary) (spans : list TraceSpan)
  : option (gmap string Z) :=
  match traces with
  | [] => Some ∅
  | _ =>
      fold_left (fun acc span =>
                   match acc with
                   | Some counts => count_up counts (status_code span)
                   | None => None
                   end) spans (Some ∅)
  end.

(** The [model] of one span. *)
Definition model_of (kv : list (string * attr_value)) : option attr_value :=
  js_or (attr_get kv "model.name")
    (js_or (attr_get kv "model") (Some (AStr "unknown"))).

(** [modelBreakdown]. *)
Definition modelBreakdown (h : heap) (traces : list TraceSummary) (spans : list TraceSpan)
  : option (gmap string Z) :=
  match traces with
  | [] => Some ∅
  | _ =>
      fold_left (fun acc span =>
                   match acc, read_attrs h span with
                   | Some counts, Some kv =>
                       match model_of kv with
                       | Some (AStr model) => count_up counts model
                       | _ => Some counts
                       end
                   | _, _ => None
                   end) spans (Some ∅)
  end.

(** The key under which a span is counted in [modelBreakdown], if any. *)
Definition model_key (kv : list (string * attr_value)) : option string :=
  match model_of kv with
  | Some (AStr model) => Some model
  | _ => None
  end.

(** The sum of the counters of a breakdown. *)
Definition total (counts : gmap string Z) : Z :=
  map_fold (fun _ v acc => v + acc) 0 counts.

End SpanAggregates.

(** ** Canvas interaction of [TraceTimeline] *)

Module TimelineCanvas.

Definition rowHeight : Z := 32.

(** The [y] at which the row of the flattened span [index] is drawn. *)
Definition row_y (index : Z) : Z := 25 + index * rowHeight.

(** [Math.floor((y - 25) / rowHeight)] for a pointer at [y]. *)
Definition rowIndex (y : Q) : Z := Qfloor ((y - 25) / inject_Z rowHeight).

(** [flattenedSpans[i]] when [i >= 0 && i < flattenedSpans.length]. *)
Definition span_at (flattenedSpans : list SpanNode) (i : Z) : option SpanNode :=
  if (0 <=? i) && (i <? len flattenedSpans) then nth_error flattenedSpans (Z.to_nat i)
  else None.

(** [handleCanvasMouseMove]: the new value of [hoveredSpan]. *)
Definition handleCanvasMouseMove (flattenedSpans : list SpanNode) (y : Q) : option string :=
  match span_at flattenedSpans (rowIndex y) with
  | Some span => Some (node_id span)
  | None => None
  end.

(** What a click does. *)
Inductive click : Type :=
| Collapse (collapsedSpans : gset string)   (* [setCollapsedSpans(newCollapsed)] *)
| Select (span : SpanNode)                  (* [onSpanSelect?.(span)] *)
| Nothing.

(** [handleCanvasClick] for a pointer at [(x, y)]. *)
Definition handleCanvasClick (flattenedSpans : list SpanNode) (collapsedSpans : gset string)
    (x y : Q) : click :=
  match span_at flattenedSpans (rowIndex y) with
  | Some span =>
      let indent := inject_Z (Z.of_nat (node_depth span) * 16 + 8) in
      if negb (length (children (node_ts span)) =? 0)%nat
         && Qle_bool indent x && Qle_bool x (indent + 16)
      then Collapse (Timeline.toggleCollapse collapsedSpans (node_id span))
      else Select span
  | None => Nothing
  end.

(** [Math.max(400, flattenedSpans.length * 32 + 50)]: the canvas height. *)
Definition canvasHeight (flattenedSpans : list SpanNode) : Z :=
  Z.max 400 (len flattenedSpans * 32 + 50).

End TimelineCanvas.

(** ** Specification of the forest on span ids *)

(** Some span of the input has the id [k]. *)
Definition indexed (ss : list TraceSpan) (k : string) : Prop :=
  exists s, find_last k ss = Some s.

(** [d] resolved parent steps lead from [k] to a span without a resolved
    parent: the nesting level of [k]. *)
Definition level_id (ss : list TraceSpan) (d : nat) (k : string) : Prop :=
  exists r, ancestor_id ss d k = Some r /\ parent_id ss r = None.

Definition reaches_root (ss : list TraceSpan) (k : string) : Prop :=
  indexed ss k /\ exists d, level_id ss d k.

(** ** Depths *)

Definition depth_at (h : heap) (l : loc) : nat :=
  match read_node h l with Some n => depth n | None => 0%nat end.

Section DepthInvariant.

Variable h1 : heap.
Variable m : spanMap.

(** The attachment loop visits every resolved parent before its children. *)
Definition parents_before : Prop :=
  forall es1 l es2 p, order m = es1 ++ l :: es2 -> par h1 m l = Some p -> In p es1.

(** The depths once the attachment loop has visited the nodes [es]. *)
Definition depths_attached (es : list loc) (h : heap) : Prop :=
  forall l d, In l (order m) -> level h1 m d l ->
    (~ In l es -> depth_at h l = 0%nat)
    /\ (In l es ->
        (depth_at h l <= d)%nat
        /\ ((0 < d)%nat -> (1 <= depth_at h l)%nat)
        /\ (parents_before -> depth_at h l = d)).

End DepthInvariant.

(** The input lists every span after the span that its [parent_span_id]
    names, and no id twice. *)
Definition parents_first (ss : list TraceSpan) : Prop :=
  List.NoDup (map span_id ss)
  /\ forall i j s sp, nth_error ss i = Some s -> nth_error ss j = Some sp ->
       truthy (parent_span_id s) = Some (span_id sp) -> (j < i)%nat.

(** ** Order of siblings *)

Definition start_at (h : heap) (l : loc) : Z :=
  match read_node h l with Some n => startMs n | None => 0 end.

(** An array of node references in ascending order of [startMs]. *)
Definition by_start (h : heap) (ls : list loc) : Prop :=
  StronglySorted (fun a b => start_at h a <= start_at h b) ls.

(** The [children] array of the node at [l] is in ascending order. *)
Definition kids_sorted (h1 : heap) (st : state) (l : loc) : Prop :=
  forall n, read_node (st_heap st) l = Some n -> by_start h1 (children n).

(** The nodes that a call of [sortChildren] on the array [a] reaches: the
    elements of [a] and everything below them. *)
Definition below (h1 : heap) (m : spanMap) (a : aref) (y : loc) : Prop :=
  match a with
  | ARoots => exists j, level h1 m j y
  | AChildren l => exists j, up h1 m (S j) y = Some l
  end.

(** What a call of [sortChildren] on [a] leaves: arrays in order stay in
    order, [a] is in order, and so are the [children] of every node reached. *)
Definition sorts (h1 : heap) (m : spanMap) (a : aref) (st st' : state) : Prop :=
  (forall l, kids_sorted h1 st l -> kids_sorted h1 st' l)
  /\ match a with
     | ARoots => by_start h1 (rootSpans st')
     | AChildren l => rootSpans st' = rootSpans st /\ kids_sorted h1 st' l
     end
  /\ (forall y, In y (order m) -> below h1 m a y -> kids_sorted h1 st' y).

(** A list of nodes in ascending order of [startMs]. *)
Definition sorted_by_start (l : list SpanNode) : Prop :=
  StronglySorted (fun a b => startMs (node_ts a) <= startMs (node_ts b)) l.

(** ** [TraceGraph]: rows by depth and the time scale *)

(** [a - b]. *)
Definition js_sub (a b : jsnum) : jsnum :=
  match a, b with
  | JNaN, _ | _, JNaN => JNaN
  | JInf s, JInf t => if Bool.eqb s t then JNaN else JInf s
  | JInf s, JFin _ => JInf s
  | JFin _, JInf s => JInf (negb s)
  | JFin p, JFin q => JFin (p - q)
  end.

Module TraceGraph.

(** [type Node]; [parent] is [s.parent_span_id || null]. *)
Record Node : Type := mkNode {
  n_id : string;
  n_name : string;
  n_kind : string;
  n_start : Z;
  n_end : Z;
  n_parent : option string
}.

Definition node_of (s : TraceSpan) : Node :=
  {| n_id := span_id s; n_name := name s; n_kind := kind s;
     n_start := start_time s; n_end := end_time s;
     n_parent := truthy (parent_span_id s) |}.

Definition nodes (spans : list TraceSpan) : list Node := map node_of spans.

(** [timeBounds]. *)
Definition timeBounds (nodes : list Node) : Z * Z :=
  match nodes with
  | [] => (0, 1)
  | n :: ns => (min_list (n_start n) (map n_start ns), max_list (n_end n) (map n_end ns))
  end.

(** [byId.get(k)] for [byId = new Map(nodes.map(n => [n.id, n]))]: the last
    node with the id. *)
Fixpoint byId_get (k : string) (nodes : list Node) : option Node :=
  match nodes with
  | [] => None
  | n :: ns =>
      match byId_get k ns with
      | Some n' => Some n'
      | None => if String.eqb k (n_id n) then Some n else None
      end
  end.

(** [depth(n)] with the memo table [depthMap]; [fuel] bounds the depth of the
    recursion, [None] stands for a recursion that does not return within it. *)
Fixpoint depth (fuel : nat) (nodes : list Node) (depthMap : gmap string nat) (n : Node)
  : option (nat * gmap string nat) :=
  match fuel with
  | O => None
  | S fuel' =>
      match n_parent n with
      | None => Some (0%nat, depthMap)
      | Some p =>
          match byId_get p nodes with
          | None => Some (0%nat, depthMap)
          | Some pn =>
              match depthMap !! n_id n with
              | Some d => Some (d, depthMap)
              | None =>
                  match depth fuel' nodes depthMap pn with
                  | Some (dp, depthMap') =>
                      Some ((1 + dp)%nat, <[n_id n := (1 + dp)%nat]> depthMap')
                  | None => None
                  end
              end
          end
      end
  end.

(** [nodes.map(n => depth(n))], threading the memo table. *)
Fixpoint rows_from (fuel : nat) (nodes : list Node) (depthMap : gmap string nat)
    (ns : list Node) : option (list nat * gmap string nat) :=
  match ns with
  | [] => Some ([], depthMap)
  | n :: ns' =>
      match depth fuel nodes depthMap n with
      | Some (d, depthMap1) =>
          match rows_from fuel nodes depthMap1 ns' with
          | Some (ds, depthMap2) => Some (d :: ds, depthMap2)
          | None => None
          end
      | None => None
      end
  end.

Definition rows (fuel : nat) (nodes : list Node) : option (list nat) :=
  match rows_from fuel nodes ∅ nodes with
  | Some (ds, _) => Some ds
  | None => None
  end.

Definition padLeft : Z := 80.
Definition padRight : Z := 20.

(** [scaleX(t)] for a canvas of the given [width]. *)
Definition scaleX (bounds : Z * Z) (width : Z) (t : Z) : jsnum :=
  js_add (js_of_Z padLeft)
         (js_mul (js_div (js_of_Z (t - fst bounds))
                         (js_of_Z (Z.max 1 (snd bounds - fst bounds))))
                 (js_of_Z (width - padLeft - padRight))).

(** [w = Math.max(2, x2 - x1)]. *)
Definition barW (bounds : Z * Z) (width : Z) (n : Node) : jsnum :=
  js_max (js_of_Z 2)
         (js_sub (scaleX bounds width (n_end n)) (scaleX bounds width (n_start n))).

End TraceGraph.

(** The memo table of [depth] holds nesting levels only. *)
Definition memo_ok (ss : list TraceSpan) (depthMap : gmap string nat) : Prop :=
  forall k d, depthMap !! k = Some d -> level_id ss d k.

(** ** [ImprovedTraceView]: the span timeline of the selected trace *)

Module ImprovedTraceView.

(** An element of [timelineData]; [i_y] is the row, [i_order] the number
    shown in front of the row. *)
Record TimelineItem : Type := mkItem {
  i_span : TraceSpan;
  startX : Z;
  endX : Z;
  i_y : nat;
  i_duration : Z;
  i_order : nat;
  timestamp : Z
}.

(** [timelineData]. *)
Definition timelineData (selectedTraceId : option string) (spans : list TraceSpan)
  : list TimelineItem :=
  match truthy selectedTraceId, spans with
  | None, _ => []
  | _, [] => []
  | Some selected, _ =>
      let traceSpans :=
        sort_by (fun a b => start_time a - start_time b)
                (List.filter (fun span => String.eqb (trace_id span) selected) spans) in
      match traceSpans with
      | [] => []
      | first :: _ =>
          let baseTime := start_time first in
          imap (fun index span =>
                  let startMs := start_time span - baseTime in
                  let endMs := end_time span - baseTime in
                  {| i_span := span; startX := startMs; endX := endMs; i_y := index;
                     i_duration := endMs - startMs; i_order := (index + 1)%nat;
                     timestamp := start_time span |})
               traceSpans
      end
  end.

(** [Math.max(...timelineData.map(d => d.endX))] of a non-empty timeline. *)
Definition maxTime (timelineData : list TimelineItem) : Z :=
  match timelineData with
  | [] => 0
  | d :: ds => max_list (endX d) (map endX ds)
  end.

Definition paddingLeft : Z := 200.
Definition paddingRight : Z := 30.

(** [paddingLeft + (v / maxTime) * chartWidth]: the [startX] and [endX] of a
    bar of [TimelineGraph]. *)
Definition bar_x (maxTime : Z) (chartWidth : Q) (v : Z) : jsnum :=
  js_add (js_of_Z paddingLeft)
         (js_mul (js_div (js_of_Z v) (js_of_Z maxTime)) (JFin chartWidth)).

End ImprovedTraceView.

(** The comparison of [timelineData] and the row that it builds for a span. *)
Definition start_cmp (a b : TraceSpan) : Z := start_time a - start_time b.

Definition timeline_item (baseTime : Z) (index : nat) (span : TraceSpan)
  : ImprovedTraceView.TimelineItem :=
  {| ImprovedTraceView.i_span := span;
     ImprovedTraceView.startX := start_time span - baseTime;
     ImprovedTraceView.endX := end_time span - baseTime;
     ImprovedTraceView.i_y := index;
     ImprovedTraceView.i_duration :=
       end_time span - baseTime - (start_time span - baseTime);
     ImprovedTraceView.i_order := (index + 1)%nat;
     ImprovedTraceView.timestamp := start_time span |}.


(** ** [ImprovedTraceView]: traces grouped by session *)

Module SessionGroups.

Record SessionSummary : Type := mkSession {
  ss_session_id : string;
  title : string;
  first_message : string;
  created_at : Z;
  message_count : Z
}.

Record Group : Type := mkGroup {
  session : SessionSummary;
  traces : list TraceSummary
}.

(** [trace.conversation_id || trace.session_id], when it is truthy. *)
Definition sessionId (trace : TraceSummary) : option string :=
  match truthy (conversation_id trace) with
  | Some c => Some c
  | None => truthy (session_id trace)
  end.

(** [sessionSummaries.find(s => s.session_id === sessionId)]. *)
Definition find_session (sessionSummaries : list SessionSummary) (k : string)
  : option SessionSummary :=
  List.find (fun s => String.eqb (ss_session_id s) k) sessionSummaries.

(** The session of a new group. *)
Definition session_for (sessionSummaries : list SessionSummary) (k : string)
    (trace : TraceSummary) : SessionSummary :=
  match find_session sessionSummaries k with
  | Some s => s
  | None =>
      {| ss_session_id := k;
         title := "Session " ++ substring 0 8 k ++ "...";
         first_message := "";
         created_at := s_start_time trace;
         message_count := 0 |}
  end.

(** Body of [traces.forEach]. [None] for a session id that names a member
    of [Object.prototype]: [groups[sessionId]] is then not a group, and the
    [push] fails. *)
Definition group_step (sessionSummaries : list SessionSummary)
    (acc : option (gmap string Group)) (trace : TraceSummary)
  : option (gmap string Group) :=
  match acc with
  | Some groups =>
      match sessionId trace with
      | None => Some groups                      (* return: no session id *)
      | Some k =>
          if SpanAggregates.is_proto_name k then None
          else
            let group :=
              match groups !! k with
              | Some g => g
              | None => {| session := session_for sessionSummaries k trace; traces := [] |}
              end in
            Some (<[k := {| session := session group;
                            traces := traces group ++ [trace] |}]> groups)
      end
  | None => None
  end.

(** [group.traces.sort(...)]: newest first. *)
Definition newest_first (a b : TraceSummary) : Z := s_start_time b - s_start_time a.

Definition sort_group (g : Group) : Group :=
  {| session := session g; traces := sort_by newest_first (traces g) |}.

(** [groupedTraces]. *)
Definition groupedTraces (all : list TraceSummary) (sessionSummaries : list SessionSummary)
  : option (gmap string Group) :=
  match fold_left (group_step sessionSummaries) all (Some ∅) with
  | Some groups => Some (sort_group <$> groups)
  | None => None
  end.

End SessionGroups.

(** The traces of the session [k], in input order. *)
Definition of_session (k : string) (all : list TraceSummary) : list TraceSummary :=
  List.filter (fun t => bool_decide (SessionGroups.sessionId t = Some k)) all.

(** The group that the loop has built for [k] after the traces [seen]. *)
Definition group_after (sessionSummaries : list SessionGroups.SessionSummary)
    (seen : list TraceSummary) (k : string) : option SessionGroups.Group :=
  match of_session k seen with
  | [] => None
  | first :: rest =>
      Some {| SessionGroups.session := SessionGroups.session_for sessionSummaries k first;
              SessionGroups.traces := first :: rest |}
  end.

(** ** Order of a sorted array *)

(** [a] may stay before [b] in an array sorted with the comparison [cmp]. *)
Definition cmp_le {A : Type} (cmp : A -> A -> Z) (a b : A) : Prop := cmp a b <= 0.

(** Counting the keys [ks] up from the counters [init]. *)
Definition count_keys (ks : list string) (init : gmap string Z) : option (gmap string Z) :=
  fold_left (fun acc k => match acc with
                          | Some counts => SpanAggregates.count_up counts k
                          | None => None
                          end) ks (Some init).

(** * Properties *)

(** ** Rounding to binary64 *)

Lemma pow2_pos (k : Z) : (0 < pow2 k)%Q.
Proof. unfold pow2. now apply Qpower_0_lt. Qed.

Lemma pow2_add (a b : Z) : (pow2 (a + b) == pow2 a * pow2 b)%Q.
Proof. unfold pow2. apply Qpower_plus. discriminate. Qed.

Lemma pow2_le (a b : Z) : a <= b -> (pow2 a <= pow2 b)%Q.
Proof. intros H. unfold pow2. apply Qpower_le_compat_l; [exact H|discriminate]. Qed.

Lemma pow2_lt_inv (a b : Z) : (pow2 a < pow2 b)%Q -> a < b.
Proof. unfold pow2. intros H. apply (Qpower_lt_compat_l_inv 2); [exact H|reflexivity]. Qed.

Lemma pow2_int (k : Z) : 0 <= k -> (pow2 k == inject_Z (2 ^ k))%Q.
Proof. intros H. unfold pow2. now rewrite Zpower_Qpower. Qed.


Lemma Qabs_pos_eq (q : Q) : (0 < q)%Q -> Qabs q = q.
Proof.
  destruct q as [a b]. unfold Qlt. simpl. intros H. unfold Qabs.
  f_equal. apply Z.abs_eq. lia.
Qed.

Lemma q_neg_pos (q : Q) : (0 <= q)%Q -> q_neg q = false.
Proof.
  destruct q as [a b]. unfold Qle, q_neg. simpl. intros H.
  destruct (Z.ltb_spec a 0); [lia|reflexivity].
Qed.

Lemma ilog2_spec (q : Q) :
  (0 < q)%Q -> (pow2 (ilog2 q) <= q)%Q /\ (q < pow2 (ilog2 q + 1))%Q.
Proof.
  intros Hq. unfold ilog2.
  destruct q as [a b]. simpl Qnum. simpl Qden.
  assert (Ha : 0 < a) by (unfold Qlt in Hq; simpl in Hq; lia).
  set (la := Z.log2 a). set (lb := Z.log2 (Z.pos b)).
  destruct (Z.log2_spec a Ha) as [La Ua]. fold la in La, Ua.
  destruct (Z.log2_spec (Z.pos b) ltac:(lia)) as [Lb Ub]. fold lb in Lb, Ub.
  assert (Hla : 0 <= la) by apply Z.log2_nonneg.
  assert (Hlb : 0 <= lb) by apply Z.log2_nonneg.
  assert (Hq' : ((a # b) * inject_Z (Z.pos b) == inject_Z a)%Q).
  { unfold Qeq. simpl. lia. }
  assert (HB : (inject_Z (2 ^ lb) <= inject_Z (Z.pos b))%Q) by (now rewrite <- Zle_Qle).
  assert (HB' : (inject_Z (Z.pos b) < inject_Z (2 ^ Z.succ lb))%Q) by (now rewrite <- Zlt_Qlt).
  assert (HA : (inject_Z (2 ^ la) <= inject_Z a)%Q) by (now rewrite <- Zle_Qle).
  assert (HA' : (inject_Z a < inject_Z (2 ^ Z.succ la))%Q) by (now rewrite <- Zlt_Qlt).
  rewrite <- !pow2_int in HB, HB', HA, HA' by lia.
  pose proof (pow2_pos lb) as Plb. pose proof (pow2_pos (la - lb)) as Pe.
  assert (Hup : ((a # b) < pow2 (la - lb + 1))%Q).
  { assert (E : (pow2 (la - lb + 1) * pow2 lb == pow2 (Z.succ la))%Q).
    { rewrite <- pow2_add. now replace (la - lb + 1 + lb) with (Z.succ la) by lia. }
    pose proof (pow2_pos (la - lb + 1)) as P1. nra. }
  assert (Hlo : (pow2 (la - lb - 1) < (a # b))%Q).
  { assert (E : (pow2 (la - lb - 1) * pow2 (Z.succ lb) == pow2 la)%Q).
    { rewrite <- pow2_add. now replace (la - lb - 1 + Z.succ lb) with la by lia. }
    pose proof (pow2_pos (la - lb - 1)) as P1. pose proof (pow2_pos (Z.succ lb)) as P2.
    nra. }
  destruct (Qle_bool (pow2 (la - lb)) (a # b)) eqn:E.
  - apply Qle_bool_iff in E. split; assumption.
  - assert (E' : ((a # b) < pow2 (la - lb))%Q).
    { apply Qnot_le_lt. intros H. apply Qle_bool_iff in H. congruence. }
    replace (la - lb - 1 + 1) with (la - lb) by lia. split; [|exact E'].
    now apply Qlt_le_weak.
Qed.


Lemma rne_near (q : Q) :
  (inject_Z (rne q) - (1 # 2) <= q)%Q /\ (q <= inject_Z (rne q) + (1 # 2))%Q.
Proof.
  pose proof (Qfloor_le q) as F1. pose proof (Qlt_floor q) as F2.
  rewrite inject_Z_plus in F2. change (inject_Z 1) with 1%Q in F2. unfold rne.
  destruct (q - inject_Z (Qfloor q) ?= 1 # 2)%Q eqn:E.
  - apply Qeq_alt in E. destruct (Z.even (Qfloor q)).
    + split; lra.
    + rewrite inject_Z_plus. change (inject_Z 1) with 1%Q. split; lra.
  - apply Qlt_alt in E. split; lra.
  - apply Qgt_alt in E. rewrite inject_Z_plus. change (inject_Z 1) with 1%Q. split; lra.
Qed.




(** The relative error of rounding in the normal range. *)
Lemma round64_rel (q : Q) :
  (pow2 (-1022) <= q)%Q -> (q <= pow2 1023)%Q ->
  exists r, round64 q = JFin r
            /\ (q * (1 - pow2 (-53)) <= r)%Q /\ (r <= q * (1 + pow2 (-53)))%Q.
Proof.
  intros Hlo Hhi. pose proof (pow2_pos (-1022)) as Hmin.
  assert (Hq : (0 < q)%Q) by lra.
  unfold round64.
  assert (E0 : Qeq_bool q 0 = false).
  { destruct (Qeq_bool q 0) eqn:E; [|reflexivity]. apply Qeq_bool_iff in E. lra. }
  rewrite E0, (Qabs_pos_eq q Hq), (q_neg_pos q) by lra.
  destruct (ilog2_spec q Hq) as [He He'].
  set (e := ilog2 q) in *.
  assert (Hen : -1022 <= e).
  { assert (-1022 < e + 1); [|lia]. apply pow2_lt_inv. lra. }
  replace (Z.max (e - 52) (-1074)) with (e - 52) by lia.
  pose proof (pow2_pos (e - 52)) as HP.
  assert (HPe : (pow2 (e - 52) == pow2 e * pow2 (-53) * 2)%Q).
  { replace (e - 52) with (e + (-53 + 1)) by lia. rewrite !pow2_add.
    change (pow2 1) with 2%Q. ring. }
  pose proof (pow2_pos (-53)) as Hu. pose proof (pow2_pos e) as Ppe.
  set (P := pow2 (e - 52)) in *. set (u := pow2 (-53)) in *.
  destruct (rne_near (q / P)) as [N1 N2].
  set (n := rne (q / P)) in *.
  assert (Hm : (q / P * P == q)%Q) by (field; lra).
  assert (R1 : (q * (1 - u) <= inject_Z n * P)%Q) by nra.
  assert (R2 : (inject_Z n * P <= q * (1 + u))%Q) by nra.
  assert (Hu1 : (u < 1)%Q).
  { unfold u. change 1%Q with (pow2 0). unfold pow2.
    apply Qpower_lt_compat_l; [lia|reflexivity]. }
  assert (Hov : Qle_bool (pow2 1024) (inject_Z n * P) = false).
  { destruct (Qle_bool (pow2 1024) (inject_Z n * P)) eqn:Eo; [|reflexivity].
    apply Qle_bool_iff in Eo.
    assert (E : (pow2 1024 == pow2 1023 * 2)%Q).
    { replace 1024 with (1023 + 1) by lia. rewrite pow2_add.
      change (pow2 1) with 2%Q. ring. }
    pose proof (pow2_pos 1023). nra. }
  rewrite Hov. eexists. split; [reflexivity|]. split; assumption.
Qed.


(** ** Sorting *)

Section Sorting.
Context {A : Type} (cmp : A -> A -> Z).

Lemma insert_by_perm (x : A) (l : list A) : Permutation (insert_by cmp x l) (x :: l).
Proof.
  induction l as [|y l IH]; simpl.
  - reflexivity.
  - destruct (cmp x y <=? 0).
    + reflexivity.
    + rewrite IH. apply perm_swap.
Qed.

Lemma sort_by_perm (l : list A) : Permutation (sort_by cmp l) l.
Proof.
  induction l as [|x l IH]; simpl.
  - reflexivity.
  - rewrite insert_by_perm. now constructor.
Qed.

Lemma sort_by_length (l : list A) : length (sort_by cmp l) = length l.
Proof. apply Permutation_length, sort_by_perm. Qed.
End Sorting.

Lemma insert_Z_sorted (x : Z) (l : list Z) :
  Sorted Z.le l -> Sorted Z.le (insert_by (fun a b => a - b) x l).
Proof.
  induction l as [|y l IH]; simpl; intros Hs.
  - repeat constructor.
  - destruct (Z.leb_spec (x - y) 0) as [Hle|Hgt].
    + constructor; [assumption|]. constructor. lia.
    + apply Sorted_inv in Hs. destruct Hs as [Hs Hhd].
      constructor; [now apply IH|].
      destruct l as [|z l]; simpl.
      * constructor. lia.
      * destruct (Z.leb_spec (x - z) 0); constructor; try lia.
        now apply HdRel_inv in Hhd.
  Qed.

Lemma sort_Z_sorted (l : list Z) : Sorted Z.le (sort_by (fun a b => a - b) l).
Proof.
  induction l as [|x l IH]; simpl.
  - constructor.
  - now apply insert_Z_sorted.
Qed.

(** ** Filters on the empty list *)

Lemma max_filter_nil (s : string) : max_filter s [] = [].
Proof. unfold max_filter. now destruct (nonempty s). Qed.

Lemma session_filter_nil (s : string) : session_filter s [] = [].
Proof. unfold session_filter. now destruct (nonempty s). Qed.

Lemma filter_false {A : Type} (l : list A) : List.filter (fun _ => false) l = [].
Proof. induction l; simpl; auto. Qed.

Lemma js_le_nan (a : jsnum) : js_le a JNaN = false.
Proof. destruct a as [|[]|]; reflexivity. Qed.

(** A bound that [parseFloat] reads as [NaN] rejects every trace. *)
Lemma min_filter_nan (s : string) (traces : list TraceSummary) :
  nonempty s = true -> parseFloat s = JNaN -> min_filter s traces = [].
Proof.
  intros Hne Hnan. unfold min_filter. rewrite Hne, Hnan.
  apply filter_false.
Qed.

Lemma max_filter_nan (s : string) (traces : list TraceSummary) :
  nonempty s = true -> parseFloat s = JNaN -> max_filter s traces = [].
Proof.
  intros Hne Hnan. unfold max_filter. rewrite Hne, Hnan.
  erewrite filter_ext; [apply filter_false|].
  intros t. apply js_le_nan.
Qed.

Lemma simple_tail_nil (now : Z) (f : TraceSearch.Filters) :
  TraceSearch.date_filter now (TraceSearch.dateRange f)
    (session_filter (TraceSearch.sessionId f)
       (TraceSearch.status_filter (TraceSearch.status f) [])) = [].
Proof.
  unfold TraceSearch.status_filter.
  destruct (negb _); simpl; rewrite session_filter_nil;
    unfold TraceSearch.date_filter; now destruct (negb _).
Qed.

Lemma advanced_tail_nil (now : Z) (f : AdvancedTraceSearch.Filters) :
  AdvancedTraceSearch.date_filter now (AdvancedTraceSearch.dateRange f)
    (session_filter (AdvancedTraceSearch.sessionId f)
       (AdvancedTraceSearch.status_filter (AdvancedTraceSearch.status f) [])) = [].
Proof.
  unfold AdvancedTraceSearch.status_filter.
  destruct (negb _); simpl; rewrite session_filter_nil;
    unfold AdvancedTraceSearch.date_filter; now destruct (negb _).
Qed.

(** C3, as stated, fails: with [minDuration = "abc"] and no other filter the
    engine returns the empty list, not the unfiltered one it returns when the
    bound is absent. *)
Lemma C3_nan_bound_drops_all :
  AdvancedTraceSearch.filteredTraces 0 [summary 0 300] (advanced_with_min "abc") = []
  /\ AdvancedTraceSearch.filteredTraces 0 [summary 0 300] (advanced_with_min "")
     = [summary 0 300]
  /\ TraceSearch.filteredTraces 0 [summary 0 300] (simple_with_min "abc") = []
  /\ TraceSearch.filteredTraces 0 [summary 0 300] (simple_with_min "") = [summary 0 300]
  /\ AdvancedTraceSearch.filteredTraces 0 [summary 0 300] (advanced_with_min "abc")
     <> AdvancedTraceSearch.filteredTraces 0 [summary 0 300] (advanced_with_min "").
Proof. repeat split; try reflexivity. discriminate. Qed.

(** C3 (amended): the filter engines are total functions (nothing is
    thrown), and a non-empty [minDuration] or [maxDuration] that [parseFloat]
    reads as [NaN] makes the comparison false for every trace: both engines
    return the empty list, whatever the other filters are. *)
Theorem C3_nan_bound_empty_result (now : Z) (traces : list TraceSummary)
    (fa : AdvancedTraceSearch.Filters) (fs : TraceSearch.Filters) :
  (nonempty (AdvancedTraceSearch.minDuration fa) = true
     /\ parseFloat (AdvancedTraceSearch.minDuration fa) = JNaN)
  \/ (nonempty (AdvancedTraceSearch.maxDuration fa) = true
     /\ parseFloat (AdvancedTraceSearch.maxDuration fa) = JNaN) ->
  (nonempty (TraceSearch.minDuration fs) = true
     /\ parseFloat (TraceSearch.minDuration fs) = JNaN)
  \/ (nonempty (TraceSearch.maxDuration fs) = true
     /\ parseFloat (TraceSearch.maxDuration fs) = JNaN) ->
  AdvancedTraceSearch.filteredTraces now traces fa = []
  /\ TraceSearch.filteredTraces now traces fs = [].
Proof.
  intros Ha Hs. split.
  - unfold AdvancedTraceSearch.filteredTraces.
    destruct Ha as [[Hne Hnan]|[Hne Hnan]].
    + rewrite (min_filter_nan _ _ Hne Hnan), max_filter_nil, advanced_tail_nil.
      reflexivity.
    + rewrite (max_filter_nan _ _ Hne Hnan), advanced_tail_nil. reflexivity.
  - unfold TraceSearch.filteredTraces.
    destruct Hs as [[Hne Hnan]|[Hne Hnan]].
    + rewrite (min_filter_nan _ _ Hne Hnan), max_filter_nil. apply simple_tail_nil.
    + rewrite (max_filter_nan _ _ Hne Hnan). apply simple_tail_nil.
Qed.

Lemma C3_nan_bound_empty_result_witness :
  AdvancedTraceSearch.filteredTraces 0 [summary 0 300; summary 5 9] (advanced_with_min "abc") = []
  /\ TraceSearch.filteredTraces 0 [summary 0 300; summary 5 9] (simple_with_min "abc") = [].
Proof.
  apply (C3_nan_bound_empty_result 0 [summary 0 300; summary 5 9]
           (advanced_with_min "abc") (simple_with_min "abc")).
  - left. split; reflexivity.
  - left. split; reflexivity.
Defined.

(** ** Status buckets *)

(** C7, as stated, fails: a trace that lasts exactly 15000 ms (the high
    threshold) is kept by the "slow" filter and rejected by the "error"
    filter; one that lasts exactly 5000 ms (the low threshold) is a
    "success". *)
Lemma C7_threshold_is_lower_bucket :
  AdvancedTraceSearch.filteredTraces 0 [summary 0 15000] (advanced_with_status "error") = []
  /\ AdvancedTraceSearch.filteredTraces 0 [summary 0 15000] (advanced_with_status "slow")
     = [summary 0 15000]
  /\ AdvancedTraceSearch.filteredTraces 0 [summary 0 5000] (advanced_with_status "success")
     = [summary 0 5000]
  /\ TraceSearch.status_matches "error" 10000 = false.
Proof. repeat split; reflexivity. Qed.

(** C7 (amended): in [AdvancedTraceSearch] the buckets are: success when the
    duration is at most 5000 ms, slow when it is above 5000 ms and at most
    15000 ms, error when it is above 15000 ms; every duration falls in exactly
    one bucket, and a duration equal to a threshold falls in the lower one.
    [TraceSearch] has the two buckets success (at most 10000 ms) and error
    (above 10000 ms). *)
Theorem C7_status_buckets (d : Z) :
  (AdvancedTraceSearch.status_matches "success" d = true <-> d <= 5000)
  /\ (AdvancedTraceSearch.status_matches "slow" d = true <-> 5000 < d <= 15000)
  /\ (AdvancedTraceSearch.status_matches "error" d = true <-> 15000 < d)
  /\ (TraceSearch.status_matches "success" d = true <-> d <= 10000)
  /\ (TraceSearch.status_matches "error" d = true <-> 10000 < d)
  /\ AdvancedTraceSearch.status_matches "slow" 15000 = true
  /\ AdvancedTraceSearch.status_matches "success" 5000 = true.
Proof.
  unfold AdvancedTraceSearch.status_matches, TraceSearch.status_matches; simpl.
  repeat split; intros; try reflexivity;
    repeat match goal with
           | H : _ && _ = true |- _ => apply andb_prop in H; destruct H
           | |- _ && _ = true => apply andb_true_intro; split
           end; lia.
Qed.

(** ** Metrics *)

(** C8, as stated, fails: with no trace summary and one span in error, both
    rates are 0, where the claim gives an error rate of 100 and a sum of
    100. *)
Lemma C8_no_traces_zero_rates :
  let m := ResponsiveMetricCards.metrics [] [error_span] in
  (spec_errorRate [error_span] == 100)%Q
  /\ ~ (ResponsiveMetricCards.errorRate m == spec_errorRate [error_span])%Q
  /\ ~ (ResponsiveMetricCards.errorRate m + ResponsiveMetricCards.successRate m == 100)%Q
  /\ ~ (TraceMetrics.errorRate (TraceMetrics.metrics [] [error_span])
        == spec_errorRate [error_span])%Q.
Proof. cbv zeta. repeat split; try reflexivity; intros H; vm_compute in H; discriminate. Qed.

(** C8 (amended): when there is at least one trace summary, [errorRate] is
    the share of spans whose [status_code] is ['ERROR'], times 100 (0 without
    spans), [successRate] is [100 - errorRate] and the two sum to 100; when
    the trace-summary input is empty the aggregators return their zero record,
    so [errorRate] and [successRate] are both 0 whatever the spans are. *)
Theorem C8_error_and_success_rate (traces : list TraceSummary) (spans : list TraceSpan) :
  let m := ResponsiveMetricCards.metrics traces spans in
  let m' := TraceMetrics.metrics traces spans in
  match traces with
  | [] =>
      ResponsiveMetricCards.errorRate m = 0%Q
      /\ ResponsiveMetricCards.successRate m = 0%Q
      /\ TraceMetrics.errorRate m' = 0%Q
  | _ :: _ =>
      ResponsiveMetricCards.errorRate m = spec_errorRate spans
      /\ ResponsiveMetricCards.successRate m = (100 - spec_errorRate spans)%Q
      /\ (ResponsiveMetricCards.errorRate m + ResponsiveMetricCards.successRate m == 100)%Q
      /\ TraceMetrics.errorRate m' = spec_errorRate spans
  end.
Proof.
  destruct traces as [|t ts]; cbv zeta.
  - repeat split.
  - simpl. repeat split. ring.
Qed.

(** Reading [a[i] || 0] at an index that is in range. *)
Lemma at_or_zero_nth (l : list Z) (i : Z) :
  0 <= i -> at_or_zero l i = nth (Z.to_nat i) l 0.
Proof.
  intros Hi. unfold at_or_zero.
  destruct (Z.ltb_spec i 0) as [?|_]; [lia|].
  destruct (nth_error l (Z.to_nat i)) as [v|] eqn:E.
  - rewrite (nth_error_nth _ _ 0 E). destruct (Z.eqb_spec v 0); congruence.
  - apply nth_error_None in E. now rewrite nth_overflow.
Qed.

Lemma p95Index_range (n : Z) : 0 < n -> 0 <= p95Index n < n.
Proof.
  intros Hn. unfold p95Index. split.
  - apply Z.div_pos; lia.
  - apply Z.div_lt_upper_bound; lia.
Qed.

Lemma p99Index_range (n : Z) : 0 < n -> 0 <= p99Index n < n.
Proof.
  intros Hn. unfold p99Index. split.
  - apply Z.div_pos; lia.
  - apply Z.div_lt_upper_bound; lia.
Qed.

(** C4: the percentiles are nearest-rank readings of the ascending sort of
    the durations, at [floor(0.95 * count)] and [floor(0.99 * count)], both
    indices being in range for a non-empty input; they are 0 for the empty
    input; durations [100, 200, 300, 400, 500] give p95 = 500 and
    avgLatency = 300. *)
Theorem C4_nearest_rank_percentiles (traces : list TraceSummary) (spans : list TraceSpan) :
  let m := ResponsiveMetricCards.metrics traces spans in
  let m' := TraceMetrics.metrics traces spans in
  let count := len traces in
  (traces <> [] ->
   exists sorted : list Z,
     Permutation sorted (map duration traces)
     /\ Sorted Z.le sorted
     /\ 0 <= p95Index count < len sorted
     /\ 0 <= p99Index count < len sorted
     /\ p95Index count = (95 * count) / 100
     /\ p99Index count = (99 * count) / 100
     /\ ResponsiveMetricCards.p95Latency m = nth (Z.to_nat (p95Index count)) sorted 0
     /\ ResponsiveMetricCards.p99Latency m = nth (Z.to_nat (p99Index count)) sorted 0
     /\ TraceMetrics.p95Latency m' = nth (Z.to_nat (p95Index count)) sorted 0)
  /\ (traces = [] ->
      ResponsiveMetricCards.p95Latency m = 0
      /\ ResponsiveMetricCards.p99Latency m = 0
      /\ TraceMetrics.p95Latency m' = 0)
  /\ (map duration traces = [100; 200; 300; 400; 500] ->
      ResponsiveMetricCards.p95Latency m = 500
      /\ TraceMetrics.p95Latency m' = 500
      /\ (ResponsiveMetricCards.avgLatency m == 300)%Q
      /\ (TraceMetrics.avgLatency m' == 300)%Q).
Proof.
  cbv zeta. split; [|split].
  - intros Hne. destruct traces as [|t ts]; [congruence|].
    set (traces := t :: ts).
    exists (sort_by (fun a b => a - b) (map duration traces)).
    assert (Hlen : len (sort_by (fun a b => a - b) (map duration traces)) = len traces).
    { unfold len. now rewrite sort_by_length, length_map. }
    assert (Hpos : 0 < len traces).
    { unfold len, traces. simpl length. lia. }
    pose proof (p95Index_range _ Hpos) as H95.
    pose proof (p99Index_range _ Hpos) as H99.
    split; [apply sort_by_perm|].
    split; [apply sort_Z_sorted|].
    rewrite Hlen.
    split; [exact H95|]. split; [exact H99|].
    split; [unfold p95Index; f_equal; lia|].
    split; [unfold p99Index; f_equal; lia|].
    unfold ResponsiveMetricCards.metrics, TraceMetrics.metrics, traces.
    cbn [ResponsiveMetricCards.p95Latency ResponsiveMetricCards.p99Latency
         TraceMetrics.p95Latency].
    fold traces. rewrite Hlen.
    rewrite !at_or_zero_nth by lia. auto.
  - intros ->. repeat split.
  - intros Hd. destruct traces as [|t ts]; [discriminate|].
    unfold ResponsiveMetricCards.metrics, TraceMetrics.metrics.
    cbn [ResponsiveMetricCards.p95Latency ResponsiveMetricCards.avgLatency
         TraceMetrics.p95Latency TraceMetrics.avgLatency].
    rewrite Hd. repeat split; reflexivity.
Qed.

Lemma C4_nearest_rank_percentiles_witness :
  let traces := [summary 0 100; summary 0 200; summary 0 300; summary 0 400; summary 0 500] in
  let m := ResponsiveMetricCards.metrics traces [] in
  let m' := TraceMetrics.metrics traces [] in
  (traces <> [] /\ map duration traces = [100; 200; 300; 400; 500])
  /\ (exists sorted : list Z,
        Permutation sorted (map duration traces)
        /\ Sorted Z.le sorted
        /\ ResponsiveMetricCards.p95Latency m = nth (Z.to_nat (p95Index 5)) sorted 0)
  /\ ResponsiveMetricCards.p95Latency m = 500
  /\ (ResponsiveMetricCards.avgLatency m == 300)%Q.
Proof.
  cbv zeta.
  pose proof (C4_nearest_rank_percentiles
                [summary 0 100; summary 0 200; summary 0 300; summary 0 400; summary 0 500]
                []) as H.
  cbv zeta in H. destruct H as (H1 & _ & H3).
  split; [split; [discriminate | reflexivity]|].
  split.
  - destruct (H1 ltac:(discriminate)) as (sorted & Hp & Hs & _ & _ & _ & _ & H95 & _).
    exists sorted. auto.
  - destruct (H3 eq_refl) as (H95 & _ & Havg & _). split; assumption.
Defined.

(** ** Timeline layout *)

(** C5 fails on the code for a trace whose only span is instantaneous:
    [maxTime] is 0 there (the guard covers the empty trace only), so the bar
    width and the left offset are [0 / 0 * 100 = NaN] in [ModernTraceTimeline],
    and likewise in the canvas of [TraceTimeline]; [Math.max(2, NaN)] is
    [NaN], so the minimum width is not given either. *)
Theorem C5_zero_duration_trace_nan :
  let spans := [instant_span] in
  let node := SpanTree.timelineSpan (SpanTree.minTime spans) instant_span in
  Timeline.maxTime [] = 1
  /\ Timeline.maxTime spans = 0
  /\ Timeline.barWidth (Timeline.maxTime spans) node = JNaN
  /\ Timeline.barLeft (Timeline.maxTime spans) node = JNaN
  /\ Timeline.canvas_w (Timeline.maxTime spans) 1200 node = JNaN
  /\ Timeline.canvas_x (Timeline.maxTime spans) 1200 node = JNaN
  /\ js_finite (Timeline.barWidth (Timeline.maxTime spans) node) = false
  /\ js_le (js_of_Z 2) (Timeline.barWidth (Timeline.maxTime spans) node) = false.
Proof. cbv zeta. repeat split; reflexivity. Qed.

(** ** Flattening and the collapsed set *)

(** Induction on a span forest. *)
Section SpanNode_induction.
Variable P : SpanNode -> Prop.
Hypothesis step : forall r ts kids, Forall P kids -> P (SNode r ts kids).

Fixpoint SpanNode_forall_ind (n : SpanNode) : P n :=
  match n with
  | SNode r ts kids =>
      step r ts kids
        ((fix all (l : list SpanNode) : Forall P l :=
            match l with
            | [] => @List.Forall_nil _ P
            | k :: l' => @List.Forall_cons _ P k l' (SpanNode_forall_ind k) (all l')
            end) kids)
  end.
End SpanNode_induction.

Lemma filter_flat_map {A B : Type} (p : B -> bool) (f : A -> list B) (l : list A) :
  List.filter p (flat_map f l) = flat_map (fun x => List.filter p (f x)) l.
Proof.
  induction l as [|x l IH]; simpl; [reflexivity|].
  now rewrite List.filter_app, IH.
Qed.

Lemma map_flat_map {A B C : Type} (g : B -> C) (f : A -> list B) (l : list A) :
  map g (flat_map f l) = flat_map (fun x => map g (f x)) l.
Proof.
  induction l as [|x l IH]; simpl; [reflexivity|].
  now rewrite map_app, IH.
Qed.

Lemma flat_map_Forall_ext {A B : Type} (f g : A -> list B) (l : list A) :
  Forall (fun x => f x = g x) l -> flat_map f l = flat_map g l.
Proof.
  induction 1 as [|x l Hx _ IH]; simpl; [reflexivity|].
  now rewrite Hx, IH.
Qed.

Lemma flat_map_nil {A B : Type} (l : list A) : flat_map (fun _ : A => @nil B) l = [].
Proof. induction l; simpl; auto. Qed.

Lemma expanded_snoc (c : gset string) (anc : list string) (a : string) :
  expanded c (anc ++ [a]) = expanded c anc && negb (bool_decide (a ∈ c)).
Proof.
  unfold expanded. rewrite forallb_app. simpl. now rewrite andb_true_r.
Qed.

(** Below a collapsed ancestor nothing is kept. *)
Lemma hidden_subtree (c : gset string) (n : SpanNode) :
  forall anc, expanded c anc = false ->
  List.filter (fun p => expanded c (fst p)) (preorder_span anc n) = [].
Proof.
  induction n as [r ts kids IH] using SpanNode_forall_ind.
  intros anc Hanc. simpl. rewrite Hanc.
  rewrite filter_flat_map.
  rewrite (flat_map_Forall_ext _ (fun _ => [])); [apply flat_map_nil|].
  eapply List.Forall_impl; [|exact IH]. intros k Hk. apply Hk.
  rewrite expanded_snoc, Hanc. reflexivity.
Qed.

Lemma flatten_span_spec (c : gset string) (n : SpanNode) :
  forall anc, expanded c anc = true ->
  Timeline.flatten_span c n
  = map snd (List.filter (fun p => expanded c (fst p)) (preorder_span anc n)).
Proof.
  induction n as [r ts kids IH] using SpanNode_forall_ind.
  intros anc Hanc. simpl. rewrite Hanc. simpl. f_equal.
  rewrite filter_flat_map, map_flat_map.
  destruct (decide (span_id (ts_span ts) ∈ c)) as [Hin|Hout].
  - rewrite (flat_map_Forall_ext _ (fun _ => [])); [now rewrite flat_map_nil|].
    apply List.Forall_forall. intros k _.
    rewrite hidden_subtree; [reflexivity|].
    rewrite expanded_snoc, Hanc, bool_decide_eq_true_2 by assumption. reflexivity.
  - apply flat_map_Forall_ext.
    eapply List.Forall_impl; [|exact IH]. intros k Hk. apply Hk.
    rewrite expanded_snoc, Hanc, bool_decide_eq_false_2 by assumption. reflexivity.
Qed.

Lemma flatten_refines_spec (c : gset string) (forest : list SpanNode) :
  Timeline.flatten c forest = spec_flatten c forest.
Proof.
  unfold Timeline.flatten, spec_flatten, visible, preorder.
  rewrite filter_flat_map, map_flat_map.
  apply flat_map_Forall_ext, List.Forall_forall. intros n _.
  now apply flatten_span_spec.
Qed.

Lemma expanded_collapse (c : gset string) (x : string) (anc : list string) :
  expanded (c ∪ {[x]}) anc = expanded c anc && not_below x anc.
Proof.
  unfold expanded, not_below.
  induction anc as [|a anc IH]; simpl; [reflexivity|].
  rewrite IH.
  assert (negb (bool_decide (a ∈ c ∪ {[x]}))
          = negb (bool_decide (a ∈ c)) && negb (String.eqb a x)) as ->.
  { destruct (String.eqb_spec a x) as [->|Hne].
    - rewrite bool_decide_eq_true_2 by set_solver.
      now rewrite andb_false_r.
    - rewrite andb_true_r. f_equal. apply bool_decide_ext. set_solver. }
  destruct (negb (bool_decide (a ∈ c))), (negb (a =? x)%string),
    (forallb (fun a0 => negb (bool_decide (a0 ∈ c))) anc); reflexivity.
Qed.

Lemma filter_andb {A : Type} (p q : A -> bool) (l : list A) :
  List.filter (fun a => p a && q a) l = List.filter q (List.filter p l).
Proof.
  induction l as [|a l IH]; simpl; [reflexivity|].
  destruct (p a); simpl; [destruct (q a)|]; now rewrite IH.
Qed.

Lemma toggle_twice (c : gset string) (x : string) :
  Timeline.toggleCollapse (Timeline.toggleCollapse c x) x = c.
Proof.
  unfold Timeline.toggleCollapse.
  destruct (decide (x ∈ c)) as [Hin|Hout].
  - destruct (decide (x ∈ c ∖ {[x]})) as [Hin'|_]; [set_solver|].
    apply set_eq. intros y. destruct (decide (y = x)); set_solver.
  - destruct (decide (x ∈ c ∪ {[x]})) as [_|Hout']; set_solver.
Qed.

(** C6: the flattened sequence is the pre-order traversal restricted to the
    nodes whose proper ancestors are all non-collapsed; collapsing [x] removes
    from it exactly the nodes below [x] (a node that has no ancestor of id
    [x], the node [x] included, stays); and toggling [x] twice gives back the
    collapsed set, hence the same flattened sequence. *)
Theorem C6_flatten_preorder_and_toggle
    (forest : list SpanNode) (collapsed : gset string) (x : string) :
  Timeline.flatten collapsed forest = spec_flatten collapsed forest
  /\ Timeline.flatten (collapsed ∪ {[x]}) forest
     = map snd (List.filter (fun p => not_below x (fst p)) (visible collapsed forest))
  /\ (forall anc n, In (anc, n) (visible collapsed forest) ->
        (In (anc, n) (visible (collapsed ∪ {[x]}) forest) <-> not_below x anc = true))
  /\ (x ∉ collapsed ->
        Timeline.toggleCollapse collapsed x = collapsed ∪ {[x]}
        /\ Timeline.toggleCollapse (collapsed ∪ {[x]}) x = collapsed)
  /\ Timeline.flatten
       (Timeline.toggleCollapse (Timeline.toggleCollapse collapsed x) x) forest
     = Timeline.flatten collapsed forest.
Proof.
  assert (Hvis : visible (collapsed ∪ {[x]}) forest
                 = List.filter (fun p => not_below x (fst p)) (visible collapsed forest)).
  { unfold visible. rewrite <- filter_andb. apply filter_ext.
    intros p. apply expanded_collapse. }
  split; [apply flatten_refines_spec|].
  split; [rewrite flatten_refines_spec; unfold spec_flatten; now rewrite Hvis|].
  split.
  { intros anc n Hin. rewrite Hvis, filter_In. simpl. tauto. }
  split.
  { intros Hout. unfold Timeline.toggleCollapse.
    destruct (decide (x ∈ collapsed)) as [?|_]; [contradiction|].
    split; [reflexivity|].
    destruct (decide (x ∈ collapsed ∪ {[x]})) as [_|?]; set_solver. }
  now rewrite toggle_twice.
Qed.

Lemma C6_flatten_preorder_and_toggle_witness :
  ("R" ∉ (∅ : gset string))
  /\ Timeline.toggleCollapse ∅ "R" = ∅ ∪ {["R"]}
  /\ Timeline.toggleCollapse (∅ ∪ {["R"]}) "R" = ∅
  /\ Timeline.flatten (Timeline.toggleCollapse (Timeline.toggleCollapse ∅ "R") "R")
       sample_forest
     = Timeline.flatten ∅ sample_forest.
Proof.
  destruct (C6_flatten_preorder_and_toggle sample_forest ∅ "R") as (_ & _ & _ & Ht & Hrt).
  assert (Hout : "R" ∉ (∅ : gset string)) by apply not_elem_of_empty.
  destruct (Ht Hout) as [H1 H2].
  split; [exact Hout|]. split; [exact H1|]. split; [exact H2|exact Hrt].
Defined.

(** ** The span tree builder *)

Lemma read_node_lt (h : heap) (l : loc) (n : TimelineSpan) :
  read_node h l = Some n -> (l < length h)%nat.
Proof.
  unfold read_node. destruct (h !! l) as [o|] eqn:E; [|discriminate].
  intros _. eapply lookup_lt_Some, E.
Qed.

Lemma read_write_eq (h : heap) (l : loc) (n0 n : TimelineSpan) :
  read_node h l = Some n0 -> read_node (<[l := ONode n]> h) l = Some n.
Proof.
  intros H. apply read_node_lt in H. unfold read_node.
  now rewrite list_lookup_insert_eq.
Qed.

Lemma read_write_ne (h : heap) (l l' : loc) (n : TimelineSpan) :
  l <> l' -> read_node (<[l := ONode n]> h) l' = read_node h l'.
Proof. intros H. unfold read_node. now rewrite list_lookup_insert_ne. Qed.

Lemma map_get_In (m : spanMap) (k : string) (l : loc) :
  map_get k m = Some l -> In (k, l) m.
Proof.
  induction m as [|[k' l'] m IH]; simpl; [discriminate|].
  destruct (String.eqb_spec k k') as [->|_].
  - intros [= ->]. now left.
  - intros H. right. now apply IH.
Qed.

Lemma same_static_refl (n : TimelineSpan) : same_static n n.
Proof. now repeat split. Qed.

Lemma same_static_trans (a b c : TimelineSpan) :
  same_static a b -> same_static b c -> same_static a c.
Proof. unfold same_static. intuition congruence. Qed.

Section Attached.

(** The heap and the index as the conversion loop leaves them. *)
Variable h1 : heap.
Variable m : spanMap.
Hypothesis m_vals : List.NoDup (map snd m).
Hypothesis m_nodes :
  forall l, In l (map snd m) -> exists n, read_node h1 l = Some n /\ children n = [].

Local Abbreviation order := (order m).
Local Abbreviation par := (par h1 m).
Local Abbreviation kids_in := (kids_in h1 m).
Local Abbreviation roots_in := (roots_in h1 m).
Local Abbreviation inv := (inv h1 m).
Local Abbreviation attached := (attached h1 m).
Local Abbreviation up := (up h1 m).
Local Abbreviation level := (level h1 m).
Local Abbreviation chain := (chain h1 m).
Local Abbreviation heap_inv := (heap_inv h1 m).
Local Abbreviation sorted_inv := (sorted_inv h1 m).
Local Abbreviation arr_level := (arr_level h1 m).

Lemma par_in_order (l p : loc) : par l = Some p -> In p order.
Proof.
  unfold par, resolve. destruct (read_node h1 l) as [n|]; [|discriminate].
  destruct (truthy _) as [pid|]; [|discriminate].
  intros H. apply map_get_In in H. unfold order.
  apply List.in_map_iff. now exists (pid, p).
Qed.

Lemma inv_init : inv h1.
Proof.
  intros l. split; [reflexivity|]. intros n1 H. exists n1.
  split; [assumption|apply same_static_refl].
Qed.

Lemma inv_node (h : heap) (l : loc) :
  inv h -> In l order ->
  exists n1 n, read_node h1 l = Some n1 /\ read_node h l = Some n /\ same_static n1 n.
Proof.
  intros Hinv Hl. destruct (m_nodes l Hl) as (n1 & Hn1 & _).
  destruct (Hinv l) as [_ H]. destruct (H n1 Hn1) as (n & Hn & Hs).
  now exists n1, n.
Qed.

Lemma inv_write (h : heap) (l : loc) (n n' : TimelineSpan) :
  inv h -> In l order -> read_node h l = Some n -> same_static n n' ->
  inv (<[l := ONode n']> h).
Proof.
  intros Hinv Hl Hn Hs l0. destruct (Hinv l0) as [Hout Hin]. split.
  - intros Hl0. rewrite list_lookup_insert_ne; [now apply Hout|].
    intros ->. contradiction.
  - intros n1 Hn1. destruct (Hin n1 Hn1) as (n0 & Hn0 & Hs0).
    destruct (Nat.eq_dec l l0) as [->|Hne].
    + exists n'. split; [eapply read_write_eq, Hn|].
      assert (n0 = n) by congruence. subst n0.
      eapply same_static_trans; eassumption.
    + exists n0. split; [|assumption]. now rewrite read_write_ne.
Qed.

Lemma inv_resolve (h : heap) (l : loc) (n : TimelineSpan) :
  inv h -> In l order -> read_node h l = Some n -> resolve m n = par l.
Proof.
  intros Hinv Hl Hn. destruct (inv_node h l Hinv Hl) as (n1 & n0 & Hn1 & Hn0 & Hs).
  assert (n0 = n) by congruence. subst n0.
  unfold par. rewrite Hn1. unfold resolve.
  destruct Hs as (-> & _). reflexivity.
Qed.

Lemma attached_init : attached [] (mkState h1 []).
Proof.
  split; [apply inv_init|]. split; [|reflexivity].
  simpl. intros l n Hl Hn. destruct (m_nodes l Hl) as (n1 & Hn1 & Hc).
  congruence.
Qed.

Lemma kids_in_snoc (es : list loc) (c l : loc) :
  kids_in (es ++ [c]) l
  = kids_in es l ++ (if bool_decide (par c = Some l) then [c] else []).
Proof. unfold kids_in. rewrite List.filter_app. reflexivity. Qed.

Lemma roots_in_snoc (es : list loc) (c : loc) :
  roots_in (es ++ [c])
  = roots_in es ++ (if bool_decide (par c = None) then [c] else []).
Proof. unfold roots_in. rewrite List.filter_app. reflexivity. Qed.

Lemma attach_step_ok (es : list loc) (st : state) (e : string * loc) :
  attached es st -> In e m ->
  exists st', attach_step m (Some st) e = Some st' /\ attached (es ++ [snd e]) st'.
Proof.
  intros (Hinv & Hkids & Hroots) He.
  destruct st as [h roots]. simpl in *.
  assert (Hl : In (snd e) order) by (apply List.in_map; exact He).
  set (l := snd e) in *.
  destruct (inv_node h l Hinv Hl) as (n1 & span & Hn1 & Hspan & Hs).
  rewrite Hspan, (inv_resolve h l span Hinv Hl Hspan).
  destruct (par l) as [pl|] eqn:Hpar.
  - pose proof (par_in_order _ _ Hpar) as Hpl.
    destruct (inv_node h pl Hinv Hpl) as (p1 & parent & Hp1 & Hparent & Hps).
    rewrite Hparent.
    set (h' := <[pl := ONode (push_child l parent)]> h).
    assert (Hinv' : inv h').
    { eapply inv_write; eauto. repeat split. }
    assert (Hpl' : read_node h' pl = Some (push_child l parent)).
    { eapply read_write_eq, Hparent. }
    destruct (inv_node h' l Hinv' Hl) as (n1' & span1 & Hn1' & Hspan1 & Hs1).
    rewrite Hspan1, Hpl'.
    eexists. split; [reflexivity|].
    split; [|split]; simpl.
    + eapply inv_write; eauto. repeat split.
    + intros l0 n0 Hl0 Hn0. rewrite kids_in_snoc, Hpar.
      assert (Hc0 : forall x, read_node h' l0 = Some x ->
                children x = kids_in es l0
                             ++ (if bool_decide (Some pl = Some l0) then [l] else [])).
      { intros x Hx. destruct (Nat.eq_dec pl l0) as [->|Hne].
        - rewrite bool_decide_eq_true_2 by reflexivity.
          assert (x = push_child l parent) by congruence. subst x. simpl.
          now rewrite (Hkids l0 parent Hl0 Hparent).
        - rewrite bool_decide_eq_false_2 by congruence.
          unfold h' in Hx. rewrite read_write_ne in Hx by assumption.
          rewrite app_nil_r. now apply Hkids. }
      destruct (Nat.eq_dec l l0) as [<-|Hne].
      * erewrite read_write_eq in Hn0 by exact Hspan1.
        injection Hn0 as <-. simpl. now apply Hc0.
      * rewrite read_write_ne in Hn0 by assumption. now apply Hc0.
    + rewrite roots_in_snoc, Hpar, bool_decide_eq_false_2 by discriminate.
      now rewrite app_nil_r.
  - eexists. split; [reflexivity|].
    split; [assumption|split]; simpl.
    + intros l0 n0 Hl0 Hn0. rewrite kids_in_snoc, Hpar.
      rewrite bool_decide_eq_false_2 by discriminate.
      rewrite app_nil_r. now apply Hkids.
    + rewrite roots_in_snoc, Hpar, bool_decide_eq_true_2 by reflexivity.
      now rewrite Hroots.
Qed.

Lemma attach_all (es2 : list (string * loc)) :
  forall (es1 : list loc) (st : state),
    attached es1 st -> (forall e, In e es2 -> In e m) ->
    exists st', fold_left (attach_step m) es2 (Some st) = Some st'
                /\ attached (es1 ++ map snd es2) st'.
Proof.
  induction es2 as [|e es2 IH]; intros es1 st Hatt Hsub; cbn [fold_left map].
  - exists st. now rewrite app_nil_r.
  - destruct (attach_step_ok es1 st e Hatt) as (st1 & Hstep & Hatt1).
    { apply Hsub. now left. }
    rewrite Hstep.
    destruct (IH (es1 ++ [snd e]) st1 Hatt1) as (st' & Hfold & Hatt').
    { intros e' He'. apply Hsub. now right. }
    exists st'. split; [assumption|].
    now rewrite <- app_assoc in Hatt'.
Qed.

(** *** Parent chains *)

Lemma up_add (i j : nat) :
  forall l, up (i + j) l = match up i l with Some x => up j x | None => None end.
Proof.
  induction i as [|i IH]; intros l; simpl; [reflexivity|].
  destruct (par l) as [p|]; [apply IH|reflexivity].
Qed.

Lemma up_after_root (d : nat) :
  forall l r, up d l = Some r -> par r = None -> forall j, (d < j)%nat -> up j l = None.
Proof.
  induction d as [|d IH]; intros l r Hup Hr j Hj; simpl in Hup.
  - injection Hup as ->. destruct j as [|j]; [lia|]. simpl. now rewrite Hr.
  - destruct j as [|j]; [lia|]. simpl.
    destruct (par l) as [p|]; [|reflexivity].
    apply (IH p r Hup Hr). lia.
Qed.

Lemma level_unique (d d' : nat) (l : loc) : level d l -> level d' l -> d = d'.
Proof.
  intros (r & Hr & Hpr) (r' & Hr' & Hpr').
  destruct (lt_eq_lt_dec d d') as [[Hlt|Heq]|Hgt]; [|assumption|].
  - rewrite (up_after_root d l r Hr Hpr d' Hlt) in Hr'. discriminate.
  - rewrite (up_after_root d' l r' Hr' Hpr' d Hgt) in Hr. discriminate.
Qed.

Lemma level_root (r : loc) : par r = None -> level 0 r.
Proof. intros H. now exists r. Qed.

Lemma level_child (d : nat) (c p : loc) : par c = Some p -> level d p -> level (S d) c.
Proof. intros Hc (r & Hr & Hpr). exists r. simpl. now rewrite Hc. Qed.

(** A node on a cycle of resolved parents has no level. *)
Lemma up_cycle (k : nat) (x : loc) :
  up k x = Some x -> forall i, up (i * k) x = Some x.
Proof.
  intros Hk. induction i as [|i IH]; simpl; [reflexivity|].
  now rewrite up_add, Hk.
Qed.

Lemma cycle_no_level (k d : nat) (x : loc) :
  (0 < k)%nat -> up k x = Some x -> ~ level d x.
Proof.
  intros Hk Hup (r & Hr & Hpr).
  pose proof (up_cycle k x Hup (S d)) as Hc.
  rewrite (up_after_root d x r Hr Hpr) in Hc; [discriminate|].
  simpl. nia.
Qed.

Lemma chain_length (d : nat) : forall l, level d l -> length (chain d l) = S d.
Proof.
  induction d as [|d IH]; intros l (r & Hr & Hpr); simpl in *; [reflexivity|].
  destruct (par l) as [p|] eqn:Hp; [|discriminate].
  f_equal. apply IH. now exists r.
Qed.

Lemma chain_levels (d : nat) :
  forall l, level d l -> forall x, In x (chain d l) -> exists j, (j <= d)%nat /\ level j x.
Proof.
  induction d as [|d IH]; intros l Hl x Hx; simpl in Hx.
  - destruct Hx as [<-|[]]. now exists 0%nat.
  - destruct Hx as [<-|Hx]; [now exists (S d)|].
    destruct Hl as (r & Hr & Hpr). simpl in Hr.
    destruct (par l) as [p|]; [|discriminate].
    destruct (IH p (ex_intro _ r (conj Hr Hpr)) x Hx) as (j & Hj & Hlj).
    exists j. split; [lia|assumption].
Qed.

Lemma chain_in_order (d : nat) :
  forall l, In l order -> forall x, In x (chain d l) -> In x order.
Proof.
  induction d as [|d IH]; intros l Hl x Hx; simpl in Hx.
  - now destruct Hx as [<-|[]].
  - destruct Hx as [<-|Hx]; [assumption|].
    destruct (par l) as [p|] eqn:Hp; [|destruct Hx].
    apply (IH p); [|assumption]. eapply par_in_order, Hp.
Qed.

Lemma chain_nodup (d : nat) : forall l, level d l -> List.NoDup (chain d l).
Proof.
  induction d as [|d IH]; intros l Hl; simpl.
  - constructor; [intros []|constructor].
  - pose proof Hl as (r & Hr & Hpr). simpl in Hr.
    destruct (par l) as [p|] eqn:Hp; [|discriminate].
    assert (Hlp : level d p) by now exists r.
    constructor; [|now apply IH].
    intros Hin. destruct (chain_levels d p Hlp l Hin) as (j & Hj & Hlj).
    pose proof (level_unique _ _ _ Hl Hlj). lia.
Qed.

Lemma level_bound (d : nat) (l : loc) :
  level d l -> In l order -> (d < length order)%nat.
Proof.
  intros Hl Hin.
  assert (Hle : (length (chain d l) <= length order)%nat).
  { apply List.NoDup_incl_length; [now apply chain_nodup|].
    intros x Hx. eapply chain_in_order; eassumption. }
  rewrite chain_length in Hle by assumption. lia.
Qed.

Lemma kids_in_spec (es : list loc) (l c : loc) :
  In c (kids_in es l) <-> In c es /\ par c = Some l.
Proof.
  unfold kids_in. rewrite List.filter_In, bool_decide_eq_true. reflexivity.
Qed.

Lemma roots_in_spec (es : list loc) (c : loc) :
  In c (roots_in es) <-> In c es /\ par c = None.
Proof.
  unfold roots_in. rewrite List.filter_In, bool_decide_eq_true. reflexivity.
Qed.

(** *** [sortChildren] returns *)

Lemma attached_sorted_inv (st : state) : attached order st -> sorted_inv st.
Proof.
  intros (Hinv & Hkids & Hroots). split; [split; [assumption|]|].
  - intros l n Hl Hn. now rewrite (Hkids l n Hl Hn).
  - now rewrite Hroots.
Qed.

Lemma read_arr_levels (st : state) (a : aref) (d : nat) :
  sorted_inv st -> arr_level a d ->
  exists ls, read_arr st a = Some ls
             /\ forall x, In x ls -> In x order /\ level d x.
Proof.
  intros ((Hinv & Hkids) & Hroots) Ha. destruct a as [|l]; simpl in *.
  - subst d. eexists. split; [reflexivity|]. intros x Hx.
    apply (Permutation_in _ Hroots), roots_in_spec in Hx.
    destruct Hx as [Hx Hp]. split; [assumption|now apply level_root].
  - destruct Ha as (Hl & d' & -> & Hlev).
    destruct (inv_node _ l Hinv Hl) as (n1 & n & _ & Hn & _).
    rewrite Hn. eexists. split; [reflexivity|]. intros x Hx.
    apply (Permutation_in _ (Hkids l n Hl Hn)), kids_in_spec in Hx.
    destruct Hx as [Hx Hp]. split; [assumption|]. eapply level_child; eassumption.
Qed.

Lemma mapM_with_start (h : heap) (ls : list loc) :
  inv h -> (forall x, In x ls -> In x order) ->
  exists keyed, mapM (with_start h) ls = Some keyed /\ map snd keyed = ls.
Proof.
  intros Hinv. induction ls as [|x ls IH]; intros Hls; simpl.
  - now exists [].
  - destruct (inv_node h x Hinv) as (n1 & n & _ & Hn & _); [apply Hls; now left|].
    unfold with_start at 1. rewrite Hn.
    destruct IH as (keyed & -> & Hk); [intros y Hy; apply Hls; now right|].
    eexists. split; [reflexivity|]. simpl. now rewrite Hk.
Qed.

Lemma sort_arr_ok (st : state) (a : aref) (d : nat) :
  sorted_inv st -> arr_level a d ->
  exists st' sorted, sort_arr st a = Some (st', sorted)
    /\ sorted_inv st'
    /\ forall x, In x sorted -> In x order /\ level d x.
Proof.
  intros Hst Ha.
  destruct (read_arr_levels st a d Hst Ha) as (ls & Hread & Hls).
  destruct Hst as ((Hinv & Hkids) & Hroots).
  destruct (mapM_with_start (st_heap st) ls Hinv) as (keyed & Hkeyed & Hsnd).
  { intros x Hx. now apply Hls. }
  unfold sort_arr. rewrite Hread, Hkeyed.
  set (sorted := map snd (sort_by (fun x y => fst x - fst y) keyed)).
  assert (Hperm : Permutation sorted ls).
  { unfold sorted. rewrite <- Hsnd. apply Permutation_map, sort_by_perm. }
  assert (Hsorted : forall x, In x sorted -> In x order /\ level d x).
  { intros x Hx. apply Hls. eapply Permutation_in; eassumption. }
  destruct a as [|l]; simpl in *.
  - eexists _, sorted. split; [reflexivity|]. split; [|assumption].
    split; [split; assumption|]. simpl.
    injection Hread as <-. now rewrite Hperm.
  - destruct Ha as (Hl & _).
    destruct (read_node (st_heap st) l) as [n|] eqn:Hn; [|discriminate].
    injection Hread as <-.
    eexists _, sorted. split; [reflexivity|]. split; [|assumption].
    split; [split|assumption]; simpl.
    + eapply inv_write; eauto. repeat split.
    + intros l0 n0 Hl0 Hn0. destruct (Nat.eq_dec l l0) as [<-|Hne].
      * erewrite read_write_eq in Hn0 by exact Hn. injection Hn0 as <-. simpl.
        rewrite Hperm. now apply Hkids.
      * rewrite read_write_ne in Hn0 by assumption. now apply Hkids.
Qed.

Lemma sortChildren_ok (k : nat) :
  forall (d : nat) (st : state) (a : aref),
    sorted_inv st -> arr_level a d -> (length order <= d + k)%nat ->
    exists st', sortChildren (S k) st a = Some st' /\ sorted_inv st'.
Proof.
  induction k as [|k IH]; intros d st a Hst Ha Hfuel.
  - destruct (sort_arr_ok st a d Hst Ha) as (st1 & sorted & Hsort & Hst1 & Hlev).
    cbn [sortChildren]. rewrite Hsort.
    destruct sorted as [|x sorted].
    + exists st1. now split.
    + destruct (Hlev x) as [Hx Hlx]; [now left|].
      pose proof (level_bound d x Hlx Hx). lia.
  - destruct (sort_arr_ok st a d Hst Ha) as (st1 & sorted & Hsort & Hst1 & Hlev).
    change (sortChildren (S (S k)) st a)
      with (match sort_arr st a with
            | Some (st1, sorted) =>
                fold_left (fun acc l =>
                             match acc with
                             | Some s => sortChildren (S k) s (AChildren l)
                             | None => None
                             end) sorted (Some st1)
            | None => None
            end).
    rewrite Hsort. clear Hsort Hst Ha st.
    revert st1 Hst1. induction sorted as [|x sorted IHs]; intros st1 Hst1.
    + exists st1. now split.
    + cbn [fold_left].
      destruct (Hlev x) as [Hx Hlx]; [now left|].
      destruct (IH (S d) st1 (AChildren x) Hst1) as (st2 & -> & Hst2).
      { split; [assumption|]. now exists d. }
      { lia. }
      apply IHs; [|assumption]. intros y Hy. apply Hlev. now right.
Qed.

(** *** The returned forest *)

Lemma reify_reified (k : nat) (h : heap) :
  forall ls f, reify k h ls = Some f ->
  List.Forall (reified h) f /\ map node_ref f = ls.
Proof.
  induction k as [|k IH]; intros ls f; [discriminate|].
  cbn [reify]. revert f. induction ls as [|l ls IHl]; intros f; simpl.
  - intros [= <-]. split; [constructor|reflexivity].
  - destruct (read_node h l) as [n|] eqn:Hn; [|discriminate].
    destruct (reify k h (children n)) as [kids|] eqn:Hk; [|discriminate].
    destruct (mapM _ ls) as [f'|] eqn:Hf; [|discriminate].
    intros [= <-]. destruct (IH _ _ Hk) as [Hkids Hrefs].
    destruct (IHl f' eq_refl) as [Hf' Hls].
    split; [|simpl; now rewrite Hls].
    constructor; [|assumption]. now constructor.
Qed.

Lemma reify_ok (h : heap) (k : nat) :
  heap_inv h ->
  forall (d : nat) (ls : list loc),
    (forall x, In x ls -> In x order /\ level d x) ->
    (length order <= d + k)%nat ->
    exists f, reify (S k) h ls = Some f.
Proof.
  intros (Hinv & Hkids). induction k as [|k IH]; intros d ls Hls Hfuel.
  - destruct ls as [|x ls]; [now exists []|].
    destruct (Hls x) as [Hx Hlx]; [now left|].
    pose proof (level_bound d x Hlx Hx). lia.
  - change (reify (S (S k)) h ls)
      with (mapM (fun l =>
                    match read_node h l with
                    | Some n =>
                        match reify (S k) h (children n) with
                        | Some kids => Some (SNode l n kids)
                        | None => None
                        end
                    | None => None
                    end) ls).
    induction ls as [|x ls IHl]; [now exists []|].
    cbn [mapM].
    destruct (Hls x) as [Hx Hlx]; [now left|].
    destruct (inv_node h x Hinv Hx) as (n1 & n & _ & Hn & _).
    rewrite Hn.
    destruct (IH (S d) (children n)) as (kids & ->); [|lia|].
    { intros c Hc. apply (Permutation_in _ (Hkids x n Hx Hn)), kids_in_spec in Hc.
      destruct Hc as [Hc Hp]. split; [assumption|]. eapply level_child; eassumption. }
    destruct IHl as (f & ->); [intros y Hy; apply Hls; now right|].
    eexists. reflexivity.
Qed.

Lemma NoDup_flat_map_disjoint {A B C : Type} (g : A -> C) (f : A -> list B) (l : list A) :
  List.NoDup (map g l) ->
  (forall x, In x l -> List.NoDup (f x)) ->
  (forall x y r, In x l -> In y l -> In r (f x) -> In r (f y) -> g x = g y) ->
  List.NoDup (flat_map f l).
Proof.
  induction l as [|a l IH]; intros Hg Hf Hd; simpl; [constructor|].
  simpl in Hg. apply List.NoDup_cons_iff in Hg. destruct Hg as [Ha Hg].
  apply List.NoDup_app.
  - apply Hf. now left.
  - apply IH; [assumption| |].
    + intros x Hx. apply Hf. now right.
    + intros x y r Hx Hy. apply Hd; now right.
  - intros r Hr Hr'. apply List.in_flat_map in Hr'. destruct Hr' as (y & Hy & Hry).
    apply Ha. rewrite (Hd a y r); [now apply List.in_map|now left|now right|assumption|assumption].
Qed.

Section Forest.

Variable h : heap.
Hypothesis h_inv : heap_inv h.

(** Every node of a reified tree is indexed, lies at its tree depth below
    the top and has the top as its ancestor at that distance. *)
Lemma reified_refs (n : SpanNode) :
  reified h n ->
  forall d, In (node_ref n) order -> level d (node_ref n) ->
  forall r, In r (refs_of n) ->
    In r order /\ exists j, level (d + j) r /\ up j r = Some (node_ref n).
Proof.
  destruct h_inv as (Hinv & Hkids).
  induction n as [l ts kids IH] using SpanNode_forall_ind.
  intros Hre d Hl Hlev r Hr. inversion Hre as [? ? ? Hts Hrefs Hall]; subst.
  simpl in *. destruct Hr as [<-|Hr].
  - split; [assumption|]. exists 0%nat. now rewrite Nat.add_0_r.
  - apply List.in_flat_map in Hr. destruct Hr as (kid & Hkid & Hr).
    rewrite List.Forall_forall in IH, Hall.
    assert (Hc : In (node_ref kid) (kids_in order l)).
    { apply (Permutation_in _ (Hkids l ts Hl Hts)). rewrite <- Hrefs.
      now apply List.in_map. }
    apply kids_in_spec in Hc. destruct Hc as [Hc Hp].
    destruct (IH kid Hkid (Hall kid Hkid) (S d) Hc (level_child _ _ _ Hp Hlev) r Hr)
      as (Hro & j & Hj & Hup).
    split; [assumption|]. exists (S j). split.
    + now rewrite Nat.add_succ_r.
    + replace (S j) with (j + 1)%nat by lia. rewrite up_add, Hup. simpl. now rewrite Hp.
Qed.

Lemma reified_nodup (n : SpanNode) :
  reified h n ->
  forall d, In (node_ref n) order -> level d (node_ref n) ->
  List.NoDup (refs_of n).
Proof.
  destruct h_inv as (Hinv & Hkids).
  induction n as [l ts kids IH] using SpanNode_forall_ind.
  intros Hre d Hl Hlev. inversion Hre as [? ? ? Hts Hrefs Hall]; subst.
  simpl in *. rewrite List.Forall_forall in IH, Hall.
  assert (Hkid : forall kid, In kid kids ->
            In (node_ref kid) order /\ level (S d) (node_ref kid)).
  { intros kid Hk.
    assert (Hc : In (node_ref kid) (kids_in order l)).
    { apply (Permutation_in _ (Hkids l ts Hl Hts)). rewrite <- Hrefs.
      now apply List.in_map. }
    apply kids_in_spec in Hc. destruct Hc as [Hc Hp].
    split; [assumption|]. eapply level_child; eassumption. }
  constructor.
  - intros Hin. apply List.in_flat_map in Hin. destruct Hin as (kid & Hk & Hr).
    destruct (Hkid kid Hk) as [Hc Hlc].
    destruct (reified_refs kid (Hall kid Hk) (S d) Hc Hlc l Hr) as (_ & j & Hj & _).
    pose proof (level_unique _ _ _ Hlev Hj). lia.
  - apply (NoDup_flat_map_disjoint node_ref).
    + rewrite Hrefs. apply (Permutation_NoDup (Permutation_sym (Hkids l ts Hl Hts))).
      apply List.NoDup_filter, m_vals.
    + intros kid Hk. destruct (Hkid kid Hk) as [Hc Hlc].
      now apply (IH kid Hk (Hall kid Hk) (S d)).
    + intros x y r Hx Hy Hrx Hry.
      destruct (Hkid x Hx) as [Hcx Hlx]. destruct (Hkid y Hy) as [Hcy Hly].
      destruct (reified_refs x (Hall x Hx) (S d) Hcx Hlx r Hrx) as (_ & j & Hj & Hup).
      destruct (reified_refs y (Hall y Hy) (S d) Hcy Hly r Hry) as (_ & j' & Hj' & Hup').
      assert (j = j') by (pose proof (level_unique _ _ _ Hj Hj'); lia).
      subst j'. congruence.
Qed.

(** The forest below the root array. *)
Lemma forest_refs (roots : list loc) (f : list SpanNode) :
  Permutation roots (roots_in order) ->
  List.Forall (reified h) f -> map node_ref f = roots ->
  List.NoDup (flat_map refs_of f)
  /\ forall r, In r (flat_map refs_of f) -> In r order /\ exists d, level d r.
Proof.
  intros Hroots Hall Hrefs. rewrite List.Forall_forall in Hall.
  assert (Htop : forall n, In n f -> In (node_ref n) order /\ level 0 (node_ref n)).
  { intros n Hn.
    assert (Hr : In (node_ref n) (roots_in order)).
    { apply (Permutation_in _ Hroots). rewrite <- Hrefs. now apply List.in_map. }
    apply roots_in_spec in Hr. destruct Hr as [Hr Hp].
    split; [assumption|now apply level_root]. }
  split.
  - apply (NoDup_flat_map_disjoint node_ref).
    + rewrite Hrefs. apply (Permutation_NoDup (Permutation_sym Hroots)).
      apply List.NoDup_filter, m_vals.
    + intros n Hn. destruct (Htop n Hn) as [Hr Hl].
      now apply (reified_nodup n (Hall n Hn) 0%nat).
    + intros x y r Hx Hy Hrx Hry.
      destruct (Htop x Hx) as [Hcx Hlx]. destruct (Htop y Hy) as [Hcy Hly].
      destruct (reified_refs x (Hall x Hx) 0%nat Hcx Hlx r Hrx) as (_ & j & Hj & Hup).
      destruct (reified_refs y (Hall y Hy) 0%nat Hcy Hly r Hry) as (_ & j' & Hj' & Hup').
      assert (j = j') by (pose proof (level_unique _ _ _ Hj Hj'); lia).
      subst j'. congruence.
  - intros r Hr. apply List.in_flat_map in Hr. destruct Hr as (n & Hn & Hr).
    destruct (Htop n Hn) as [Hc Hl].
    destruct (reified_refs n (Hall n Hn) 0%nat Hc Hl r Hr) as (Hro & j & Hj & _).
    split; [assumption|]. now exists (0 + j)%nat.
Qed.

End Forest.

End Attached.

(** *** The conversion loop *)

Lemma read_span_app (h ex : heap) (l : loc) (s : TraceSpan) :
  read_span h l = Some s -> read_span (h ++ ex) l = Some s.
Proof.
  unfold read_span. destruct (h !! l) as [o|] eqn:E; [|discriminate].
  rewrite lookup_app_l by (eapply lookup_lt_Some, E). now rewrite E.
Qed.

Lemma convert_closed (minT : Z) (h : heap) :
  forall (spans : list loc) (ss : list TraceSpan) (ex : heap) (m : spanMap),
    mapM (read_span h) spans = Some ss ->
    fold_left (convert_step minT) spans (Some (h ++ ex, m))
    = Some (h ++ ex ++ fresh_nodes minT ss, index_spans (length (h ++ ex)) ss m).
Proof.
  induction spans as [|l spans IH]; intros ss ex m Hss; simpl in Hss.
  - injection Hss as <-. simpl. now rewrite app_nil_r.
  - destruct (read_span h l) as [s|] eqn:Hs; [|discriminate].
    destruct (mapM (read_span h) spans) as [ss'|] eqn:Hss'; [|discriminate].
    injection Hss as <-. cbn [fold_left convert_step].
    rewrite (read_span_app h ex l s Hs).
    rewrite <- app_assoc.
    rewrite (IH ss' (ex ++ [ONode (timelineSpan minT s)]) _ eq_refl).
    f_equal. f_equal.
    + simpl. now rewrite <- app_assoc.
    + simpl. f_equal. rewrite !length_app. simpl. lia.
Qed.

Lemma mapM_length {A B : Type} (f : A -> option B) (l : list A) (l' : list B) :
  mapM f l = Some l' -> length l' = length l.
Proof.
  revert l'. induction l as [|x l IH]; intros l'; simpl.
  - now intros [= <-].
  - destruct (f x); [|discriminate]. destruct (mapM f l); [|discriminate].
    intros [= <-]. simpl. f_equal. now apply IH.
Qed.

Lemma map_get_set (k k' : string) (v : loc) (m : spanMap) :
  map_get k (map_set k' v m) = if String.eqb k k' then Some v else map_get k m.
Proof.
  induction m as [|[k0 v0] m IH]; simpl.
  - reflexivity.
  - destruct (String.eqb_spec k' k0) as [->|Hne]; simpl.
    + destruct (String.eqb_spec k k0); reflexivity.
    + rewrite IH. destruct (String.eqb_spec k k0) as [->|]; [|reflexivity].
      destruct (String.eqb_spec k0 k'); congruence.
Qed.

Lemma map_set_keys (k : string) (v : loc) (m : spanMap) :
  map fst (map_set k v m)
  = if map_has k m then map fst m else map fst m ++ [k].
Proof.
  unfold map_has. induction m as [|[k0 v0] m IH]; simpl; [reflexivity|].
  destruct (String.eqb_spec k k0) as [->|Hne]; simpl; [reflexivity|].
  rewrite IH. now destruct (map_get k m).
Qed.

Lemma map_get_None (k : string) (m : spanMap) :
  map_get k m = None -> ~ In k (map fst m).
Proof.
  induction m as [|[k0 v0] m IH]; simpl; [tauto|].
  destruct (String.eqb_spec k k0) as [->|Hne]; [discriminate|].
  intros H [Heq|Hin]; [congruence|]. now apply IH.
Qed.

Lemma map_set_nodup (k : string) (v : loc) (m : spanMap) :
  List.NoDup (map fst m) -> List.NoDup (map fst (map_set k v m)).
Proof.
  intros Hm. rewrite map_set_keys. unfold map_has.
  destruct (map_get k m) eqn:E; [assumption|].
  apply List.NoDup_app; [assumption|repeat constructor; intros []|].
  intros a Ha [<-|[]]. now apply (map_get_None k m).
Qed.

Lemma map_get_of_In (m : spanMap) (k : string) (l : loc) :
  List.NoDup (map fst m) -> In (k, l) m -> map_get k m = Some l.
Proof.
  induction m as [|[k0 v0] m IH]; simpl; [tauto|].
  intros Hnd Hin. apply List.NoDup_cons_iff in Hnd. destruct Hnd as [Hk0 Hnd].
  destruct Hin as [[= -> ->]|Hin].
  - now rewrite String.eqb_refl.
  - destruct (String.eqb_spec k k0) as [->|_]; [|now apply IH].
    exfalso. apply Hk0. apply List.in_map_iff. now exists (k0, l).
Qed.

Lemma index_spans_nodup (ss : list TraceSpan) :
  forall base m, List.NoDup (map fst m) -> List.NoDup (map fst (index_spans base ss m)).
Proof.
  induction ss as [|s ss IH]; intros base m Hm; simpl; [assumption|].
  apply IH. now apply map_set_nodup.
Qed.

Lemma index_spans_get (k : string) (ss : list TraceSpan) :
  forall base m,
    map_get k (index_spans base ss m)
    = match last_index k ss with
      | Some i => Some (base + i)%nat
      | None => map_get k m
      end.
Proof.
  induction ss as [|s ss IH]; intros base m; simpl; [reflexivity|].
  rewrite IH. destruct (last_index k ss) as [i|].
  - f_equal. lia.
  - rewrite map_get_set. destruct (String.eqb k (span_id s)); [f_equal; lia|reflexivity].
Qed.

Lemma index_spans_length (ss : list TraceSpan) :
  forall base m, (length (index_spans base ss m) <= length m + length ss)%nat.
Proof.
  induction ss as [|s ss IH]; intros base m; simpl; [lia|].
  etransitivity; [apply IH|].
  assert (length (map_set (span_id s) base m) <= S (length m))%nat; [|lia].
  clear. induction m as [|[k0 v0] m IHm]; simpl; [lia|].
  destruct (String.eqb (span_id s) k0); simpl; lia.
Qed.

Lemma last_index_find (k : string) (ss : list TraceSpan) (i : nat) :
  last_index k ss = Some i ->
  exists s, nth_error ss i = Some s /\ find_last k ss = Some s /\ span_id s = k.
Proof.
  revert i. induction ss as [|s0 ss IH]; intros i; simpl; [discriminate|].
  destruct (last_index k ss) as [j|] eqn:Hj.
  - intros [= <-]. destruct (IH j eq_refl) as (s & Hn & Hf & Hid).
    exists s. simpl. now rewrite Hf.
  - assert (Hnone : find_last k ss = None).
    { clear IH. induction ss as [|s1 ss IHs]; simpl in *; [reflexivity|].
      destruct (last_index k ss); [discriminate|].
      rewrite IHs by reflexivity.
      destruct (String.eqb k (span_id s1)); [discriminate|reflexivity]. }
    rewrite Hnone. destruct (String.eqb_spec k (span_id s0)) as [->|]; [|discriminate].
    intros [= <-]. now exists s0.
Qed.

Lemma find_last_index (k : string) (ss : list TraceSpan) (s : TraceSpan) :
  find_last k ss = Some s -> exists i, last_index k ss = Some i.
Proof.
  revert s. induction ss as [|s0 ss IH]; intros s; simpl; [discriminate|].
  destruct (find_last k ss) as [s'|].
  - intros _. destruct (IH s' eq_refl) as (i & ->). now eexists.
  - destruct (last_index k ss); [now eexists|].
    destruct (String.eqb k (span_id s0)); [now eexists|discriminate].
Qed.

Lemma find_last_In (k : string) (ss : list TraceSpan) (s : TraceSpan) :
  find_last k ss = Some s -> In s ss /\ span_id s = k.
Proof.
  intros H. destruct (find_last_index k ss s H) as (i & Hi).
  destruct (last_index_find k ss i Hi) as (s' & Hn & Hf & Hid).
  assert (s' = s) by congruence. subst s'.
  split; [eapply nth_error_In, Hn|assumption].
Qed.

(** What the builder's index and heap are after the conversion loop. *)
Section Converted.

Variable h : heap.
Variable ss : list TraceSpan.
Variable minT : Z.

Local Abbreviation heap1 := (heap1 h ss minT).
Local Abbreviation index1 := (index1 h ss).

Lemma index1_nodup : List.NoDup (map fst index1).
Proof. apply index_spans_nodup. constructor. Qed.

Lemma index1_get (k : string) (l : loc) :
  map_get k index1 = Some l <->
  exists i, last_index k ss = Some i /\ l = (length h + i)%nat.
Proof.
  unfold index1. rewrite index_spans_get. simpl.
  destruct (last_index k ss) as [i|]; split.
  - intros [= <-]. now exists i.
  - intros (j & [= <-] & ->). reflexivity.
  - discriminate.
  - intros (j & Hj & _). discriminate.
Qed.

Lemma index1_entry (k : string) (l : loc) :
  In (k, l) index1 ->
  exists s, find_last k ss = Some s /\ span_id s = k
            /\ read_node heap1 l = Some (timelineSpan minT s)
            /\ (length h <= l)%nat.
Proof.
  intros Hin. apply (map_get_of_In _ _ _ index1_nodup), index1_get in Hin.
  destruct Hin as (i & Hi & ->).
  destruct (last_index_find k ss i Hi) as (s & Hn & Hf & Hid).
  exists s. repeat split; try assumption; [|lia].
  unfold read_node, heap1, fresh_nodes.
  rewrite lookup_app_r by lia.
  replace (length h + i - length h)%nat with i by lia.
  change (map ?f ss) with (f <$> ss). rewrite list_lookup_fmap.
  replace (ss !! i) with (Some s); [reflexivity|].
  symmetry. clear -Hn. revert i Hn.
  induction ss as [|s0 l IH]; intros [|i]; simpl; try discriminate; auto.
Qed.

Lemma index1_vals : List.NoDup (map snd index1).
Proof.
  assert (Hinj : forall k l k' l', In (k, l) index1 -> In (k', l') index1 ->
                   l = l' -> k = k').
  { intros k l k' l' H1 H2 <-.
    destruct (index1_entry k l H1) as (s & _ & Hid & Hr & _).
    destruct (index1_entry k' l H2) as (s' & _ & Hid' & Hr' & _).
    assert (Hs : timelineSpan minT s = timelineSpan minT s') by congruence.
    apply (f_equal ts_span) in Hs. simpl in Hs. congruence. }
  pose proof index1_nodup as Hnd. revert Hinj Hnd.
  generalize index1. intros m. induction m as [|[k l] m IH]; intros Hinj Hnd; simpl.
  - constructor.
  - simpl in Hnd. apply List.NoDup_cons_iff in Hnd. destruct Hnd as [Hk Hnd].
    constructor.
    + intros Hl. apply List.in_map_iff in Hl. destruct Hl as ([k' l'] & Heq & Hin).
      simpl in Heq. subst l'. apply Hk.
      rewrite (Hinj k l k' l); [|now left|now right|reflexivity].
      apply List.in_map_iff. now exists (k', l).
    + apply IH; [|assumption]. intros k1 l1 k2 l2 H1 H2. apply Hinj; now right.
Qed.

Lemma index1_nodes (l : loc) :
  In l (map snd index1) -> exists n, read_node heap1 l = Some n /\ children n = [].
Proof.
  intros Hl. apply List.in_map_iff in Hl. destruct Hl as ([k l'] & Heq & Hin).
  simpl in Heq. subst l'.
  destruct (index1_entry k l Hin) as (s & _ & _ & Hr & _).
  eexists. split; [exact Hr|reflexivity].
Qed.

Lemma index1_length : (length index1 <= length ss)%nat.
Proof. unfold index1. pose proof (index_spans_length ss (length h) []). simpl in *. lia. Qed.

Lemma index1_fresh (l : loc) : In l (order index1) -> (length h <= l)%nat.
Proof.
  intros Hl. apply List.in_map_iff in Hl. destruct Hl as ([k l'] & Heq & Hin).
  simpl in Heq. subst l'. now destruct (index1_entry k l Hin) as (s & _ & _ & _ & Hr).
Qed.

End Converted.

(** *** The whole builder *)

Lemma nodes_refs (n : SpanNode) : map node_ref (nodes_of n) = refs_of n.
Proof.
  induction n as [r ts kids IH] using SpanNode_forall_ind. simpl. f_equal.
  rewrite map_flat_map. now apply flat_map_Forall_ext.
Qed.

Lemma forest_nodes_refs (f : list SpanNode) :
  map node_ref (forest_nodes f) = flat_map refs_of f.
Proof.
  unfold forest_nodes. rewrite map_flat_map.
  apply flat_map_Forall_ext, List.Forall_forall. intros n _. apply nodes_refs.
Qed.

Lemma reified_nodes (h : heap) (n : SpanNode) :
  reified h n -> forall n', In n' (nodes_of n) -> reified h n'.
Proof.
  induction n as [r ts kids IH] using SpanNode_forall_ind.
  intros Hre n' Hn'. simpl in Hn'. destruct Hn' as [<-|Hn']; [assumption|].
  inversion Hre as [? ? ? _ _ Hall]; subst.
  apply List.in_flat_map in Hn'. destruct Hn' as (kid & Hk & Hn').
  rewrite List.Forall_forall in IH, Hall. eapply IH; eauto.
Qed.

Lemma reified_read (h : heap) (n : SpanNode) :
  reified h n -> read_node h (node_ref n) = Some (node_ts n).
Proof. now destruct 1. Qed.

Lemma convert_closed0 (h : heap) (spans : list loc) (ss : list TraceSpan) (minT : Z) :
  mapM (read_span h) spans = Some ss ->
  fold_left (convert_step minT) spans (Some (h, []))
  = Some (heap1 h ss minT, index1 h ss).
Proof.
  intros Hss. pose proof (convert_closed minT h spans ss [] [] Hss) as H.
  rewrite app_nil_r in H. exact H.
Qed.

(** The builder returns on every well-formed input, in a state that
    satisfies the invariant of the attachment. *)
Lemma spanTree_run (h : heap) (spans : list loc) (ss : list TraceSpan) :
  mapM (read_span h) spans = Some ss ->
  exists st f,
    spanTree_state h spans = Some st
    /\ spanTree h spans = Some f
    /\ sorted_inv (heap1 h ss (minTime ss)) (index1 h ss) st
    /\ List.Forall (reified (st_heap st)) f
    /\ map node_ref f = rootSpans st.
Proof.
  intros Hss.
  set (h1 := heap1 h ss (minTime ss)). set (m := index1 h ss).
  pose proof (index1_nodes h ss (minTime ss)) as Hnodes. fold h1 m in Hnodes.
  assert (Hlen : (length (order m) <= 0 + length spans)%nat).
  { unfold order. rewrite length_map. pose proof (index1_length h ss).
    rewrite (mapM_length _ _ _ Hss) in H. exact H. }
  assert (Hst : exists st, spanTree_state h spans = Some st /\ sorted_inv h1 m st).
  { destruct spans as [|l spans].
    - injection Hss as <-. exists (mkState h []). split; [reflexivity|].
      unfold h1, heap1. simpl. rewrite app_nil_r.
      split; [split; [apply inv_init|]|reflexivity].
      intros l n [].
    - unfold spanTree_state, build. rewrite Hss.
      rewrite (convert_closed0 h _ ss _ Hss). fold h1 m.
      destruct (attach_all h1 m Hnodes m [] (mkState h1 []))
        as (st0 & Hfold & Hatt); [now apply attached_init|auto|].
      rewrite Hfold. simpl in Hatt. apply attached_sorted_inv in Hatt.
      apply (sortChildren_ok h1 m Hnodes (length (l :: spans)) 0%nat st0 ARoots);
        [assumption|reflexivity|assumption]. }
  destruct Hst as (st & Hstate & Hinv). exists st.
  destruct Hinv as (Hheap & Hroots).
  destruct (reify_ok h1 m Hnodes (st_heap st) (length spans) Hheap 0%nat (rootSpans st))
    as (f & Hf); [|assumption|].
  { intros x Hx. apply (Permutation_in _ Hroots), roots_in_spec in Hx.
    destruct Hx as [Hx Hp]. split; [assumption|now apply level_root]. }
  exists f. unfold spanTree. rewrite Hstate.
  destruct (reify_reified _ _ _ _ Hf) as [Hall Hrefs].
  split; [reflexivity|]. split; [exact Hf|].
  split; [split; assumption|]. split; assumption.
Qed.

(** What is known of a node of the returned forest: it is the node indexed
    under its id, it carries the last input span with that id, and it has a
    level. *)
Lemma forest_node_facts (h : heap) (ss : list TraceSpan) (st : state)
    (f : list SpanNode) (n : SpanNode) :
  sorted_inv (heap1 h ss (minTime ss)) (index1 h ss) st ->
  List.Forall (reified (st_heap st)) f ->
  map node_ref f = rootSpans st ->
  In n (forest_nodes f) ->
  map_get (node_id n) (index1 h ss) = Some (node_ref n)
  /\ find_last (node_id n) ss = Some (ts_span (node_ts n))
  /\ (exists d, level (heap1 h ss (minTime ss)) (index1 h ss) d (node_ref n))
  /\ (length h <= node_ref n)%nat.
Proof.
  set (h1 := heap1 h ss (minTime ss)). set (m := index1 h ss).
  intros (Hheap & Hroots) Hall Hrefs Hn.
  pose proof (index1_nodes h ss (minTime ss)) as Hnodes. fold h1 m in Hnodes.
  destruct (forest_refs h1 m (index1_vals h ss (minTime ss)) (st_heap st) Hheap
              (rootSpans st) f Hroots Hall Hrefs) as (_ & Hfacts).
  destruct (Hfacts (node_ref n)) as (Hord & Hlev).
  { rewrite <- forest_nodes_refs. now apply List.in_map. }
  assert (Hre : reified (st_heap st) n).
  { unfold forest_nodes in Hn. apply List.in_flat_map in Hn.
    destruct Hn as (top & Htop & Hn). rewrite List.Forall_forall in Hall.
    eapply reified_nodes; eauto. }
  apply reified_read in Hre.
  pose proof Hord as Hord'. apply List.in_map_iff in Hord'.
  destruct Hord' as ([k l] & Heq & Hin). simpl in Heq. subst l.
  destruct (index1_entry h ss (minTime ss) k _ Hin) as (s & Hfind & Hid & Hr1 & Hfresh).
  fold h1 in Hr1.
  destruct Hheap as (Hinv & _).
  destruct (inv_node h1 m Hnodes _ _ Hinv Hord) as (n1 & n0 & Hn1 & Hn0 & Hs & _).
  assert (n1 = timelineSpan (minTime ss) s) by congruence. subst n1.
  assert (n0 = node_ts n) by congruence. subst n0.
  simpl in Hs.
  assert (Hk : node_id n = k) by (unfold node_id; now rewrite Hs).
  rewrite Hk. repeat split.
  - apply map_get_of_In; [apply index1_nodup|exact Hin].
  - now rewrite Hs.
  - exact Hlev.
  - exact Hfresh.
Qed.

(** *** Parent chains on span ids *)

Lemma self_parent_on_cycle (ss : list TraceSpan) (s : TraceSpan) :
  find_last (span_id s) ss = Some s ->
  truthy (parent_span_id s) = Some (span_id s) ->
  on_cycle ss (span_id s).
Proof.
  intros Hf Hp. exists 1%nat. split; [lia|].
  simpl. unfold parent_id. now rewrite Hf, Hp, Hf.
Qed.

Section Ids.

Variable h : heap.
Variable ss : list TraceSpan.
Variable minT : Z.

Lemma find_last_indexed (k : string) (s : TraceSpan) :
  find_last k ss = Some s -> exists l, map_get k (index1 h ss) = Some l.
Proof.
  intros Hf. destruct (find_last_index k ss s Hf) as (i & Hi).
  eexists. apply index1_get. now exists i.
Qed.

Lemma indexed_find_last (k : string) (l : loc) :
  map_get k (index1 h ss) = Some l -> exists s, find_last k ss = Some s.
Proof.
  intros Hg. apply index1_get in Hg. destruct Hg as (i & Hi & _).
  destruct (last_index_find k ss i Hi) as (s & _ & Hf & _). now exists s.
Qed.

Lemma par_id (k : string) (l : loc) :
  map_get k (index1 h ss) = Some l ->
  par (heap1 h ss minT) (index1 h ss) l
  = match parent_id ss k with
    | Some pid => map_get pid (index1 h ss)
    | None => None
    end.
Proof.
  intros Hg. pose proof (map_get_In _ _ _ Hg) as Hin.
  destruct (index1_entry h ss minT k l Hin) as (s & Hf & _ & Hr & _).
  unfold par, parent_id. rewrite Hr, Hf. unfold resolve. simpl.
  destruct (truthy (parent_span_id s)) as [pid|]; [|reflexivity].
  destruct (find_last pid ss) as [s'|] eqn:Hp; [reflexivity|].
  destruct (map_get pid (index1 h ss)) as [l'|] eqn:Hg'; [|reflexivity].
  destruct (indexed_find_last pid l' Hg') as (s' & Hs'). congruence.
Qed.

Lemma up_id (j : nat) :
  forall k l, map_get k (index1 h ss) = Some l ->
  up (heap1 h ss minT) (index1 h ss) j l
  = match ancestor_id ss j k with
    | Some k' => map_get k' (index1 h ss)
    | None => None
    end.
Proof.
  induction j as [|j IH]; intros k l Hg; simpl; [now rewrite Hg|].
  rewrite (par_id k l Hg).
  destruct (parent_id ss k) as [pid|] eqn:Hp; [|reflexivity].
  assert (Hpid : exists l', map_get pid (index1 h ss) = Some l').
  { unfold parent_id in Hp. destruct (find_last k ss); [|discriminate].
    destruct (truthy _) as [pid'|]; [|discriminate].
    destruct (find_last pid' ss) as [s'|] eqn:Hs'; [|discriminate].
    injection Hp as ->. eapply find_last_indexed, Hs'. }
  destruct Hpid as (l' & Hl'). rewrite Hl'. now apply IH.
Qed.

Lemma on_cycle_no_level (k : string) (l : loc) (d : nat) :
  on_cycle ss k -> map_get k (index1 h ss) = Some l ->
  ~ level (heap1 h ss minT) (index1 h ss) d l.
Proof.
  intros (j & Hj & Hanc) Hg. apply (cycle_no_level _ _ j); [assumption|].
  now rewrite (up_id j k l Hg), Hanc.
Qed.

End Ids.

Lemma roots_are_nodes (f : list SpanNode) (n : SpanNode) :
  In n f -> In n (forest_nodes f).
Proof.
  intros Hn. apply List.in_flat_map. exists n. split; [assumption|].
  destruct n. now left.
Qed.


Lemma mapM_Some_in {A B : Type} (f : A -> option B) (l : list A) (l' : list B) :
  mapM f l = Some l' -> forall x, In x l -> exists y, f x = Some y.
Proof.
  revert l'. induction l as [|a l IH]; intros l' H x Hx; simpl in *; [tauto|].
  destruct (f a) as [b|] eqn:Hb; [|discriminate].
  destruct (mapM f l) as [bs|]; [|discriminate].
  destruct Hx as [<-|Hx]; [now exists b|]. now apply (IH bs).
Qed.

Lemma mapM_ext_in {A B : Type} (f g : A -> option B) (l : list A) :
  (forall x, In x l -> f x = g x) -> mapM f l = mapM g l.
Proof.
  induction l as [|a l IH]; intros H; simpl; [reflexivity|].
  rewrite (H a) by now left. rewrite IH; [reflexivity|].
  intros x Hx. apply H. now right.
Qed.

(** *** Cycles, depths, the input heap and duplicated ids *)

(** C1, as stated, fails: for the single span [X] with
    [parent_span_id = span_id = "X"] the builder returns the empty root
    sequence; [X] has been pushed to its own [children] with depth 1. *)
Lemma C1_self_parent_not_root :
  spanTree self_heap [2%nat] = Some []
  /\ (exists st, spanTree_state self_heap [2%nat] = Some st
        /\ rootSpans st = []
        /\ exists x, read_node (st_heap st) 3%nat = Some x
             /\ span_id (ts_span x) = "X" /\ children x = [3%nat] /\ depth x = 1%nat).
Proof.
  split; [reflexivity|]. eexists. split; [reflexivity|]. split; [reflexivity|].
  eexists. split; [reflexivity|]. repeat split.
Qed.

(** C2 fails on the code when a span comes before its parent in the input
    and the parent is not a root: for the chain [A <- B <- C] listed as
    [C, B, A], the node of [C] gets [depth = 0 + 1] from the depth that [B]
    has when [C] is visited, and [B] gets depth 1 afterwards, so the child [C]
    and its parent [B] both end with depth 1. Listed as [A, B, C] the same
    spans get the depths 0, 1, 2. *)
Theorem C2_child_before_parent_depth :
  match spanTree chain_heap [2%nat; 3%nat; 4%nat] with
  | Some [SNode _ a [SNode _ b [SNode _ c []]]] =>
      span_id (ts_span a) = "A" /\ span_id (ts_span b) = "B" /\ span_id (ts_span c) = "C"
      /\ depth a = 0%nat /\ depth b = 1%nat /\ depth c = 1%nat
      /\ depth c <> S (depth b)
  | _ => False
  end
  /\ match spanTree chain_heap [4%nat; 3%nat; 2%nat] with
     | Some [SNode _ a [SNode _ b [SNode _ c []]]] =>
         span_id (ts_span a) = "A" /\ span_id (ts_span b) = "B"
         /\ span_id (ts_span c) = "C"
         /\ depth a = 0%nat /\ depth b = 1%nat /\ depth c = 2%nat
     | _ => False
     end.
Proof. split; vm_compute; repeat split; discriminate. Qed.

(** C9: the builder writes to no object that existed before the call: every
    cell of the input heap (the span objects, their attribute objects and
    event arrays) is the same afterwards, the input array reads the same
    spans, and every node of the returned forest is an object allocated by
    this call. *)
Theorem C9_input_unchanged (h : heap) (spans : list loc) (ss : list TraceSpan) :
  mapM (read_span h) spans = Some ss ->
  exists st f,
    spanTree_state h spans = Some st
    /\ spanTree h spans = Some f
    /\ (forall l, (l < length h)%nat -> st_heap st !! l = h !! l)
    /\ mapM (read_span (st_heap st)) spans = Some ss
    /\ (forall n, In n (forest_nodes f) ->
          (length h <= node_ref n)%nat
          /\ read_node (st_heap st) (node_ref n) = Some (node_ts n)
          /\ In (ts_span (node_ts n)) ss).
Proof.
  intros Hss.
  destruct (spanTree_run h spans ss Hss) as (st & f & Hst & Hf & Hinv & Hall & Hrefs).
  exists st, f. split; [assumption|]. split; [assumption|].
  assert (Hframe : forall l, (l < length h)%nat -> st_heap st !! l = h !! l).
  { intros l Hl. destruct Hinv as ((Hinv & _) & _).
    destruct (Hinv l) as [Hout _]. rewrite Hout.
    - unfold heap1. now rewrite lookup_app_l.
    - intros Hin. apply (index1_fresh h ss (minTime ss)) in Hin. lia. }
  split; [assumption|]. split.
  - rewrite <- Hss. apply mapM_ext_in. intros x Hx.
    destruct (mapM_Some_in _ _ _ Hss x Hx) as (s & Hs).
    unfold read_span in *. rewrite Hframe; [reflexivity|].
    destruct (h !! x) as [o|] eqn:E; [|discriminate].
    eapply lookup_lt_Some, E.
  - intros n Hn.
    destruct (forest_node_facts h ss st f n Hinv Hall Hrefs Hn) as (_ & Hfind & _ & Hfresh).
    split; [assumption|]. split.
    + apply reified_read. unfold forest_nodes in Hn. apply List.in_flat_map in Hn.
      destruct Hn as (top & Htop & Hn). rewrite List.Forall_forall in Hall.
      eapply reified_nodes; eauto.
    + now apply find_last_In in Hfind.
Qed.

Lemma C9_input_unchanged_witness :
  exists st f,
    spanTree_state chain_heap [2%nat; 3%nat; 4%nat] = Some st
    /\ spanTree chain_heap [2%nat; 3%nat; 4%nat] = Some f
    /\ (forall l, (l < length chain_heap)%nat -> st_heap st !! l = chain_heap !! l).
Proof.
  destruct (C9_input_unchanged chain_heap [2%nat; 3%nat; 4%nat] _ eq_refl)
    as (st & f & Hst & Hf & Hframe & _).
  exists st, f. auto.
Defined.



(** * Further properties *)

(** ** Stable sorting with a comparator *)

Section StableSort.

Context {A : Type} (cmp : A -> A -> Z).

Local Abbreviation cmp_le := (cmp_le cmp).

Hypothesis cmp_trans : forall a b c, cmp a b <= 0 -> cmp b c <= 0 -> cmp a c <= 0.
Hypothesis cmp_total : forall a b, 0 < cmp a b -> cmp b a <= 0.

Lemma insert_by_In (x y : A) (l : list A) :
  In y (insert_by cmp x l) <-> y = x \/ In y l.
Proof.
  split; intros H.
  - apply (Permutation_in _ (insert_by_perm cmp x l)) in H. destruct H; auto.
  - apply (Permutation_in _ (Permutation_sym (insert_by_perm cmp x l))).
    destruct H; [left|right]; auto.
Qed.

Lemma insert_by_sorted (x : A) (l : list A) :
  StronglySorted cmp_le l -> StronglySorted cmp_le (insert_by cmp x l).
Proof.
  induction 1 as [|y l Hs IH Hy]; simpl.
  - repeat constructor.
  - destruct (Z.leb_spec (cmp x y) 0) as [Hle|Hgt].
    + constructor; [now constructor|]. constructor; [exact Hle|].
      eapply List.Forall_impl; [|exact Hy]. intros z Hz. now apply (cmp_trans x y z).
    + constructor; [exact IH|].
      apply List.Forall_forall. intros z Hz. apply insert_by_In in Hz.
      destruct Hz as [->|Hz]; [now apply cmp_total|].
      rewrite List.Forall_forall in Hy. now apply Hy.
Qed.

Lemma sort_by_sorted (l : list A) : StronglySorted cmp_le (sort_by cmp l).
Proof.
  induction l as [|x l IH]; simpl; [constructor|]. now apply insert_by_sorted.
Qed.

Lemma insert_by_head (x : A) (l : list A) :
  List.Forall (cmp_le x) l -> insert_by cmp x l = x :: l.
Proof.
  destruct 1 as [|y l Hy _]; simpl; [reflexivity|].
  unfold cmp_le in Hy. now destruct (Z.leb_spec (cmp x y) 0); [|lia].
Qed.

(** A sorted list is left as it is. *)
Lemma sort_by_sorted_id (l : list A) : StronglySorted cmp_le l -> sort_by cmp l = l.
Proof.
  induction 1 as [|x l Hs IH Hx]; simpl; [reflexivity|].
  rewrite IH. now apply insert_by_head.
Qed.

Lemma filter_insert_by (p : A -> bool) (x : A) (l : list A) :
  StronglySorted cmp_le l ->
  List.filter p (insert_by cmp x l)
  = if p x then insert_by cmp x (List.filter p l) else List.filter p l.
Proof.
  induction 1 as [|y l Hs IH Hy]; simpl.
  - now destruct (p x).
  - destruct (Z.leb_spec (cmp x y) 0) as [Hle|Hgt].
    + simpl. destruct (p x) eqn:Hpx; [|reflexivity].
      symmetry. apply insert_by_head.
      assert (Hall : List.Forall (cmp_le x) (y :: l)).
      { constructor; [exact Hle|].
        eapply List.Forall_impl; [|exact Hy]. intros z Hz. now apply (cmp_trans x y z). }
      apply List.Forall_forall. intros z Hz.
      rewrite List.Forall_forall in Hall. apply Hall.
      change (In z (List.filter p (y :: l))) in Hz.
      now apply List.filter_In in Hz.
    + simpl. rewrite IH. destruct (p y), (p x); simpl; try reflexivity.
      now destruct (Z.leb_spec (cmp x y) 0); [lia|].
Qed.

(** Filtering commutes with the sort. *)
Lemma filter_sort_by (p : A -> bool) (l : list A) :
  List.filter p (sort_by cmp l) = sort_by cmp (List.filter p l).
Proof.
  induction l as [|x l IH]; simpl; [reflexivity|].
  rewrite filter_insert_by by apply sort_by_sorted.
  rewrite IH. now destruct (p x).
Qed.

End StableSort.

(** Stability: the elements with a given key keep their order. *)
Lemma insert_by_stable {A : Type} (cmp : A -> A -> Z) (key : A -> Z) (k : Z)
    (y : A) (l : list A) :
  (forall a b, key a = key b -> cmp a b <= 0) ->
  List.filter (fun a => key a =? k) (insert_by cmp y l)
  = List.filter (fun a => key a =? k) (y :: l).
Proof.
  intros Hkey. induction l as [|z l IH]; [reflexivity|].
  cbn [insert_by]. destruct (Z.leb_spec (cmp y z) 0) as [Hle|Hgt]; [reflexivity|].
  assert (Hne : key y <> key z) by (intros E; specialize (Hkey y z E); lia).
  cbn [List.filter] in *. rewrite IH.
  destruct (Z.eqb_spec (key y) k), (Z.eqb_spec (key z) k); try reflexivity.
  congruence.
Qed.

Lemma sort_by_stable {A : Type} (cmp : A -> A -> Z) (key : A -> Z) (k : Z) (l : list A) :
  (forall a b, key a = key b -> cmp a b <= 0) ->
  List.filter (fun a => key a =? k) (sort_by cmp l)
  = List.filter (fun a => key a =? k) l.
Proof.
  intros Hkey. induction l as [|y l IH]; [reflexivity|].
  cbn [sort_by]. rewrite insert_by_stable by assumption.
  cbn [List.filter]. now rewrite IH.
Qed.

(** ** The filter engines *)

Lemma filter_filter {A : Type} (p q : A -> bool) (l : list A) :
  List.filter q (List.filter p l) = List.filter (fun a => p a && q a) l.
Proof. symmetry. apply filter_andb. Qed.

Lemma filter_true {A : Type} (l : list A) : List.filter (fun _ => true) l = l.
Proof. induction l; simpl; congruence. Qed.

Lemma search_filter_ok (term : string) (l : list TraceSummary) :
  search_filter term l = List.filter (search_ok term) l.
Proof.
  unfold search_filter, search_ok. destruct (nonempty term); [reflexivity|].
  now rewrite filter_true.
Qed.

Lemma min_filter_ok (s : string) (l : list TraceSummary) :
  min_filter s l = List.filter (min_ok s) l.
Proof.
  unfold min_filter, min_ok. destruct (nonempty s); [reflexivity|].
  now rewrite filter_true.
Qed.

Lemma max_filter_ok (s : string) (l : list TraceSummary) :
  max_filter s l = List.filter (max_ok s) l.
Proof.
  unfold max_filter, max_ok. destruct (nonempty s); [reflexivity|].
  now rewrite filter_true.
Qed.

Lemma session_filter_ok (s : string) (l : list TraceSummary) :
  session_filter s l = List.filter (session_ok s) l.
Proof.
  unfold session_filter, session_ok. destruct (nonempty s); [reflexivity|].
  now rewrite filter_true.
Qed.

Lemma simple_as_filter (now : Z) (traces : list TraceSummary) (f : TraceSearch.Filters) :
  TraceSearch.filteredTraces now traces f = List.filter (simple_keep now f) traces.
Proof.
  unfold TraceSearch.filteredTraces, TraceSearch.date_filter, TraceSearch.status_filter.
  rewrite search_filter_ok, min_filter_ok, max_filter_ok, session_filter_ok.
  unfold simple_keep.
  destruct (negb (TraceSearch.status f =? "all")%string),
           (negb (TraceSearch.dateRange f =? "all")%string);
    rewrite ?filter_filter; apply filter_ext; intros t;
    rewrite ?andb_true_r, ?andb_assoc; reflexivity.
Qed.

Lemma advanced_as_filter (now : Z) (traces : list TraceSummary)
    (f : AdvancedTraceSearch.Filters) :
  AdvancedTraceSearch.filteredTraces now traces f
  = sort_by (AdvancedTraceSearch.compare_traces (AdvancedTraceSearch.sortBy f)
               (AdvancedTraceSearch.sortOrder f))
      (List.filter (advanced_keep now f) traces).
Proof.
  unfold AdvancedTraceSearch.filteredTraces, AdvancedTraceSearch.date_filter,
    AdvancedTraceSearch.status_filter.
  rewrite search_filter_ok, min_filter_ok, max_filter_ok, session_filter_ok.
  unfold advanced_keep. f_equal.
  destruct (negb (AdvancedTraceSearch.status f =? "all")%string),
           (negb (AdvancedTraceSearch.dateRange f =? "all")%string);
    rewrite ?filter_filter; apply filter_ext; intros t;
    rewrite ?andb_true_r, ?andb_assoc; reflexivity.
Qed.

Lemma filtered_In (now : Z) (traces : list TraceSummary)
    (fs : TraceSearch.Filters) (fa : AdvancedTraceSearch.Filters) (t : TraceSummary) :
  (In t (TraceSearch.filteredTraces now traces fs)
   <-> In t traces /\ simple_keep now fs t = true)
  /\ (In t (AdvancedTraceSearch.filteredTraces now traces fa)
      <-> In t traces /\ advanced_keep now fa t = true).
Proof.
  rewrite simple_as_filter, advanced_as_filter. split.
  - apply List.filter_In.
  - rewrite <- List.filter_In. split; apply Permutation_in.
    + apply sort_by_perm.
    + symmetry. apply sort_by_perm.
Qed.

(** X1: both engines keep a trace exactly when it passes every stage that
    is switched on (the stages combine as a conjunction, whatever their
    order), and they keep nothing that is not in the input. *)
Theorem X1_filters_are_a_conjunction (now : Z) (traces : list TraceSummary)
    (fs : TraceSearch.Filters) (fa : AdvancedTraceSearch.Filters) (t : TraceSummary) :
  (In t (TraceSearch.filteredTraces now traces fs)
   <-> In t traces /\ simple_keep now fs t = true)
  /\ (In t (AdvancedTraceSearch.filteredTraces now traces fa)
      <-> In t traces /\ advanced_keep now fa t = true).
Proof. apply filtered_In. Qed.

(** X2: the result of [TraceSearch] is a subsequence of the input, in the
    input order; the result of [AdvancedTraceSearch] is a rearrangement of a
    subsequence; neither is longer than the input. *)
Theorem X2_filter_result_is_subsequence (now : Z) (traces : list TraceSummary)
    (fs : TraceSearch.Filters) (fa : AdvancedTraceSearch.Filters) :
  sublist (TraceSearch.filteredTraces now traces fs) traces
  /\ (exists kept, sublist kept traces
        /\ Permutation (AdvancedTraceSearch.filteredTraces now traces fa) kept)
  /\ (length (TraceSearch.filteredTraces now traces fs) <= length traces)%nat
  /\ (length (AdvancedTraceSearch.filteredTraces now traces fa) <= length traces)%nat.
Proof.
  rewrite simple_as_filter, advanced_as_filter.
  assert (Hsub : forall (p : TraceSummary -> bool) l, sublist (List.filter p l) l).
  { intros p l. induction l as [|x l IH]; simpl; [constructor|].
    destruct (p x); now constructor. }
  split; [apply Hsub|]. split; [|split].
  - eexists. split; [apply Hsub|apply sort_by_perm].
  - apply sublist_length, Hsub.
  - rewrite sort_by_length. apply sublist_length, Hsub.
Qed.

Lemma compare_traces_key (sortBy sortOrder : string) (a b : TraceSummary) :
  AdvancedTraceSearch.compare_traces sortBy sortOrder a b
  = if String.eqb sortOrder "desc" then - (sort_key sortBy a - sort_key sortBy b)
    else sort_key sortBy a - sort_key sortBy b.
Proof.
  unfold AdvancedTraceSearch.compare_traces, sort_key.
  destruct (String.eqb sortBy "timestamp"); [reflexivity|].
  destruct (String.eqb sortBy "duration"); [reflexivity|].
  destruct (String.eqb sortBy "spans"); reflexivity.
Qed.

Lemma compare_traces_trans (sortBy sortOrder : string) (a b c : TraceSummary) :
  AdvancedTraceSearch.compare_traces sortBy sortOrder a b <= 0 ->
  AdvancedTraceSearch.compare_traces sortBy sortOrder b c <= 0 ->
  AdvancedTraceSearch.compare_traces sortBy sortOrder a c <= 0.
Proof. rewrite !compare_traces_key. destruct (String.eqb sortOrder "desc"); lia. Qed.

Lemma compare_traces_total (sortBy sortOrder : string) (a b : TraceSummary) :
  0 < AdvancedTraceSearch.compare_traces sortBy sortOrder a b ->
  AdvancedTraceSearch.compare_traces sortBy sortOrder b a <= 0.
Proof. rewrite !compare_traces_key. destruct (String.eqb sortOrder "desc"); lia. Qed.

(** X3: filtering is idempotent: filtering the result of either engine
    again, with the same filters at the same instant, changes nothing. *)
Theorem X3_filtering_is_idempotent (now : Z) (traces : list TraceSummary)
    (fs : TraceSearch.Filters) (fa : AdvancedTraceSearch.Filters) :
  TraceSearch.filteredTraces now (TraceSearch.filteredTraces now traces fs) fs
  = TraceSearch.filteredTraces now traces fs
  /\ AdvancedTraceSearch.filteredTraces now
       (AdvancedTraceSearch.filteredTraces now traces fa) fa
     = AdvancedTraceSearch.filteredTraces now traces fa.
Proof.
  split.
  - rewrite !simple_as_filter, filter_filter. apply filter_ext.
    intros t. now destruct (simple_keep now fs t).
  - rewrite !advanced_as_filter.
    set (cmp := AdvancedTraceSearch.compare_traces _ _).
    assert (Ht : forall a b c, cmp a b <= 0 -> cmp b c <= 0 -> cmp a c <= 0)
      by apply compare_traces_trans.
    assert (Hc : forall a b, 0 < cmp a b -> cmp b a <= 0)
      by apply compare_traces_total.
    rewrite (filter_sort_by cmp Ht Hc), filter_filter.
    rewrite (sort_by_sorted_id cmp) by (apply sort_by_sorted; assumption).
    f_equal. apply filter_ext. intros t. now destruct (advanced_keep now fa t).
Qed.

Lemma advanced_ordered_stable (now : Z) (traces : list TraceSummary)
    (f : AdvancedTraceSearch.Filters) :
  let result := AdvancedTraceSearch.filteredTraces now traces f in
  let key := sort_key (AdvancedTraceSearch.sortBy f) in
  StronglySorted (fun a b => key_order (AdvancedTraceSearch.sortOrder f) (key a) (key b))
    result
  /\ (forall k, List.filter (fun t => key t =? k) result
                = List.filter (fun t => key t =? k)
                    (List.filter (advanced_keep now f) traces))
  /\ (AdvancedTraceSearch.sortBy f <> "timestamp" ->
      AdvancedTraceSearch.sortBy f <> "duration" ->
      AdvancedTraceSearch.sortBy f <> "spans" ->
      result = List.filter (advanced_keep now f) traces).
Proof.
  cbv zeta. rewrite advanced_as_filter.
  set (cmp := AdvancedTraceSearch.compare_traces _ _).
  set (kept := List.filter _ traces).
  assert (Ht : forall a b c, cmp a b <= 0 -> cmp b c <= 0 -> cmp a c <= 0)
    by apply compare_traces_trans.
  assert (Hc : forall a b, 0 < cmp a b -> cmp b a <= 0)
    by apply compare_traces_total.
  split; [|split].
  - eapply StronglySorted_ind with (P := fun l => StronglySorted _ l);
      [constructor| |apply (sort_by_sorted cmp Ht Hc kept)].
    intros a l _ IH Ha. constructor; [exact IH|].
    eapply List.Forall_impl; [|exact Ha]. intros b Hab.
    unfold cmp_le, cmp in Hab. rewrite compare_traces_key in Hab.
    unfold key_order. destruct (String.eqb _ "desc"); lia.
  - intros k. apply sort_by_stable. intros a b E.
    unfold cmp. rewrite compare_traces_key, E.
    destruct (String.eqb _ "desc"); lia.
  - intros H1 H2 H3. apply (sort_by_sorted_id cmp).
    assert (Hz : forall a b, cmp a b = 0).
    { intros a b. unfold cmp. rewrite compare_traces_key. unfold sort_key.
      apply String.eqb_neq in H1, H2, H3. rewrite H1, H2, H3.
      now destruct (String.eqb _ "desc"). }
    clear -Hz. induction kept as [|x l IH]; constructor; [exact IH|].
    apply List.Forall_forall. intros y _. unfold cmp_le. rewrite Hz. lia.
Qed.

(** X4: the result of [AdvancedTraceSearch] is ordered by the chosen key,
    descending for [sortOrder = 'desc'] and ascending otherwise; traces with
    the same key keep their input order; a [sortBy] that is none of the three
    known values leaves the filtered traces in input order. *)
Theorem X4_sort_is_ordered_and_stable (now : Z) (traces : list TraceSummary)
    (f : AdvancedTraceSearch.Filters) :
  let result := AdvancedTraceSearch.filteredTraces now traces f in
  let key := sort_key (AdvancedTraceSearch.sortBy f) in
  StronglySorted (fun a b => key_order (AdvancedTraceSearch.sortOrder f) (key a) (key b))
    result
  /\ (forall k, List.filter (fun t => key t =? k) result
                = List.filter (fun t => key t =? k)
                    (List.filter (advanced_keep now f) traces))
  /\ (AdvancedTraceSearch.sortBy f <> "timestamp" ->
      AdvancedTraceSearch.sortBy f <> "duration" ->
      AdvancedTraceSearch.sortBy f <> "spans" ->
      result = List.filter (advanced_keep now f) traces).
Proof. apply advanced_ordered_stable. Qed.

Lemma X4_sort_is_ordered_and_stable_witness :
  AdvancedTraceSearch.filteredTraces 0 [summary 5 9; summary 7 8; summary 1 2]
    (advanced_sorted_by "name" "asc")
  = [summary 5 9; summary 7 8; summary 1 2].
Proof.
  apply (proj2 (proj2 (X4_sort_is_ordered_and_stable 0
                         [summary 5 9; summary 7 8; summary 1 2]
                         (advanced_sorted_by "name" "asc"))));
    discriminate.
Defined.

Lemma js_ge_Z (d m : Z) : js_ge (js_of_Z d) (JFin (inject_Z m)) = (m <=? d).
Proof.
  unfold js_ge, js_of_Z, js_le, Qle_bool. simpl. now rewrite !Z.mul_1_r.
Qed.

Lemma js_le_Z (d m : Z) : js_le (js_of_Z d) (JFin (inject_Z m)) = (d <=? m).
Proof.
  unfold js_of_Z, js_le, Qle_bool. simpl. now rewrite !Z.mul_1_r.
Qed.

(** X5: a duration preset keeps the traces whose duration lies between its
    two bounds, both included (only the lower one for the last preset); so a
    trace that lasts exactly 1000 ms, 5000 ms or 10000 ms passes two
    neighbouring presets. *)
Theorem X5_duration_preset_bounds (now : Z) (traces : list TraceSummary)
    (prev : AdvancedTraceSearch.Filters) (preset : AdvancedTraceSearchPanel.Preset)
    (t : TraceSummary) :
  In preset AdvancedTraceSearchPanel.DURATION_PRESETS ->
  (In t (AdvancedTraceSearch.filteredTraces now traces
           (AdvancedTraceSearchPanel.applyDurationPreset preset prev))
   <-> In t (AdvancedTraceSearch.filteredTraces now traces (without_bounds prev))
       /\ AdvancedTraceSearchPanel.min preset <= duration t
       /\ match AdvancedTraceSearchPanel.max preset with
          | Some m => duration t <= m
          | None => True
          end).
Proof.
  intros Hp.
  destruct (filtered_In now traces (simple_with_min "")
              (AdvancedTraceSearchPanel.applyDurationPreset preset prev) t) as [_ ->].
  destruct (filtered_In now traces (simple_with_min "")
              (without_bounds prev) t) as [_ ->].
  unfold advanced_keep. cbn [without_bounds AdvancedTraceSearch.searchTerm
    AdvancedTraceSearch.minDuration AdvancedTraceSearch.maxDuration
    AdvancedTraceSearch.status AdvancedTraceSearch.sessionId
    AdvancedTraceSearch.dateRange AdvancedTraceSearchPanel.applyDurationPreset].
  change (min_ok "" t) with true. change (max_ok "" t) with true.
  rewrite !andb_true_r.
  set (A := search_ok _ t). set (B := if negb _ then _ else true).
  set (C := session_ok _ t). set (D := if negb (_ =? "all")%string then _ <=? _ else true).
  assert (Hb : min_ok (toString_Z (AdvancedTraceSearchPanel.min preset)) t = true
               /\ max_ok match AdvancedTraceSearchPanel.max preset with
                         | Some m => toString_Z m
                         | None => ""
                         end t = true
               <-> AdvancedTraceSearchPanel.min preset <= duration t
                   /\ match AdvancedTraceSearchPanel.max preset with
                      | Some m => duration t <= m
                      | None => True
                      end).
  { assert (P0 : parseFloat (toString_Z 0) = JFin (inject_Z 0)) by reflexivity.
    assert (P1 : parseFloat (toString_Z 1000) = JFin (inject_Z 1000)) by reflexivity.
    assert (P2 : parseFloat (toString_Z 5000) = JFin (inject_Z 5000)) by reflexivity.
    assert (P3 : parseFloat (toString_Z 10000) = JFin (inject_Z 10000)) by reflexivity.
    assert (N0 : nonempty (toString_Z 0) = true) by reflexivity.
    assert (N1 : nonempty (toString_Z 1000) = true) by reflexivity.
    assert (N2 : nonempty (toString_Z 5000) = true) by reflexivity.
    assert (N3 : nonempty (toString_Z 10000) = true) by reflexivity.
    simpl in Hp. destruct Hp as [<-|[<-|[<-|[<-|[]]]]];
      cbn [AdvancedTraceSearchPanel.min AdvancedTraceSearchPanel.max];
      unfold min_ok, max_ok;
      rewrite ?N0, ?N1, ?N2, ?N3, ?P0, ?P1, ?P2, ?P3, ?js_ge_Z, ?js_le_Z, ?Z.leb_le;
      try (change (nonempty "") with false; cbv iota); tauto. }
  destruct A, B, C, D, (min_ok _ t), (max_ok _ t); simpl; intuition congruence.
Qed.

Lemma X5_duration_preset_bounds_witness :
  In (summary 0 1000)
     (AdvancedTraceSearch.filteredTraces 0 [summary 0 1000; summary 0 1001]
        (AdvancedTraceSearchPanel.applyDurationPreset
           (AdvancedTraceSearchPanel.mkPreset "Fast (< 1s)" 0 (Some 1000))
           (advanced_with_status "all"))).
Proof.
  apply (X5_duration_preset_bounds 0 [summary 0 1000; summary 0 1001]
           (advanced_with_status "all")
           (AdvancedTraceSearchPanel.mkPreset "Fast (< 1s)" 0 (Some 1000))
           (summary 0 1000)).
  - simpl. auto.
  - split; [simpl; auto|]. split; [vm_compute; discriminate|vm_compute; discriminate].
Defined.

(** ** Quick statistics and session ids *)


Lemma len_cons {A : Type} (x : A) (l : list A) : len (x :: l) = 1 + len l.
Proof. unfold len. simpl length. lia. Qed.

Lemma len_nil {A : Type} : len (@nil A) = 0.
Proof. reflexivity. Qed.




Lemma set_add_In (x y : string) (s : list string) :
  In y (set_add x s) <-> y = x \/ In y s.
Proof.
  induction s as [|z s IH]; simpl; [intuition|].
  destruct (String.eqb_spec x z) as [->|Hne]; simpl; [intuition|].
  rewrite IH. intuition.
Qed.

Lemma set_add_NoDup (x : string) (s : list string) :
  List.NoDup s -> List.NoDup (set_add x s).
Proof.
  induction s as [|z s IH]; simpl; intros Hnd.
  - repeat constructor. intros [].
  - destruct (String.eqb_spec x z) as [->|Hne]; [assumption|].
    apply List.NoDup_cons_iff in Hnd. destruct Hnd as [Hz Hnd].
    constructor; [|now apply IH].
    rewrite set_add_In. intros [->|Hin]; [congruence|contradiction].
Qed.

Lemma string_compare_trans (a : string) :
  forall b c, String.compare a b <> Gt -> String.compare b c <> Gt ->
              String.compare a c <> Gt.
Proof.
  induction a as [|x a IH]; intros b c Hab Hbc.
  - destruct c; simpl; discriminate.
  - destruct b as [|y b]; [now simpl in Hab|].
    destruct c as [|z c]; [now simpl in Hbc|].
    simpl in *. unfold Ascii.compare in *.
    destruct (N.compare_spec (N_of_ascii x) (N_of_ascii y)) as [Exy|Lxy|Gxy];
      destruct (N.compare_spec (N_of_ascii y) (N_of_ascii z)) as [Eyz|Lyz|Gyz];
      try congruence.
    + destruct (N.compare_spec (N_of_ascii x) (N_of_ascii z)) as [Exz|Lxz|Gxz];
        [now apply (IH b c)|discriminate|lia].
    + destruct (N.compare_spec (N_of_ascii x) (N_of_ascii z)); [lia|discriminate|lia].
    + destruct (N.compare_spec (N_of_ascii x) (N_of_ascii z)); [lia|discriminate|lia].
    + destruct (N.compare_spec (N_of_ascii x) (N_of_ascii z)); [lia|discriminate|lia].
Qed.

Lemma string_cmp_le (a b : string) : string_cmp a b <= 0 <-> String.leb a b = true.
Proof.
  unfold string_cmp, String.leb. destruct (String.compare a b); split; intros; try lia;
    try reflexivity; discriminate.
Qed.

Lemma string_cmp_trans (a b c : string) :
  string_cmp a b <= 0 -> string_cmp b c <= 0 -> string_cmp a c <= 0.
Proof.
  intros Hab Hbc.
  assert (H : String.compare a c <> Gt).
  { apply (string_compare_trans a b c).
    - unfold string_cmp in Hab. destruct (String.compare a b); [discriminate..|lia].
    - unfold string_cmp in Hbc. destruct (String.compare b c); [discriminate..|lia]. }
  unfold string_cmp. destruct (String.compare a c); [lia|lia|congruence].
Qed.

Lemma string_cmp_total (a b : string) : 0 < string_cmp a b -> string_cmp b a <= 0.
Proof.
  unfold string_cmp. rewrite (String.compare_antisym a b).
  destruct (String.compare b a); simpl; lia.
Qed.

(** X7: [sessionIds] lists every non-empty session id of the traces exactly
    once, in ascending string order. *)
Theorem X7_session_ids_distinct_sorted (traces : list TraceSummary) :
  List.NoDup (sessionIds traces)
  /\ (forall id, In id (sessionIds traces)
        <-> exists t, In t traces /\ truthy (session_id t) = Some id)
  /\ StronglySorted (fun a b => String.leb a b = true) (sessionIds traces).
Proof.
  unfold sessionIds.
  set (step := fun ids trace => match truthy (session_id trace) with
                                | Some id => set_add id ids
                                | None => ids
                                end).
  assert (Hfold : forall l acc,
            List.NoDup acc ->
            List.NoDup (fold_left step l acc)
            /\ forall id, In id (fold_left step l acc)
                 <-> In id acc \/ exists t, In t l /\ truthy (session_id t) = Some id).
  { induction l as [|t l IH]; intros acc Hnd; simpl.
    - split; [assumption|]. intros id. split; [auto|].
      intros [H|(t & [] & _)]. exact H.
    - assert (Hnd' : List.NoDup (step acc t)).
      { unfold step. destruct (truthy (session_id t)); [now apply set_add_NoDup|assumption]. }
      destruct (IH _ Hnd') as [H1 H2]. split; [exact H1|].
      intros id. rewrite H2. unfold step.
      destruct (truthy (session_id t)) as [k|] eqn:Hk.
      + rewrite set_add_In. split.
        * intros [[->|H]|(u & Hu & Hid)]; eauto.
        * intros [H|(u & [<-|Hu] & Hid)]; eauto.
          left. left. congruence.
      + split.
        * intros [H|(u & Hu & Hid)]; eauto.
        * intros [H|(u & [<-|Hu] & Hid)]; eauto. congruence. }
  destruct (Hfold traces [] (List.NoDup_nil _)) as [Hnd Hin].
  split; [|split].
  - eapply Permutation_NoDup; [symmetry; apply sort_by_perm|exact Hnd].
  - intros id. split.
    + intros H. apply (Permutation_in _ (sort_by_perm _ _)) in H.
      apply Hin in H. now destruct H as [[]|H].
    + intros H. apply (Permutation_in _ (Permutation_sym (sort_by_perm _ _))).
      apply Hin. now right.
  - pose proof (sort_by_sorted string_cmp string_cmp_trans string_cmp_total
                  (fold_left step traces [])) as Hs.
    induction Hs as [|a l _ IH Ha]; constructor; [exact IH|].
    eapply List.Forall_impl; [|exact Ha]. intros b Hb. now apply string_cmp_le.
Qed.

(** ** Clearing the filters *)

(** X8: with the filters that [clearFilters] sets, [TraceSearch] returns the
    input as it is and shows no active filter, and [AdvancedTraceSearch]
    returns every trace of the input, newest first, traces with the same
    start keeping their input order. *)
Theorem X8_cleared_filters_keep_everything (now : Z) (traces : list TraceSummary) :
  TraceSearch.filteredTraces now traces TraceSearchPanel.clearFilters = traces
  /\ TraceSearchPanel.hasActiveFilters TraceSearchPanel.clearFilters = false
  /\ Permutation
       (AdvancedTraceSearch.filteredTraces now traces AdvancedTraceSearchPanel.clearFilters)
       traces
  /\ StronglySorted (fun a b => s_start_time b <= s_start_time a)
       (AdvancedTraceSearch.filteredTraces now traces AdvancedTraceSearchPanel.clearFilters)
  /\ (forall k,
        List.filter (fun t => s_start_time t =? k)
          (AdvancedTraceSearch.filteredTraces now traces
             AdvancedTraceSearchPanel.clearFilters)
        = List.filter (fun t => s_start_time t =? k) traces).
Proof.
  assert (Hkeep : List.filter (advanced_keep now AdvancedTraceSearchPanel.clearFilters) traces
                  = traces).
  { erewrite filter_ext; [apply filter_true|]. reflexivity. }
  split; [reflexivity|]. split; [reflexivity|].
  destruct (advanced_ordered_stable now traces AdvancedTraceSearchPanel.clearFilters)
    as (Hs & Hst & _).
  split; [|split].
  - rewrite advanced_as_filter, Hkeep. apply sort_by_perm.
  - exact Hs.
  - intros k. etransitivity; [exact (Hst k)|]. now rewrite Hkeep.
Qed.

(** ** Breakdowns *)

Import SpanAggregates.

Lemma total_insert (counts : gmap string Z) (k : string) (v : Z) :
  total (<[k := v]> counts) = total counts - default 0 (counts !! k) + v.
Proof.
  unfold total. set (f := fun (_ : string) (v acc : Z) => v + acc).
  assert (Hf : forall (j1 j2 : string) (z1 z2 y : Z), f j1 z1 (f j2 z2 y) = f j2 z2 (f j1 z1 y))
    by (intros; unfold f; lia).
  destruct (counts !! k) as [w|] eqn:Hk; simpl.
  - set (d := delete k counts).
    assert (Hd : d !! k = None) by apply lookup_delete_eq.
    assert (H1 : map_fold f 0 (<[k := v]> counts) = v + map_fold f 0 d).
    { rewrite <- (insert_delete_eq counts k v). fold d.
      now rewrite (map_fold_insert_L f 0 k v d) by (auto using Hf). }
    assert (H2 : map_fold f 0 counts = w + map_fold f 0 d).
    { rewrite <- (insert_id counts k w Hk) at 1.
      rewrite <- (insert_delete_eq counts k w). fold d.
      now rewrite (map_fold_insert_L f 0 k w d) by (auto using Hf). }
    lia.
  - rewrite (map_fold_insert_L f 0 k v counts) by (auto using Hf). unfold f. lia.
Qed.

Lemma count_keys_None (ks : list string) :
  fold_left (fun acc k => match acc with
                          | Some counts => count_up counts k
                          | None => None
                          end) ks None = None.
Proof. induction ks; simpl; auto. Qed.

Lemma count_keys_spec (ks : list string) :
  forall init,
    (forall k, In k ks -> is_proto_name k = false) ->
    exists counts, count_keys ks init = Some counts
      /\ (forall k, default 0 (counts !! k)
                    = default 0 (init !! k) + len (List.filter (String.eqb k) ks))
      /\ (forall k, is_Some (counts !! k) <-> is_Some (init !! k) \/ In k ks)
      /\ total counts = total init + len ks.
Proof.
  unfold count_keys. induction ks as [|x ks IH]; intros init Hok; cbn [fold_left].
  - exists init. split; [reflexivity|]. split; [intros k; unfold len; simpl; lia|].
    split; [intros k; simpl; tauto|unfold len; simpl; lia].
  - unfold count_up at 2. rewrite (Hok x) by now left.
    set (init' := <[x := default 0 (init !! x) + 1]> init).
    destruct (IH init') as (counts & Hc & Hget & Hsome & Htot).
    { intros k Hk. apply Hok. now right. }
    exists counts. split; [exact Hc|]. split; [|split].
    + intros k. rewrite Hget. cbn [List.filter]. unfold init'.
      destruct (String.eqb_spec k x) as [->|Hne].
      * rewrite lookup_insert_eq, len_cons. simpl. lia.
      * rewrite lookup_insert_ne by congruence. lia.
    + intros k. rewrite Hsome. unfold init'. simpl.
      destruct (String.eqb_spec k x) as [->|Hne].
      * rewrite lookup_insert_eq. split; [auto|]. intros _. left. now eexists.
      * rewrite lookup_insert_ne by congruence. intuition congruence.
    + rewrite Htot. unfold init'. rewrite total_insert, len_cons. lia.
Qed.

Lemma count_keys_proto (ks : list string) (init : gmap string Z) (k : string) :
  In k ks -> is_proto_name k = true -> count_keys ks init = None.
Proof.
  unfold count_keys. revert init. induction ks as [|x ks IH]; intros init Hin Hp; [destruct Hin|].
  cbn [fold_left]. unfold count_up at 2.
  destruct (is_proto_name x) eqn:Hx; [apply count_keys_None|].
  destruct Hin as [->|Hin]; [congruence|]. now apply IH.
Qed.

Lemma fold_left_map_keys {A : Type} (f : A -> string) (l : list A) (acc : option (gmap string Z)) :
  fold_left (fun acc a => match acc with
                          | Some counts => count_up counts (f a)
                          | None => None
                          end) l acc
  = fold_left (fun acc k => match acc with
                            | Some counts => count_up counts k
                            | None => None
                            end) (map f l) acc.
Proof. revert acc. induction l as [|a l IH]; intros acc; simpl; auto. Qed.

Lemma filter_map_len {A : Type} (f : A -> string) (k : string) (l : list A) :
  len (List.filter (String.eqb k) (map f l))
  = len (List.filter (fun a => String.eqb (f a) k) l).
Proof.
  induction l as [|a l IH]; [reflexivity|]. cbn [map List.filter].
  rewrite (String.eqb_sym k (f a)).
  destruct (String.eqb (f a) k); rewrite ?len_cons; lia.
Qed.

(** X9: when there is a trace summary and no status code names a member of
    [Object.prototype], [statusBreakdown] holds for every status code the
    number of spans with that code: codes that occur and only they are keys,
    the counters add up to the number of spans, and the counter of ['ERROR']
    is the error count of [errorRate]. Without trace summaries the breakdown
    is empty whatever the spans are. *)
Theorem X9_status_breakdown_counts (t : TraceSummary) (ts : list TraceSummary)
    (spans : list TraceSpan) :
  (forall s, In s spans -> is_proto_name (status_code s) = false) ->
  statusBreakdown [] spans = Some ∅
  /\ exists counts,
       statusBreakdown (t :: ts) spans = Some counts
       /\ (forall k, default 0 (counts !! k)
                     = len (List.filter (fun s => String.eqb (status_code s) k) spans))
       /\ (forall k, is_Some (counts !! k) <-> exists s, In s spans /\ status_code s = k)
       /\ total counts = len spans
       /\ default 0 (counts !! "ERROR") = errorCount spans.
Proof.
  intros Hok. split; [reflexivity|].
  destruct (count_keys_spec (map status_code spans) ∅) as (counts & Hc & Hget & Hsome & Htot).
  { intros k Hk. apply List.in_map_iff in Hk. destruct Hk as (s & <- & Hs). now apply Hok. }
  exists counts. split.
  - unfold statusBreakdown. rewrite fold_left_map_keys. exact Hc.
  - assert (Hcount : forall k, default 0 (counts !! k)
                       = len (List.filter (fun s => String.eqb (status_code s) k) spans)).
    { intros k. rewrite Hget, lookup_empty, filter_map_len. simpl. lia. }
    split; [exact Hcount|]. split; [|split].
    + intros k. rewrite Hsome, lookup_empty, List.in_map_iff. split.
      * intros [[? ?]|(s & Hs & Hin)]; [discriminate|]. now exists s.
      * intros (s & Hin & Hs). right. now exists s.
    + rewrite Htot. unfold total. rewrite map_fold_empty. unfold len.
      rewrite length_map. lia.
    + apply Hcount.
Qed.

Lemma X9_status_breakdown_counts_witness :
  exists counts,
    statusBreakdown [summary 0 1] [error_span; instant_span; error_span] = Some counts
    /\ total counts = 3.
Proof.
  destruct (X9_status_breakdown_counts (summary 0 1) []
              [error_span; instant_span; error_span]) as (_ & counts & Hc & _ & _ & Ht & _).
  - intros s [<-|[<-|[<-|[]]]]; reflexivity.
  - exists counts. split; [exact Hc|exact Ht].
Defined.

Lemma model_fold (h : heap) (spans : list TraceSpan) :
  forall kvs acc,
    mapM (read_attrs h) spans = Some kvs ->
    fold_left (fun acc span =>
                 match acc, read_attrs h span with
                 | Some counts, Some kv =>
                     match model_of kv with
                     | Some (AStr model) => count_up counts model
                     | _ => Some counts
                     end
                 | _, _ => None
                 end) spans (Some acc)
    = count_keys (omap model_key kvs) acc.
Proof.
  unfold count_keys.
  induction spans as [|s spans IH]; intros kvs acc Hm; simpl in Hm.
  - injection Hm as <-. reflexivity.
  - destruct (read_attrs h s) as [kv|] eqn:Hkv; [|discriminate].
    destruct (mapM (read_attrs h) spans) as [kvs'|] eqn:Hkvs; [|discriminate].
    injection Hm as <-. cbn [fold_left omap list_omap]. rewrite Hkv.
    unfold model_key at 1.
    destruct (model_of kv) as [[z|model|b|]|]; try (now apply IH).
    cbn [fold_left]. destruct (count_up acc model) as [acc'|]; [now apply IH|].
    rewrite count_keys_None.
    clear. induction spans as [|s' spans IHs]; simpl; [reflexivity|exact IHs].
Qed.

Lemma omap_filter_len (kvs : list (list (string * attr_value))) (k : string) :
  len (List.filter (String.eqb k) (omap model_key kvs))
  = len (List.filter (fun kv => bool_decide (model_key kv = Some k)) kvs).
Proof.
  induction kvs as [|kv kvs IH]; [reflexivity|].
  cbn [omap list_omap List.filter].
  destruct (model_key kv) as [m|] eqn:Hm.
  - cbn [List.filter]. destruct (String.eqb_spec k m) as [->|Hne].
    + rewrite bool_decide_eq_true_2 by reflexivity. rewrite !len_cons. lia.
    + rewrite bool_decide_eq_false_2 by congruence. exact IH.
  - rewrite bool_decide_eq_false_2 by discriminate. exact IH.
Qed.

(** X10: when there is a trace summary, [modelBreakdown] counts every span
    under the first truthy value of its attributes ['model.name'] and
    ['model'] when that value is a string, under ['unknown'] when neither is
    truthy, and not at all when the value is truthy and not a string; so the
    counters add up to at most the number of spans. *)
Theorem X10_model_breakdown_counts (h : heap) (t : TraceSummary) (ts : list TraceSummary)
    (spans : list TraceSpan) (kvs : list (list (string * attr_value))) :
  mapM (read_attrs h) spans = Some kvs ->
  (forall kv m, In kv kvs -> model_key kv = Some m -> is_proto_name m = false) ->
  exists counts,
    modelBreakdown h (t :: ts) spans = Some counts
    /\ (forall k, default 0 (counts !! k)
                  = len (List.filter (fun kv => bool_decide (model_key kv = Some k)) kvs))
    /\ total counts <= len spans
    /\ (forall kv, attr_truthy (attr_get kv "model.name") = false ->
                   attr_truthy (attr_get kv "model") = false ->
                   model_key kv = Some "unknown")
    /\ (forall kv z, attr_get kv "model.name" = Some (ANum z) -> z <> 0 ->
                     model_key kv = None).
Proof.
  intros Hm Hok.
  destruct (count_keys_spec (omap model_key kvs) ∅) as (counts & Hc & Hget & _ & Htot).
  { intros k Hk. apply list_elem_of_In, list_elem_of_omap in Hk.
    destruct Hk as (kv & Hkv & Hmk). apply list_elem_of_In in Hkv. eapply Hok; eauto. }
  exists counts. split; [|split; [|split; [|split]]].
  - unfold modelBreakdown. now rewrite (model_fold h spans kvs ∅ Hm).
  - intros k. rewrite Hget, lookup_empty, omap_filter_len. simpl. lia.
  - rewrite Htot. unfold total. rewrite map_fold_empty.
    assert (Hl : (length (omap model_key kvs) <= length kvs)%nat).
    { clear. induction kvs as [|kv kvs IH]; [simpl; lia|].
      cbn [omap list_omap]. destruct (model_key kv); cbn [length]; lia. }
    apply mapM_length in Hm. unfold len. lia.
  - intros kv H1 H2. unfold model_key, model_of, js_or. now rewrite H1, H2.
  - intros kv z Hz Hne. unfold model_key, model_of, js_or. rewrite Hz. simpl.
    now destruct (Z.eqb_spec z 0).
Qed.

Lemma X10_model_breakdown_counts_witness :
  exists counts,
    modelBreakdown [OAttrs [("model", AStr "gpt-4")]; OEvents []] [summary 0 1]
      [error_span; instant_span] = Some counts
    /\ default 0 (counts !! "gpt-4") = 2.
Proof.
  destruct (X10_model_breakdown_counts [OAttrs [("model", AStr "gpt-4")]; OEvents []]
              (summary 0 1) [] [error_span; instant_span]
              [[("model", AStr "gpt-4")]; [("model", AStr "gpt-4")]] eq_refl)
    as (counts & Hc & Hget & _).
  - intros kv m [<-|[<-|[]]] [= <-]; reflexivity.
  - exists counts. split; [exact Hc|]. now rewrite Hget.
Defined.

(** ** Latency figures *)

Lemma max_list_ge (x : Z) (xs : list Z) :
  x <= max_list x xs /\ forall y, In y xs -> y <= max_list x xs.
Proof.
  unfold max_list. revert x. induction xs as [|z xs IH]; intros x; simpl.
  - split; [lia|tauto].
  - destruct (IH (Z.max x z)) as [H1 H2]. split; [lia|].
    intros y [<-|Hy]; [lia|now apply H2].
Qed.

Lemma sorted_nth_le (l : list Z) :
  StronglySorted Z.le l ->
  forall i j, (i <= j < length l)%nat -> nth i l 0 <= nth j l 0.
Proof.
  induction 1 as [|x l Hs IH Hx]; intros i j Hij; simpl in Hij; [lia|].
  destruct i as [|i], j as [|j]; simpl; try lia.
  - rewrite List.Forall_forall in Hx. apply Hx, nth_In. lia.
  - apply IH. lia.
Qed.

Lemma sum_Z_bounded (l : list Z) (hi : Z) :
  (forall y, In y l -> y <= hi) -> sum_Z l <= hi * len l.
Proof.
  unfold sum_Z.
  assert (H : forall (xs : list Z) a, fold_left Z.add xs a = a + fold_left Z.add xs 0).
  { induction xs as [|x xs IHx]; intros a; cbn [fold_left]; [lia|].
    rewrite (IHx (a + x)), (IHx (0 + x)). lia. }
  induction l as [|x l IH]; intros Hb; [unfold len; simpl; lia|].
  cbn [fold_left]. rewrite H, len_cons.
  assert (x <= hi) by (apply Hb; now left).
  assert (fold_left Z.add l 0 <= hi * len l) by (apply IH; intros y Hy; apply Hb; now right).
  lia.
Qed.

(** X11: for a non-empty list of trace summaries the latency figures of
    [ResponsiveMetricCards] are ordered: p95 is at most p99, p99 is at most
    the slowest trace, and the average is at most the slowest trace; p95 and
    p99 are durations of traces of the input. *)
Theorem X11_latency_figures_ordered (t : TraceSummary) (ts : list TraceSummary)
    (spans : list TraceSpan) :
  let m := ResponsiveMetricCards.metrics (t :: ts) spans in
  ResponsiveMetricCards.p95Latency m <= ResponsiveMetricCards.p99Latency m
  /\ ResponsiveMetricCards.p99Latency m <= ResponsiveMetricCards.slowestTrace m
  /\ (ResponsiveMetricCards.avgLatency m
      <= inject_Z (ResponsiveMetricCards.slowestTrace m))%Q
  /\ In (ResponsiveMetricCards.p95Latency m) (map duration (t :: ts))
  /\ In (ResponsiveMetricCards.p99Latency m) (map duration (t :: ts)).
Proof.
  cbv zeta. set (traces := t :: ts).
  set (lat := map duration traces).
  set (sorted := sort_by (fun a b => a - b) lat).
  assert (Hss : StronglySorted Z.le sorted).
  { pose proof (sort_by_sorted (fun a b : Z => a - b)) as H.
    specialize (H ltac:(intros; lia) ltac:(intros; lia) lat).
    induction H as [|a l _ IH Ha]; constructor; [exact IH|].
    eapply List.Forall_impl; [|exact Ha]. unfold cmp_le. intros; lia. }
  assert (Hlen : len sorted = len traces).
  { unfold len, sorted, lat. now rewrite sort_by_length, length_map. }
  assert (Hpos : 0 < len traces) by (unfold traces; rewrite len_cons; unfold len; lia).
  pose proof (p95Index_range _ Hpos) as H95.
  pose proof (p99Index_range _ Hpos) as H99.
  assert (Hle : p95Index (len traces) <= p99Index (len traces)).
  { unfold p95Index, p99Index. apply Z.div_le_mono; lia. }
  assert (Hp95 : ResponsiveMetricCards.p95Latency (ResponsiveMetricCards.metrics traces spans)
                 = nth (Z.to_nat (p95Index (len traces))) sorted 0).
  { unfold traces at 1. cbn [ResponsiveMetricCards.metrics ResponsiveMetricCards.p95Latency].
    fold traces lat sorted. rewrite Hlen. apply at_or_zero_nth. lia. }
  assert (Hp99 : ResponsiveMetricCards.p99Latency (ResponsiveMetricCards.metrics traces spans)
                 = nth (Z.to_nat (p99Index (len traces))) sorted 0).
  { unfold traces at 1. cbn [ResponsiveMetricCards.metrics ResponsiveMetricCards.p99Latency].
    fold traces lat sorted. rewrite Hlen. apply at_or_zero_nth. lia. }
  assert (Hslow : ResponsiveMetricCards.slowestTrace (ResponsiveMetricCards.metrics traces spans)
                  = max_list (duration t) (map duration ts)) by reflexivity.
  assert (Havg : ResponsiveMetricCards.avgLatency (ResponsiveMetricCards.metrics traces spans)
                 = (inject_Z (sum_Z lat) / inject_Z (len lat))%Q) by reflexivity.
  assert (Hmax : forall y, In y lat -> y <= max_list (duration t) (map duration ts)).
  { destruct (max_list_ge (duration t) (map duration ts)) as [H1 H2].
    intros y [<-|Hy]; [exact H1|now apply H2]. }
  assert (Hnth : forall i, 0 <= i < len traces -> In (nth (Z.to_nat i) sorted 0) lat).
  { intros i Hi. apply (Permutation_in _ (sort_by_perm (fun a b => a - b) lat)).
    apply nth_In. fold sorted. unfold len in *. lia. }
  rewrite Hp95, Hp99, Hslow, Havg.
  split; [|split; [|split; [|split]]].
  - apply sorted_nth_le; [exact Hss|]. unfold len in *. lia.
  - apply Hmax, Hnth. lia.
  - assert (Hll : len lat = len traces) by (unfold len, lat; now rewrite length_map).
    rewrite Hll. apply Qle_shift_div_r.
    + unfold Qlt. simpl. lia.
    + rewrite <- inject_Z_mult, <- Zle_Qle. rewrite <- Hll. now apply sum_Z_bounded.
  - apply Hnth. lia.
  - apply Hnth. lia.
Qed.

Lemma pow2_51 : (pow2 (-51) == 4 * pow2 (-53))%Q.
Proof. reflexivity. Qed.

Lemma pow2_53_small : (pow2 (-53) <= 1 # 2)%Q.
Proof. unfold Qle. vm_compute. discriminate. Qed.

(** Two roundings in the normal range. *)
Lemma round64_twice (x c : Q) (r1 : Q) :
  (pow2 (-53) <= x)%Q -> (x <= pow2 53)%Q -> (1 <= c)%Q -> (c <= pow2 53)%Q ->
  round64 x = JFin r1 ->
  exists r2,
    round64 (r1 * c) = JFin r2
    /\ (x * c * (1 - pow2 (-51)) <= r2)%Q /\ (r2 <= x * c * (1 + pow2 (-51)))%Q.
Proof.
  intros Hx1 Hx2 Hc1 Hc2 Hr1.
  pose proof (pow2_pos (-53)) as Hu. pose proof pow2_53_small as Hu2.
  pose proof (pow2_le (-1022) (-54) ltac:(lia)) as Hmin.
  pose proof (pow2_le 107 1023 ltac:(lia)) as Hmax.
  assert (E54 : (pow2 (-53) == 2 * pow2 (-54))%Q) by reflexivity.
  assert (E107 : (pow2 107 == 2 * pow2 53 * pow2 53)%Q) by reflexivity.
  pose proof (pow2_pos (-54)) as H54. pose proof (pow2_pos 53) as H53.
  destruct (round64_rel x) as (r1' & Hr1' & L1 & U1); [lra|nra|].
  assert (r1' = r1) by congruence. subst r1'.
  set (u := pow2 (-53)) in *.
  assert (Hr1pos : (0 < r1)%Q) by nra.
  destruct (round64_rel (r1 * c)) as (r2 & Hr2 & L2 & U2).
  - assert (x * (1 - u) <= r1 * c)%Q by nra. nra.
  - assert (r1 * c <= x * (1 + u) * c)%Q by nra.
    assert (x * (1 + u) <= 2 * pow2 53)%Q by nra.
    assert (x * (1 + u) * c <= 2 * pow2 53 * pow2 53)%Q by nra. lra.
  - exists r2. split; [exact Hr2|]. rewrite pow2_51. fold u. fold u in L2, U2.
    assert (Hxc : (0 < x * c)%Q) by nra.
    assert (A1 : (x * c * (1 - u) <= r1 * c)%Q) by nra.
    assert (A2 : (r1 * c <= x * c * (1 + u))%Q) by nra.
    assert (Hu0 : (0 <= 1 - u)%Q) by lra.
    assert (Hu1 : (0 <= 1 + u)%Q) by lra.
    assert (M1 : (0 <= x * c * u)%Q) by nra.
    assert (M2 : (0 <= x * c * u * u)%Q) by nra.
    assert (M3 : (x * c * u * u <= x * c * u)%Q) by nra.
    split.
    + assert (B1 : (x * c * (1 - u) * (1 - u) <= r1 * c * (1 - u))%Q)
        by (apply Qmult_le_compat_r; assumption).
      lra.
    + assert (B2 : (r1 * c * (1 + u) <= x * c * (1 + u) * (1 + u))%Q)
        by (apply Qmult_le_compat_r; assumption).
      lra.
Qed.

(** X12: the hourly throughput of a non-empty list of trace summaries is the
    exact quotient [n * 3600000 / max(timeSpan, 3600000)] up to the two
    binary64 roundings of the program (a relative error of at most [2^-51]):
    it is positive, at most [n * (1 + 2^-51)], and at least [n * (1 - 2^-51)]
    whenever the first trace starts at most one hour after the last one. It
    need not be [n]: for two traces within one hour it is [2 - 2^-52]. *)
Theorem X12_throughput_bounds (t : TraceSummary) (ts : list TraceSummary)
    (spans : list TraceSpan) :
  let traces := t :: ts in
  let throughput := ResponsiveMetricCards.throughput (ResponsiveMetricCards.metrics traces spans) in
  let exact := (inject_Z (len traces) * 3600000
                / inject_Z (Z.max (timeSpan traces) 3600000))%Q in
  TraceMetrics.throughput (TraceMetrics.metrics traces spans) = throughput
  /\ (len traces < 2 ^ 53 -> timeSpan traces < 2 ^ 53 ->
      exists q,
        throughput = JFin q
        /\ (exact * (1 - pow2 (-51)) <= q)%Q /\ (q <= exact * (1 + pow2 (-51)))%Q
        /\ (0 < q)%Q
        /\ (q <= inject_Z (len traces) * (1 + pow2 (-51)))%Q
        /\ (timeSpan traces <= 3600000 ->
            (inject_Z (len traces) * (1 - pow2 (-51)) <= q)%Q))
  /\ (exists q, throughput_of [summary 0 10; summary 500 600] = JFin q
                /\ (q == 2 - pow2 (-52))%Q).
Proof.
  cbv zeta. set (traces := t :: ts).
  change (ResponsiveMetricCards.throughput (ResponsiveMetricCards.metrics traces spans))
    with (throughput_of traces).
  split; [reflexivity|]. split.
  - intros Hlen Hspan. unfold throughput_of.
    assert (Hn : 0 < len traces) by (unfold traces; rewrite len_cons; unfold len; lia).
    set (n := len traces) in *. set (m := Z.max (timeSpan traces) 3600000).
    assert (Hm : 3600000 <= m) by (unfold m; lia).
    assert (Hm' : m < 2 ^ 53) by (unfold m; lia).
    assert (Qn1 : (1 <= inject_Z n)%Q).
    { change 1%Q with (inject_Z 1). rewrite <- Zle_Qle. lia. }
    assert (Qn2 : (inject_Z n <= pow2 53)%Q).
    { rewrite (pow2_int 53) by lia. rewrite <- Zle_Qle. lia. }
    assert (Qm1 : (3600000 <= inject_Z m)%Q).
    { change 3600000%Q with (inject_Z 3600000). rewrite <- Zle_Qle. lia. }
    assert (Qm2 : (inject_Z m <= pow2 53)%Q).
    { rewrite (pow2_int 53) by lia. rewrite <- Zle_Qle. lia. }
    pose proof (pow2_pos (-53)) as Hu. pose proof (pow2_pos 53) as H53.
    assert (Einv : (pow2 (-53) * pow2 53 == 1)%Q) by reflexivity.
    set (x := (inject_Z n / inject_Z m)%Q).
    assert (Hxm : (x * inject_Z m == inject_Z n)%Q) by (unfold x; field; lra).
    assert (Hx1 : (pow2 (-53) <= x)%Q).
    { assert (pow2 (-53) * inject_Z m <= x * inject_Z m)%Q by nra. nra. }
    assert (Hx2 : (x <= pow2 53)%Q) by nra.
    assert (Hdiv : f64_div (js_of_Z n) (js_of_Z m) = round64 x).
    { unfold f64_div, js_of_Z, js_div, q_zero. simpl Qnum.
      destruct (Z.eqb_spec m 0); [lia|]. reflexivity. }
    destruct (round64_rel x) as (r1 & Hr1 & _).
    { pose proof (pow2_le (-1022) (-53) ltac:(lia)). lra. }
    { pose proof (pow2_le 53 1023 ltac:(lia)). lra. }
    destruct (round64_twice x 3600000 r1 Hx1 Hx2) as (q & Hq & L & U); auto.
    { lra. }
    { rewrite (pow2_int 53) by lia. unfold Qle. vm_compute. discriminate. }
    exists q. rewrite Hdiv, Hr1.
    split; [exact Hq|].
    assert (Hex : (inject_Z n * 3600000 / inject_Z m == x * 3600000)%Q)
      by (unfold x; field; lra).
    rewrite Hex.
    pose proof (pow2_pos (-51)) as H51.
    assert (H51' : (pow2 (-51) <= 1 # 2)%Q) by (unfold Qle; vm_compute; discriminate).
    assert (Hxn : (x * 3600000 <= inject_Z n)%Q) by nra.
    assert (Hxpos : (0 < x)%Q) by lra.
    split; [exact L|]. split; [exact U|]. split; [nra|]. split; [nra|].
    intros Hs. assert (Hm36 : m = 3600000) by (unfold m; lia).
    assert (Hxe : (x * 3600000 == inject_Z n)%Q).
    { rewrite <- Hxm, Hm36. reflexivity. }
    nra.
  - eexists. split; [vm_compute; reflexivity|]. vm_compute. reflexivity.
Qed.

Lemma X12_throughput_bounds_witness :
  exists q,
    ResponsiveMetricCards.throughput
      (ResponsiveMetricCards.metrics [summary 0 10; summary 500 600] []) = JFin q
    /\ (0 < q)%Q /\ (q <= 2 * (1 + pow2 (-51)))%Q.
Proof.
  destruct (X12_throughput_bounds (summary 0 10) [summary 500 600] [])
    as (_ & H & _).
  destruct H as (q & Hq & _ & _ & Hpos & Hle & _).
  - vm_compute. reflexivity.
  - vm_compute. reflexivity.
  - exists q. split; [exact Hq|]. split; [exact Hpos|exact Hle].
Defined.

(** ** Flattening *)

Lemma flat_map_sublist {A B : Type} (f g : A -> list B) (l : list A) :
  List.Forall (fun x => sublist (f x) (g x)) l -> sublist (flat_map f l) (flat_map g l).
Proof.
  induction 1 as [|x l Hx _ IH]; simpl; [constructor|]. now apply sublist_app.
Qed.

Lemma flatten_span_all (n : SpanNode) : Timeline.flatten_span ∅ n = nodes_of n.
Proof.
  induction n as [r ts kids IH] using SpanNode_forall_ind. simpl. f_equal.
  destruct (decide (span_id (ts_span ts) ∈ (∅ : gset string))) as [Hin|_]; [set_solver|].
  now apply flat_map_Forall_ext.
Qed.

Lemma flatten_span_mono (c c' : gset string) (n : SpanNode) :
  c ⊆ c' -> sublist (Timeline.flatten_span c' n) (Timeline.flatten_span c n).
Proof.
  intros Hsub. induction n as [r ts kids IH] using SpanNode_forall_ind. simpl.
  apply sublist_skip.
  destruct (decide (span_id (ts_span ts) ∈ c')) as [Hin'|Hout'];
    [apply sublist_nil_l|].
  destruct (decide (span_id (ts_span ts) ∈ c)) as [Hin|Hout]; [set_solver|].
  now apply flat_map_sublist.
Qed.

Lemma flatten_span_head (c : gset string) (n : SpanNode) :
  exists rest, Timeline.flatten_span c n = n :: rest.
Proof. destruct n. simpl. now eexists. Qed.

(** X13: with nothing collapsed the flattened sequence is the whole forest
    in pre-order; collapsing more spans only removes rows (the order of the
    remaining rows is kept); the roots are rows whatever is collapsed, and
    they are the only rows when every root is collapsed. *)
Theorem X13_flatten_extremes_and_monotone (forest : list SpanNode) (c c' : gset string) :
  Timeline.flatten ∅ forest = forest_nodes forest
  /\ (c ⊆ c' -> sublist (Timeline.flatten c' forest) (Timeline.flatten c forest))
  /\ sublist forest (Timeline.flatten c forest)
  /\ sublist (Timeline.flatten c forest) (forest_nodes forest)
  /\ ((forall n, In n forest -> node_id n ∈ c) -> Timeline.flatten c forest = forest).
Proof.
  unfold Timeline.flatten, forest_nodes.
  split; [|split; [|split; [|split]]].
  - apply flat_map_Forall_ext, List.Forall_forall. intros n _. apply flatten_span_all.
  - intros Hsub. apply flat_map_sublist, List.Forall_forall. intros n _.
    now apply flatten_span_mono.
  - induction forest as [|n forest IH]; simpl; [constructor|].
    destruct (flatten_span_head c n) as (rest & ->). simpl.
    apply sublist_skip. etransitivity; [exact IH|]. apply sublist_inserts_l. reflexivity.
  - apply flat_map_sublist, List.Forall_forall. intros n _.
    rewrite <- flatten_span_all. apply flatten_span_mono. set_solver.
  - intros Hall. induction forest as [|n forest IH]; simpl; [reflexivity|].
    rewrite IH by (intros n' Hn'; apply Hall; now right).
    assert (Hn : node_id n ∈ c) by (apply Hall; now left).
    destruct n as [r ts kids]. simpl.
    unfold node_id in Hn. simpl in Hn.
    now destruct (decide (span_id (ts_span ts) ∈ c)).
Qed.

Lemma X13_flatten_extremes_and_monotone_witness :
  Timeline.flatten {["R"]} sample_forest = sample_forest
  /\ sublist (Timeline.flatten {["C1"]} sample_forest) (Timeline.flatten ∅ sample_forest).
Proof.
  destruct (X13_flatten_extremes_and_monotone sample_forest ∅ {["C1"]})
    as (_ & Hmono & _).
  destruct (X13_flatten_extremes_and_monotone sample_forest {["R"]} ∅)
    as (_ & _ & _ & _ & Hall).
  split.
  - apply Hall. intros n [<-|[]]. unfold node_id. simpl. set_solver.
  - apply Hmono. set_solver.
Defined.

(** ** Rows of the canvas *)

Import TimelineCanvas.

Lemma rowIndex_row (i : Z) (y : Q) :
  (inject_Z (row_y i) <= y)%Q -> (y < inject_Z (row_y i + rowHeight))%Q ->
  rowIndex y = i.
Proof.
  intros Hlo Hhi. unfold rowIndex.
  assert (Hd : (0 < inject_Z rowHeight)%Q) by reflexivity.
  assert (H1 : (inject_Z i <= (y - 25) / inject_Z rowHeight)%Q).
  { apply Qle_shift_div_l; [exact Hd|].
    unfold row_y in Hlo. rewrite inject_Z_plus, inject_Z_mult in Hlo.
    apply (Qplus_le_l _ _ 25). ring_simplify.
    eapply Qle_trans; [|exact Hlo]. apply Qle_lteq. right. ring. }
  assert (H2 : ((y - 25) / inject_Z rowHeight < inject_Z (i + 1))%Q).
  { apply Qlt_shift_div_r; [exact Hd|].
    unfold row_y in Hhi. rewrite !inject_Z_plus, inject_Z_mult in *.
    apply (Qplus_lt_l _ _ 25). ring_simplify.
    eapply Qlt_le_trans; [exact Hhi|]. apply Qle_lteq. right. ring. }
  pose proof (Qfloor_le ((y - 25) / inject_Z rowHeight)) as F1.
  pose proof (Qlt_floor ((y - 25) / inject_Z rowHeight)) as F2.
  set (q := ((y - 25) / inject_Z rowHeight)%Q) in *.
  assert (A : (inject_Z (Qfloor q) < inject_Z (i + 1))%Q)
    by (eapply Qle_lt_trans; eassumption).
  assert (B : (inject_Z i < inject_Z (Qfloor q + 1))%Q)
    by (eapply Qle_lt_trans; eassumption).
  rewrite <- Zlt_Qlt in A, B. lia.
Qed.

(** X14: the hit test inverts the row layout: a pointer anywhere inside the
    32-pixel band in which row [i] of the flattened sequence is drawn hovers
    the span of that row, and a click there acts on that span: it toggles the
    span in the collapsed set when the span has children and the pointer is
    within the 16 pixels of the expand icon (from [depth * 16 + 8]), and
    selects the span otherwise, so a span without children is never
    collapsed by a click; above the first row and below the last one nothing
    is hovered, and a click does nothing. *)
Theorem X14_hit_test_inverts_rows (flattenedSpans : list SpanNode)
    (collapsedSpans : gset string) (x y : Q) :
  (forall i span,
      nth_error flattenedSpans i = Some span ->
      (inject_Z (row_y (Z.of_nat i)) <= y)%Q ->
      (y < inject_Z (row_y (Z.of_nat i) + rowHeight))%Q ->
      handleCanvasMouseMove flattenedSpans y = Some (node_id span)
      /\ let indent := inject_Z (Z.of_nat (node_depth span) * 16 + 8) in
         (children (node_ts span) <> [] -> (indent <= x)%Q -> (x <= indent + 16)%Q ->
          handleCanvasClick flattenedSpans collapsedSpans x y
          = Collapse (Timeline.toggleCollapse collapsedSpans (node_id span)))
         /\ (children (node_ts span) = [] \/ (x < indent)%Q \/ (indent + 16 < x)%Q ->
             handleCanvasClick flattenedSpans collapsedSpans x y = Select span))
  /\ ((y < 25)%Q \/ (inject_Z (row_y (len flattenedSpans)) <= y)%Q ->
      handleCanvasMouseMove flattenedSpans y = None
      /\ handleCanvasClick flattenedSpans collapsedSpans x y = Nothing).
Proof.
  split.
  - intros i span Hnth Hlo Hhi.
    assert (Hi : (i < length flattenedSpans)%nat) by (apply nth_error_Some; congruence).
    assert (Hspan : span_at flattenedSpans (rowIndex y) = Some span).
    { rewrite (rowIndex_row (Z.of_nat i) y Hlo Hhi). unfold span_at, len.
      destruct (Z.leb_spec 0 (Z.of_nat i)); [|lia].
      destruct (Z.ltb_spec (Z.of_nat i) (Z.of_nat (length flattenedSpans))); [|lia].
      simpl. now rewrite Nat2Z.id. }
    unfold handleCanvasMouseMove, handleCanvasClick. rewrite Hspan.
    split; [reflexivity|]. cbv zeta.
    set (indent := inject_Z (Z.of_nat (node_depth span) * 16 + 8)).
    split.
    + intros Hkids H1 H2.
      assert (Hlen : (length (children (node_ts span)) =? 0)%nat = false).
      { apply Nat.eqb_neq. destruct (children (node_ts span)); [congruence|discriminate]. }
      rewrite Hlen. apply Qle_bool_iff in H1, H2. now rewrite H1, H2.
    + intros [Hleaf|[Hl|Hr]].
      * now rewrite Hleaf.
      * assert (E : Qle_bool indent x = false).
        { destruct (Qle_bool indent x) eqn:E; [|reflexivity].
          apply Qle_bool_iff in E. lra. }
        rewrite E. now rewrite andb_false_r.
      * assert (E : Qle_bool x (indent + 16) = false).
        { destruct (Qle_bool x (indent + 16)) eqn:E; [|reflexivity].
          apply Qle_bool_iff in E. lra. }
        rewrite E. now rewrite andb_false_r.
  - intros Hout.
    assert (Hspan : span_at flattenedSpans (rowIndex y) = None).
    { unfold span_at.
      destruct (Z.leb_spec 0 (rowIndex y)) as [H0|]; [|reflexivity].
      destruct (Z.ltb_spec (rowIndex y) (len flattenedSpans)) as [H1|]; [|reflexivity].
      exfalso. unfold rowIndex in *.
      set (q := ((y - 25) / inject_Z rowHeight)%Q) in *.
      pose proof (Qfloor_le q) as F1. pose proof (Qlt_floor q) as F2.
      assert (Hy : (y == q * inject_Z rowHeight + 25)%Q).
      { unfold q. field. discriminate. }
      destruct Hout as [Hlt|Hge].
      + assert (Hq : (q < 0)%Q).
        { unfold q. apply Qlt_shift_div_r; [reflexivity|].
          apply (Qplus_lt_l _ _ 25). ring_simplify. exact Hlt. }
        assert (A : (inject_Z (Qfloor q) < inject_Z 0)%Q)
          by (eapply Qle_lt_trans; eassumption).
        rewrite <- Zlt_Qlt in A. lia.
      + assert (Hq : (inject_Z (len flattenedSpans) <= q)%Q).
        { unfold q. apply Qle_shift_div_l; [reflexivity|].
          unfold row_y in Hge. rewrite inject_Z_plus, inject_Z_mult in Hge.
          apply (Qplus_le_l _ _ 25). ring_simplify.
          eapply Qle_trans; [|exact Hge]. apply Qle_lteq. right. ring. }
        assert (A : (inject_Z (len flattenedSpans) < inject_Z (Qfloor q + 1))%Q)
          by (eapply Qle_lt_trans; eassumption).
        rewrite <- Zlt_Qlt in A. lia. }
    unfold handleCanvasMouseMove, handleCanvasClick. now rewrite Hspan.
Qed.

Lemma X14_hit_test_inverts_rows_witness :
  let rows := Timeline.flatten ∅ sample_forest in
  handleCanvasMouseMove rows 60 = Some "C1"
  /\ handleCanvasClick rows ∅ 10 30 = Collapse (Timeline.toggleCollapse ∅ "R")
  /\ handleCanvasClick rows ∅ 10 60
     = Select (SNode 6%nat
                 {| ts_span := span_of "C1" (Some "R") 10 40; depth := 1; children := [];
                    startMs := 10; durationMs := 30 |} []).
Proof.
  cbv zeta. split; [|split].
  - destruct (X14_hit_test_inverts_rows (Timeline.flatten ∅ sample_forest) ∅ 0 60)
      as [H _].
    destruct (H 1%nat (SNode 6%nat
        {| ts_span := span_of "C1" (Some "R") 10 40; depth := 1; children := [];
           startMs := 10; durationMs := 30 |} []) eq_refl) as [Hh _].
    + vm_compute. discriminate.
    + reflexivity.
    + exact Hh.
  - destruct (X14_hit_test_inverts_rows (Timeline.flatten ∅ sample_forest) ∅ 10 30)
      as [H _].
    destruct (H 0%nat
                (SNode 5%nat
                   {| ts_span := span_of "R" None 0 100; depth := 0;
                      children := [6%nat; 7%nat]; startMs := 0; durationMs := 100 |}
                   [SNode 6%nat
                      {| ts_span := span_of "C1" (Some "R") 10 40; depth := 1;
                         children := []; startMs := 10; durationMs := 30 |} [];
                    SNode 7%nat
                      {| ts_span := span_of "C2" (Some "R") 50 90; depth := 1;
                         children := []; startMs := 50; durationMs := 40 |} []])
                eq_refl) as [_ [Hc _]].
    + vm_compute. discriminate.
    + reflexivity.
    + apply Hc; [discriminate|vm_compute; discriminate|vm_compute; discriminate].
  - destruct (X14_hit_test_inverts_rows (Timeline.flatten ∅ sample_forest) ∅ 10 60)
      as [H _].
    destruct (H 1%nat (SNode 6%nat
        {| ts_span := span_of "C1" (Some "R") 10 40; depth := 1; children := [];
           startMs := 10; durationMs := 30 |} []) eq_refl) as [_ [_ Hs]].
    + vm_compute. discriminate.
    + reflexivity.
    + apply Hs. now left.
Defined.

(** ** Bar placement *)

Lemma min_list_le (x : Z) (xs : list Z) :
  min_list x xs <= x /\ forall y, In y xs -> min_list x xs <= y.
Proof.
  unfold min_list. revert x. induction xs as [|z xs IH]; intros x; simpl.
  - split; [lia|tauto].
  - destruct (IH (Z.min x z)) as [H1 H2]. split; [lia|].
    intros y [<-|Hy]; [lia|now apply H2].
Qed.


Lemma js_ratio (a b c : Z) :
  0 < b ->
  js_mul (js_div (js_of_Z a) (js_of_Z b)) (js_of_Z c)
  = JFin (inject_Z a / inject_Z b * inject_Z c).
Proof.
  intros Hb. unfold js_of_Z, js_div, js_mul, q_zero. simpl Qnum.
  destruct (Z.eqb_spec b 0); [lia|]. reflexivity.
Qed.

Lemma ratio_bounds (a b c : Z) :
  0 < b -> 0 <= c ->
  (0 <= a -> (0 <= inject_Z a / inject_Z b * inject_Z c)%Q)
  /\ (a <= b -> (inject_Z a / inject_Z b * inject_Z c <= inject_Z c)%Q).
Proof.
  intros Hb Hc.
  assert (Hb' : (0 < inject_Z b)%Q) by (now rewrite (Zlt_Qlt 0 b) in Hb).
  assert (Hc' : (0 <= inject_Z c)%Q) by (now rewrite (Zle_Qle 0 c) in Hc).
  split; intros Ha.
  - apply Qmult_le_0_compat; [|exact Hc'].
    apply Qle_shift_div_l; [exact Hb'|]. rewrite Qmult_0_l.
    now rewrite (Zle_Qle 0 a) in Ha.
  - assert (H1 : (inject_Z a / inject_Z b <= 1)%Q).
    { apply Qle_shift_div_r; [exact Hb'|]. rewrite Qmult_1_l. now rewrite <- Zle_Qle. }
    eapply Qle_trans; [apply Qmult_le_compat_r; [exact H1|exact Hc']|].
    rewrite Qmult_1_l. apply Qle_refl.
Qed.





(** ** What the forest contains *)

Lemma nodes_of_self (n : SpanNode) : In n (nodes_of n).
Proof. destruct n. now left. Qed.

Lemma nodes_of_trans (t : SpanNode) :
  forall n c, In n (nodes_of t) -> In c (nodes_of n) -> In c (nodes_of t).
Proof.
  induction t as [r ts kids IH] using SpanNode_forall_ind. intros n c Hn Hc.
  simpl in Hn. destruct Hn as [<-|Hn]; [exact Hc|].
  simpl. right. apply List.in_flat_map in Hn. destruct Hn as (k & Hk & Hn).
  apply List.in_flat_map. exists k. split; [exact Hk|].
  rewrite List.Forall_forall in IH. eapply IH; eauto.
Qed.

Lemma forest_nodes_kid (f : list SpanNode) (n c : SpanNode) :
  In n (forest_nodes f) -> In c (node_kids n) -> In c (forest_nodes f).
Proof.
  intros Hn Hc. unfold forest_nodes in *. apply List.in_flat_map in Hn.
  destruct Hn as (t & Ht & Hn). apply List.in_flat_map. exists t. split; [exact Ht|].
  apply (nodes_of_trans t n c Hn). destruct n as [r ts kids]. simpl in *.
  right. apply List.in_flat_map. exists c. split; [exact Hc|apply nodes_of_self].
Qed.

Lemma forest_nodes_reified (h : heap) (f : list SpanNode) (n : SpanNode) :
  List.Forall (reified h) f -> In n (forest_nodes f) -> reified h n.
Proof.
  intros Hall Hn. unfold forest_nodes in Hn. apply List.in_flat_map in Hn.
  destruct Hn as (top & Htop & Hn). rewrite List.Forall_forall in Hall.
  eapply reified_nodes; eauto.
Qed.

Section Completeness.

Variable h1 : heap.
Variable m : spanMap.
Variable h : heap.
Hypothesis h_inv : heap_inv h1 m h.
Variable roots : list loc.
Variable f : list SpanNode.
Hypothesis roots_perm : Permutation roots (roots_in h1 m (order m)).
Hypothesis f_reified : List.Forall (reified h) f.
Hypothesis f_roots : map node_ref f = roots.

(** The children of a node of the forest are the nodes that resolve it as
    their parent. *)
Lemma forest_kids (n : SpanNode) (l : loc) :
  In n (forest_nodes f) -> In (node_ref n) (order m) ->
  (exists c, In c (node_kids n) /\ node_ref c = l)
  <-> In l (order m) /\ par h1 m l = Some (node_ref n).
Proof.
  intros Hn Hord. pose proof (forest_nodes_reified h f n f_reified Hn) as Hre.
  destruct Hre as [r ts kids Hread Hkids _]. simpl in *.
  destruct h_inv as [_ Hperm]. specialize (Hperm r ts Hord Hread).
  rewrite <- (kids_in_spec h1 m (order m) r l).
  split.
  - intros (c & Hc & <-). apply (Permutation_in _ Hperm). rewrite <- Hkids.
    now apply List.in_map.
  - intros Hl. apply (Permutation_in _ (Permutation_sym Hperm)) in Hl.
    rewrite <- Hkids in Hl. apply List.in_map_iff in Hl.
    destruct Hl as (c & Hc & Hin). now exists c.
Qed.

(** Every indexed node with a level is a node of the forest. *)
Lemma forest_complete (d : nat) :
  forall l, In l (order m) -> level h1 m d l -> In l (flat_map refs_of f).
Proof.
  induction d as [|d IH]; intros l Hl (r & Hup & Hroot).
  - simpl in Hup. injection Hup as <-.
    assert (Hin : In l roots).
    { apply (Permutation_in _ (Permutation_sym roots_perm)).
      now apply roots_in_spec. }
    rewrite <- f_roots in Hin. apply List.in_map_iff in Hin.
    destruct Hin as (n & <- & Hn). apply List.in_flat_map. exists n.
    split; [exact Hn|]. destruct n. now left.
  - simpl in Hup. destruct (par h1 m l) as [p|] eqn:Hp; [|discriminate].
    assert (Hpo : In p (order m)) by (eapply par_in_order; eauto).
    assert (Hpf : In p (flat_map refs_of f)) by (apply IH; [exact Hpo|now exists r]).
    rewrite <- forest_nodes_refs in Hpf. apply List.in_map_iff in Hpf.
    destruct Hpf as (n & Hnr & Hn). subst p.
    destruct (proj2 (forest_kids n l Hn Hpo)) as (c & Hc & Hcl); [now split|].
    rewrite <- forest_nodes_refs. apply List.in_map_iff. exists c.
    split; [exact Hcl|]. eapply forest_nodes_kid; eauto.
Qed.

End Completeness.

Lemma index1_inj (h : heap) (ss : list TraceSpan) (k k' : string) (l : loc) :
  map_get k (index1 h ss) = Some l -> map_get k' (index1 h ss) = Some l -> k = k'.
Proof.
  intros H1 H2. apply map_get_In in H1, H2.
  destruct (index1_entry h ss 0 k l H1) as (s & _ & Hs & Hr & _).
  destruct (index1_entry h ss 0 k' l H2) as (s' & _ & Hs' & Hr' & _).
  rewrite Hr in Hr'. injection Hr' as E. congruence.
Qed.

Lemma parent_id_indexed (ss : list TraceSpan) (k p : string) :
  parent_id ss k = Some p -> indexed ss k /\ indexed ss p.
Proof.
  unfold parent_id, indexed. intros H.
  destruct (find_last k ss) as [s|]; [|discriminate].
  destruct (truthy (parent_span_id s)) as [pid|]; [|discriminate].
  destruct (find_last pid ss) as [sp|] eqn:E; [|discriminate].
  injection H as <-. split; eauto.
Qed.

Lemma ancestor_id_indexed (ss : list TraceSpan) (j : nat) :
  forall k r, indexed ss k -> ancestor_id ss j k = Some r -> indexed ss r.
Proof.
  induction j as [|j IH]; intros k r Hk H; simpl in H.
  - now injection H as <-.
  - destruct (parent_id ss k) as [p|] eqn:Hp; [|discriminate].
    apply (IH p r); [|exact H]. now apply (parent_id_indexed ss k p).
Qed.

Section IdLevels.

Variable h : heap.
Variable ss : list TraceSpan.
Variable minT : Z.

Local Abbreviation m := (index1 h ss).
Local Abbreviation h1 := (heap1 h ss minT).

Lemma indexed_get (k : string) : indexed ss k <-> exists l, map_get k m = Some l.
Proof.
  split.
  - intros (s & Hs). eapply find_last_indexed; eauto.
  - intros (l & Hl). eapply indexed_find_last; eauto.
Qed.

Lemma get_in_order (k : string) (l : loc) : map_get k m = Some l -> In l (order m).
Proof.
  intros H. apply map_get_In in H. unfold order. apply List.in_map_iff.
  now exists (k, l).
Qed.

Lemma par_None_id (k : string) (l : loc) :
  map_get k m = Some l -> (par h1 m l = None <-> parent_id ss k = None).
Proof.
  intros Hk. rewrite (par_id h ss minT k l Hk).
  destruct (parent_id ss k) as [pid|] eqn:Hp; [|tauto].
  destruct (parent_id_indexed ss k pid Hp) as [_ Hi].
  apply indexed_get in Hi. destruct Hi as (lp & ->). split; discriminate.
Qed.

Lemma par_Some_id (k kp : string) (l lp : loc) :
  map_get k m = Some l -> map_get kp m = Some lp ->
  (par h1 m l = Some lp <-> parent_id ss k = Some kp).
Proof.
  intros Hk Hkp. rewrite (par_id h ss minT k l Hk).
  destruct (parent_id ss k) as [pid|] eqn:Hp.
  - split.
    + intros H. f_equal. eapply index1_inj; eauto.
    + intros [= ->]. exact Hkp.
  - split; discriminate.
Qed.

Lemma level_id_loc (d : nat) (k : string) (l : loc) :
  map_get k m = Some l -> (level h1 m d l <-> level_id ss d k).
Proof.
  intros Hk. unfold level, level_id. rewrite (up_id h ss minT d k l Hk).
  split.
  - intros (r & Hup & Hr).
    destruct (ancestor_id ss d k) as [k'|]; [|discriminate].
    exists k'. split; [reflexivity|]. now apply (par_None_id k' r).
  - intros (k' & Ha & Hr). rewrite Ha.
    assert (Hi : indexed ss k').
    { apply (ancestor_id_indexed ss d k k'); [apply indexed_get; eauto|exact Ha]. }
    apply indexed_get in Hi. destruct Hi as (lr & Hlr). exists lr. split; [exact Hlr|].
    now apply (par_None_id k' lr).
Qed.

End IdLevels.

(** The forest on span ids: roots, nodes and children. *)
Lemma forest_content (h : heap) (spans : list loc) (ss : list TraceSpan) :
  mapM (read_span h) spans = Some ss ->
  exists f,
    spanTree h spans = Some f
    /\ (forall k, (exists n, In n f /\ node_id n = k)
                  <-> indexed ss k /\ parent_id ss k = None)
    /\ (forall k, (exists n, In n (forest_nodes f) /\ node_id n = k)
                  <-> reaches_root ss k)
    /\ (forall n k, In n (forest_nodes f) ->
          (exists c, In c (node_kids n) /\ node_id c = k)
          <-> parent_id ss k = Some (node_id n)).
Proof.
  intros Hss.
  destruct (spanTree_run h spans ss Hss) as (st & f & _ & Hf & Hinv & Hall & Hrefs).
  exists f. split; [exact Hf|].
  set (h1 := heap1 h ss (minTime ss)) in *. set (m := index1 h ss) in *.
  pose proof (forest_node_facts h ss st f) as Hfacts.
  fold h1 m in Hfacts.
  destruct Hinv as (Hheap & Hroots).
  assert (Hid : forall n l k, In n (forest_nodes f) -> node_ref n = l ->
                              map_get k m = Some l -> node_id n = k).
  { intros n l k Hn <- Hk.
    destruct (Hfacts n (conj Hheap Hroots) Hall Hrefs Hn) as (Hg & _).
    eapply index1_inj; eauto. }
  split; [|split].
  - intros k. split.
    + intros (n & Hn & <-).
      destruct (Hfacts n (conj Hheap Hroots) Hall Hrefs (roots_are_nodes f n Hn))
        as (Hg & Hfind & _).
      split; [now exists (ts_span (node_ts n))|].
      apply (par_None_id h ss (minTime ss) _ _ Hg).
      assert (Hr : In (node_ref n) (roots_in h1 m (order m))).
      { apply (Permutation_in _ Hroots). rewrite <- Hrefs. now apply List.in_map. }
      now apply roots_in_spec in Hr.
    + intros (Hi & Hp). apply (indexed_get h ss) in Hi. destruct Hi as (l & Hl).
      assert (Hr : In l (rootSpans st)).
      { apply (Permutation_in _ (Permutation_sym Hroots)). apply roots_in_spec.
        split; [eapply get_in_order; eauto|].
        now apply (par_None_id h ss (minTime ss) k l Hl). }
      rewrite <- Hrefs in Hr. apply List.in_map_iff in Hr. destruct Hr as (n & Hnl & Hn).
      exists n. split; [exact Hn|].
      apply (Hid n l k); auto using roots_are_nodes.
  - intros k. split.
    + intros (n & Hn & <-).
      destruct (Hfacts n (conj Hheap Hroots) Hall Hrefs Hn) as (Hg & Hfind & (d & Hlev) & _).
      split; [now exists (ts_span (node_ts n))|]. exists d.
      now apply (level_id_loc h ss (minTime ss) d _ _ Hg).
    + intros (Hi & d & Hlev). apply (indexed_get h ss) in Hi. destruct Hi as (l & Hl).
      apply (level_id_loc h ss (minTime ss) d _ _ Hl) in Hlev.
      pose proof (forest_complete h1 m (st_heap st) Hheap (rootSpans st) f Hroots Hall
                    Hrefs d l (get_in_order h ss k l Hl) Hlev) as Hin.
      rewrite <- forest_nodes_refs in Hin. apply List.in_map_iff in Hin.
      destruct Hin as (n & Hnl & Hn). exists n. split; [exact Hn|].
      now apply (Hid n l k).
  - intros n k Hn.
    destruct (Hfacts n (conj Hheap Hroots) Hall Hrefs Hn) as (Hg & _).
    pose proof (forest_kids h1 m (st_heap st) Hheap f Hall n) as Hkids.
    split.
    + intros (c & Hc & <-).
      assert (Hcf : In c (forest_nodes f)) by (eapply forest_nodes_kid; eauto).
      destruct (Hfacts c (conj Hheap Hroots) Hall Hrefs Hcf) as (Hgc & _).
      apply (par_Some_id h ss (minTime ss) _ _ _ _ Hgc Hg).
      apply (Hkids (node_ref c) Hn (get_in_order h ss _ _ Hg)). now exists c.
    + intros Hp. destruct (parent_id_indexed ss k _ Hp) as [Hi _].
      apply (indexed_get h ss) in Hi. destruct Hi as (l & Hl).
      destruct (proj2 (Hkids l Hn (get_in_order h ss _ _ Hg))) as (c & Hc & Hcl).
      { split; [eapply get_in_order; eauto|].
        now apply (par_Some_id h ss (minTime ss) _ _ _ _ Hl Hg). }
      exists c. split; [exact Hc|].
      apply (Hid c l k); auto. eapply forest_nodes_kid; eauto.
Qed.

(** X16: the forest holds exactly the spans whose parent chain ends: its
    roots are the indexed ids without a resolved parent (parent absent,
    empty, or not the id of any span of the input), its nodes are the ids
    from which finitely many resolved parent steps reach such a root, and
    the children of a node are exactly the ids that resolve it as their
    parent. *)
Theorem X16_forest_content (h : heap) (spans : list loc) (ss : list TraceSpan) :
  mapM (read_span h) spans = Some ss ->
  exists f,
    spanTree h spans = Some f
    /\ (forall k, (exists n, In n f /\ node_id n = k)
                  <-> indexed ss k /\ parent_id ss k = None)
    /\ (forall k, (exists n, In n (forest_nodes f) /\ node_id n = k)
                  <-> reaches_root ss k)
    /\ (forall n k, In n (forest_nodes f) ->
          (exists c, In c (node_kids n) /\ node_id c = k)
          <-> parent_id ss k = Some (node_id n)).
Proof. apply forest_content. Qed.

Lemma X16_forest_content_witness :
  exists f, spanTree chain_heap [2%nat; 3%nat; 4%nat] = Some f
            /\ exists n, In n (forest_nodes f) /\ node_id n = "C".
Proof.
  destruct (X16_forest_content chain_heap [2%nat; 3%nat; 4%nat] _ eq_refl)
    as (f & Hf & _ & Hnodes & _).
  exists f. split; [exact Hf|]. apply Hnodes. split.
  - eexists. reflexivity.
  - exists 2%nat. eexists. split; reflexivity.
Defined.

(** ** Depths *)

Section DepthsAttached.

Variable h1 : heap.
Variable m : spanMap.
Hypothesis m_vals : List.NoDup (map snd m).
Hypothesis m_nodes :
  forall l, In l (map snd m) -> exists n, read_node h1 l = Some n /\ children n = [].
Hypothesis m_depths : forall l, In l (map snd m) -> depth_at h1 l = 0%nat.

Local Abbreviation order := (order m).
Local Abbreviation par := (par h1 m).
Local Abbreviation inv := (inv h1 m).
Local Abbreviation attached := (attached h1 m).
Local Abbreviation level := (level h1 m).
Local Abbreviation depths_attached := (depths_attached h1 m).

(** The one write of the loop body to a depth. *)
Lemma attach_step_depth (st st' : state) (e : string * loc) :
  inv (st_heap st) -> In e m -> attach_step m (Some st) e = Some st' ->
  forall x,
    depth_at (st_heap st') x
    = match par (snd e) with
      | Some p => if Nat.eq_dec x (snd e) then S (depth_at (st_heap st) p)
                  else depth_at (st_heap st) x
      | None => depth_at (st_heap st) x
      end.
Proof.
  intros Hinv He Hstep x. destruct st as [h roots]. simpl in *.
  assert (Hl : In (snd e) order) by (apply List.in_map; exact He).
  set (l := snd e) in *.
  destruct (inv_node h1 m m_nodes h l Hinv Hl) as (n1 & span & Hn1 & Hspan & Hs).
  rewrite Hspan, (inv_resolve h1 m m_nodes h l span Hinv Hl Hspan) in Hstep.
  destruct (par l) as [pl|] eqn:Hpar.
  - pose proof (par_in_order h1 m _ _ Hpar) as Hpl.
    destruct (inv_node h1 m m_nodes h pl Hinv Hpl) as (p1 & parent & Hp1 & Hparent & Hps).
    rewrite Hparent in Hstep.
    set (h' := <[pl := ONode (push_child l parent)]> h) in *.
    assert (Hinv' : inv h').
    { eapply inv_write; eauto. repeat split. }
    assert (Hpl' : read_node h' pl = Some (push_child l parent)).
    { eapply read_write_eq, Hparent. }
    destruct (inv_node h1 m m_nodes h' l Hinv' Hl) as (n1' & span1 & Hn1' & Hspan1 & Hs1).
    rewrite Hspan1, Hpl' in Hstep. injection Hstep as <-. simpl.
    assert (Hdp : depth_at h pl = depth parent) by (unfold depth_at; now rewrite Hparent).
    destruct (Nat.eq_dec x l) as [->|Hne].
    + unfold depth_at at 1. erewrite read_write_eq by exact Hspan1. simpl. lia.
    + unfold depth_at at 1. rewrite read_write_ne by congruence.
      destruct (Nat.eq_dec pl x) as [<-|Hne'].
      * now rewrite Hpl'.
      * unfold h'. now rewrite read_write_ne by assumption.
  - now injection Hstep as <-.
Qed.

Lemma level_parent (d : nat) (l p : loc) :
  par l = Some p -> level d l -> exists d', d = S d' /\ level d' p.
Proof.
  intros Hp (r & Hup & Hr). destruct d as [|d'].
  - simpl in Hup. injection Hup as <-. congruence.
  - exists d'. split; [reflexivity|]. simpl in Hup.
    rewrite Hp in Hup. now exists r.
Qed.

Lemma depths_step (es rest : list loc) (st st' : state) (e : string * loc) :
  attached es st -> order = es ++ snd e :: rest -> In e m ->
  depths_attached es (st_heap st) ->
  attach_step m (Some st) e = Some st' ->
  depths_attached (es ++ [snd e]) (st_heap st').
Proof.
  intros (Hinv & _) Hord He Hd Hstep x d Hx Hlev.
  rewrite (attach_step_depth st st' e Hinv He Hstep x).
  assert (Hnd : ~ In (snd e) es).
  { pose proof m_vals as Hv. fold order in Hv. rewrite Hord in Hv.
    apply List.NoDup_remove_2 in Hv. intros Hin. apply Hv, in_or_app. now left. }
  set (l := snd e) in *.
  destruct (Hd x d Hx Hlev) as [Hout Hin].
  destruct (par l) as [p|] eqn:Hpar.
  - destruct (Nat.eq_dec x l) as [->|Hne].
    + destruct (level_parent d l p Hpar Hlev) as (d' & -> & Hlp).
      assert (Hpo : In p order) by (eapply par_in_order; eauto).
      destruct (Hd p d' Hpo Hlp) as [Hpout Hpin].
      split; [intros Hn; exfalso; apply Hn, in_or_app; right; now left|].
      intros _. split; [|split].
      * destruct (in_dec Nat.eq_dec p es) as [Hi|Hi].
        -- destruct (Hpin Hi) as [? _]. lia.
        -- rewrite (Hpout Hi). lia.
      * lia.
      * intros Hpb. pose proof (Hpb es l rest p Hord Hpar) as Hi.
        destruct (Hpin Hi) as (_ & _ & Heq). now rewrite (Heq Hpb).
    + split.
      * intros Hn. apply Hout. intros Hi. apply Hn, in_or_app. now left.
      * intros Hi. apply Hin. apply in_app_or in Hi.
        destruct Hi as [Hi|[Hi|[]]]; [exact Hi|congruence].
  - split.
    + intros Hn. apply Hout. intros Hi. apply Hn, in_or_app. now left.
    + intros Hi. apply in_app_or in Hi. destruct Hi as [Hi|[Hi|[]]]; [now apply Hin|].
      subst x. rewrite (Hout Hnd).
      assert (d = 0%nat).
      { apply (level_unique h1 m d 0 l Hlev). now apply level_root. }
      subst d. repeat split; lia.
Qed.

Lemma attach_all_depth (es2 : list (string * loc)) :
  forall (es1 : list loc) (st st' : state),
    attached es1 st -> order = es1 ++ map snd es2 -> (forall e, In e es2 -> In e m) ->
    depths_attached es1 (st_heap st) ->
    fold_left (attach_step m) es2 (Some st) = Some st' ->
    depths_attached (es1 ++ map snd es2) (st_heap st').
Proof.
  induction es2 as [|e es2 IH]; intros es1 st st' Hatt Hord Hsub Hd Hfold.
  - simpl in *. injection Hfold as <-. now rewrite app_nil_r.
  - cbn [fold_left map] in *.
    destruct (attach_step_ok h1 m m_nodes es1 st e Hatt) as (st1 & Hstep & Hatt1);
      [apply Hsub; now left|].
    rewrite Hstep in Hfold.
    replace (es1 ++ snd e :: map snd es2) with ((es1 ++ [snd e]) ++ map snd es2)
      by (now rewrite <- app_assoc).
    apply (IH (es1 ++ [snd e]) st1 st'); auto.
    + now rewrite <- app_assoc.
    + intros e' He'. apply Hsub. now right.
    + eapply depths_step; eauto. apply Hsub. now left.
Qed.

Lemma depths_init : depths_attached [] h1.
Proof.
  intros l d Hl _. split; [intros _; now apply m_depths|intros []].
Qed.

End DepthsAttached.

Lemma sort_arr_depth (st st1 : state) (a : aref) (sorted : list loc) :
  sort_arr st a = Some (st1, sorted) ->
  forall x, depth_at (st_heap st1) x = depth_at (st_heap st) x.
Proof.
  unfold sort_arr. intros H x.
  destruct (read_arr st a) as [ls|]; [|discriminate].
  destruct (mapM (with_start (st_heap st)) ls) as [keyed|]; [|discriminate].
  destruct a as [|l]; simpl in H.
  - now injection H as <- _.
  - destruct (read_node (st_heap st) l) as [n|] eqn:Hn; [|discriminate].
    injection H as <- _. simpl. unfold depth_at.
    destruct (Nat.eq_dec l x) as [<-|Hne].
    + erewrite read_write_eq by exact Hn. now rewrite Hn.
    + now rewrite read_write_ne by assumption.
Qed.

Lemma sortChildren_depth (k : nat) :
  forall (st st' : state) (a : aref),
    sortChildren k st a = Some st' ->
    forall x, depth_at (st_heap st') x = depth_at (st_heap st) x.
Proof.
  induction k as [|k IH]; intros st st' a H x; [discriminate|].
  cbn [sortChildren] in H.
  destruct (sort_arr st a) as [[st1 sorted]|] eqn:Hsort; [|discriminate].
  rewrite <- (sort_arr_depth st st1 a sorted Hsort x).
  clear Hsort. revert st1 H. induction sorted as [|l sorted IHs]; intros st1 H.
  - simpl in H. now injection H as <-.
  - cbn [fold_left] in H.
    destruct (sortChildren k st1 (AChildren l)) as [st2|] eqn:H2.
    + rewrite (IHs st2 H). eapply IH; eauto.
    + exfalso. clear -H. induction sorted; simpl in H; [discriminate|auto].
Qed.

(** The stages of a run on a non-empty input. *)
Lemma spanTree_stages (h : heap) (spans : list loc) (ss : list TraceSpan) :
  mapM (read_span h) spans = Some ss -> spans <> [] ->
  let h1 := heap1 h ss (minTime ss) in
  let m := index1 h ss in
  exists st0 st f,
    fold_left (attach_step m) m (Some (mkState h1 [])) = Some st0
    /\ attached h1 m (order m) st0
    /\ sortChildren (S (length spans)) st0 ARoots = Some st
    /\ spanTree h spans = Some f
    /\ sorted_inv h1 m st
    /\ List.Forall (reified (st_heap st)) f
    /\ map node_ref f = rootSpans st.
Proof.
  intros Hss Hne h1 m.
  destruct (spanTree_run h spans ss Hss) as (st & f & Hst & Hf & Hinv & Hall & Hrefs).
  pose proof (index1_nodes h ss (minTime ss)) as Hnodes. fold h1 m in Hnodes.
  destruct (attach_all h1 m Hnodes m [] (mkState h1 []))
    as (st0 & Hfold & Hatt); [now apply attached_init|auto|].
  exists st0, st, f. simpl in Hatt.
  repeat (split; [assumption|]). split; [|auto].
  destruct spans as [|l spans]; [congruence|].
  unfold spanTree_state, build in Hst. rewrite Hss in Hst.
  rewrite (convert_closed0 h _ ss _ Hss) in Hst. fold h1 m in Hst.
  now rewrite Hfold in Hst.
Qed.

Lemma spanTree_nil (h : heap) : spanTree h [] = Some [].
Proof. reflexivity. Qed.

Lemma map_set_fresh (k : string) (v : loc) (m : spanMap) :
  ~ In k (map fst m) -> map_set k v m = m ++ [(k, v)].
Proof.
  induction m as [|[k' v'] m IH]; simpl; intros Hk; [reflexivity|].
  destruct (String.eqb_spec k k') as [->|_]; [tauto|].
  rewrite IH; tauto.
Qed.

Lemma index_spans_order (ss : list TraceSpan) :
  forall base m,
    List.NoDup (map span_id ss) ->
    (forall s, In s ss -> ~ In (span_id s) (map fst m)) ->
    map snd (index_spans base ss m) = map snd m ++ seq base (length ss).
Proof.
  induction ss as [|s ss IH]; intros base m Hnd Hfresh; simpl.
  - now rewrite app_nil_r.
  - apply List.NoDup_cons_iff in Hnd. destruct Hnd as [Hs Hnd].
    assert (Hset : map_set (span_id s) base m = m ++ [(span_id s, base)]).
    { apply map_set_fresh, Hfresh. now left. }
    rewrite IH; [|exact Hnd|].
    + rewrite Hset, map_app. simpl. now rewrite <- app_assoc.
    + intros s' Hs'. rewrite Hset, map_app. simpl. intros Hin.
      apply in_app_or in Hin. destruct Hin as [Hin|[Hin|[]]].
      * apply (Hfresh s'); [now right|exact Hin].
      * apply Hs. rewrite Hin. now apply List.in_map.
Qed.

Lemma seq_split (a n : nat) (es1 es2 : list nat) (l : nat) :
  seq a n = es1 ++ l :: es2 -> l = (a + length es1)%nat /\ es1 = seq a (length es1).
Proof.
  revert a es1. induction n as [|n IH]; intros a es1 H; simpl in H.
  - now destruct es1.
  - destruct es1 as [|x es1]; simpl in *.
    + injection H as <- _. split; [lia|reflexivity].
    + injection H as <- H. destruct (IH _ _ H) as [-> Hes]. split; [lia|].
      now rewrite <- Hes.
Qed.

Lemma parents_first_before (h : heap) (ss : list TraceSpan) (minT : Z) :
  parents_first ss -> parents_before (heap1 h ss minT) (index1 h ss).
Proof.
  intros [Hnd Hpf] es1 l es2 p Hord Hpar.
  assert (Hseq : order (index1 h ss) = seq (length h) (length ss)).
  { unfold order, index1. rewrite index_spans_order; auto. }
  rewrite Hseq in Hord. destruct (seq_split _ _ _ _ _ Hord) as [Hl Hes].
  assert (Hlo : In l (order (index1 h ss))).
  { rewrite Hseq, Hord. apply in_or_app. right. now left. }
  apply List.in_map_iff in Hlo. destruct Hlo as ([k l'] & Hk & Hin). simpl in Hk. subst l'.
  pose proof (map_get_of_In (index1 h ss) k l (index1_nodup h ss) Hin) as Hget.
  rewrite (par_id h ss minT k l Hget) in Hpar.
  destruct (parent_id ss k) as [pid|] eqn:Hpid; [|discriminate].
  apply index1_get in Hget. destruct Hget as (i & Hi & Hli).
  apply index1_get in Hpar. destruct Hpar as (j & Hj & Hpj).
  destruct (last_index_find k ss i Hi) as (s & Hs & Hfs & Hsk).
  destruct (last_index_find pid ss j Hj) as (sp & Hsp & Hfsp & Hspk).
  unfold parent_id in Hpid. rewrite Hfs in Hpid.
  destruct (truthy (parent_span_id s)) as [pid'|] eqn:Ht; [|discriminate].
  destruct (find_last pid' ss); [|discriminate]. injection Hpid as ->.
  assert (Hji : (j < i)%nat).
  { apply (Hpf i j s sp Hs Hsp). now rewrite Hspk. }
  rewrite Hes. apply in_seq. lia.
Qed.

Lemma index1_depths (h : heap) (ss : list TraceSpan) (minT : Z) (l : loc) :
  In l (map snd (index1 h ss)) -> depth_at (heap1 h ss minT) l = 0%nat.
Proof.
  intros Hl. apply List.in_map_iff in Hl. destruct Hl as ([k l'] & Hk & Hin).
  simpl in Hk. subst l'.
  destruct (index1_entry h ss minT k l Hin) as (s & _ & _ & Hr & _).
  unfold depth_at. now rewrite Hr.
Qed.

(** The depths of the nodes of the forest, in terms of the loop invariant. *)
Lemma forest_depths (h : heap) (spans : list loc) (ss : list TraceSpan) :
  mapM (read_span h) spans = Some ss ->
  exists f,
    spanTree h spans = Some f
    /\ forall n d, In n (forest_nodes f) -> level_id ss d (node_id n) ->
         (node_depth n <= d)%nat
         /\ ((0 < d)%nat -> (1 <= node_depth n)%nat)
         /\ (parents_first ss -> node_depth n = d).
Proof.
  intros Hss. destruct spans as [|l0 spans].
  { exists []. split; [apply spanTree_nil|]. intros n d []. }
  destruct (spanTree_stages h _ ss Hss) as (st0 & st & f & Hfold & Hatt & Hsort & Hf
                                            & Hinv & Hall & Hrefs); [discriminate|].
  exists f. split; [exact Hf|]. intros n d Hn Hlev.
  set (h1 := heap1 h ss (minTime ss)) in *. set (m := index1 h ss) in *.
  pose proof (index1_nodes h ss (minTime ss)) as Hnodes. fold h1 m in Hnodes.
  destruct (forest_node_facts h ss st f n Hinv Hall Hrefs Hn) as (Hget & _).
  fold m in Hget.
  assert (Hd : depths_attached h1 m (order m) (st_heap st0)).
  { apply (attach_all_depth h1 m (index1_vals h ss (minTime ss)) Hnodes
             m [] (mkState h1 []) st0); auto.
    - now apply attached_init.
    - apply depths_init. apply index1_depths. }
  apply (level_id_loc h ss (minTime ss) d _ _ Hget) in Hlev.
  fold h1 m in Hlev.
  pose proof (get_in_order h ss _ _ Hget) as Hord. fold m in Hord.
  destruct (Hd (node_ref n) d Hord Hlev) as [_ Hin]. specialize (Hin Hord).
  assert (Hdep : depth_at (st_heap st0) (node_ref n) = node_depth n).
  { rewrite <- (sortChildren_depth _ st0 st ARoots Hsort).
    unfold depth_at, node_depth.
    now rewrite (reified_read _ _ (forest_nodes_reified _ f n Hall Hn)). }
  rewrite Hdep in Hin. destruct Hin as (H1 & H2 & H3).
  split; [exact H1|]. split; [exact H2|]. intros Hpf. apply H3.
  now apply parents_first_before.
Qed.

(** X17: the [depth] stored in a node of the forest never exceeds the
    nesting level of its span: it is 0 for the roots and at least 1 below
    them. When the input lists every span after its parent (and no id
    twice), the depth is the nesting level, and every child is one deeper
    than its parent. *)
Theorem X17_depth_and_nesting_level (h : heap) (spans : list loc) (ss : list TraceSpan) :
  mapM (read_span h) spans = Some ss ->
  exists f,
    spanTree h spans = Some f
    /\ (forall n, In n f -> node_depth n = 0%nat)
    /\ (forall n, In n (forest_nodes f) ->
          exists d, level_id ss d (node_id n)
                    /\ (node_depth n <= d)%nat
                    /\ ((0 < d)%nat -> (1 <= node_depth n)%nat))
    /\ (parents_first ss ->
        (forall n d, In n (forest_nodes f) -> level_id ss d (node_id n) ->
                     node_depth n = d)
        /\ (forall n c, In n (forest_nodes f) -> In c (node_kids n) ->
                        node_depth c = S (node_depth n))).
Proof.
  intros Hss.
  destruct (forest_depths h spans ss Hss) as (f & Hf & Hdepth).
  destruct (forest_content h spans ss Hss) as (f' & Hf' & Hroots & Hnodes & Hkids).
  assert (f' = f) by congruence. subst f'.
  exists f. split; [exact Hf|].
  assert (Hlev : forall n, In n (forest_nodes f) -> exists d, level_id ss d (node_id n)).
  { intros n Hn. destruct (proj1 (Hnodes (node_id n))) as (_ & d & Hd); eauto. }
  split; [|split; [|intros Hpf; split]].
  - intros n Hn.
    destruct (proj1 (Hroots (node_id n))) as (_ & Hp); [eauto|].
    destruct (Hdepth n 0%nat (roots_are_nodes f n Hn)) as (H0 & _); [|lia].
    exists (node_id n). now split.
  - intros n Hn. destruct (Hlev n Hn) as (d & Hd). exists d.
    destruct (Hdepth n d Hn Hd) as (H1 & H2 & _). auto.
  - intros n d Hn Hd. now apply (Hdepth n d Hn Hd).
  - intros n c Hn Hc. destruct (Hlev n Hn) as (d & Hd).
    assert (Hcn : In c (forest_nodes f)) by (eapply forest_nodes_kid; eauto).
    assert (Hp : parent_id ss (node_id c) = Some (node_id n)).
    { apply (Hkids n (node_id c) Hn). eauto. }
    assert (Hcd : level_id ss (S d) (node_id c)).
    { destruct Hd as (r & Hr & Hroot). exists r. simpl. now rewrite Hp. }
    destruct (Hdepth n d Hn Hd) as (_ & _ & Hnd).
    destruct (Hdepth c (S d) Hcn Hcd) as (_ & _ & Hcd').
    now rewrite (Hnd Hpf), (Hcd' Hpf).
Qed.

Lemma X17_depth_and_nesting_level_witness :
  exists f, spanTree chain_heap [4%nat; 3%nat; 2%nat] = Some f
            /\ forall n c, In n (forest_nodes f) -> In c (node_kids n) ->
                           node_depth c = S (node_depth n).
Proof.
  destruct (X17_depth_and_nesting_level chain_heap [4%nat; 3%nat; 2%nat] _ eq_refl)
    as (f & Hf & _ & _ & Hpf).
  exists f. split; [exact Hf|]. apply Hpf. split.
  - simpl. repeat constructor; simpl; intuition discriminate.
  - intros i j s sp Hi Hj Ht.
    destruct i as [|[|[|i]]]; simpl in Hi; try (destruct i; discriminate);
      injection Hi as <-; simpl in Ht; try discriminate;
      destruct j as [|[|[|j]]]; simpl in Hj; try (destruct j; discriminate);
      injection Hj as <-; simpl in Ht; try discriminate; lia.
Defined.

(** ** Order of siblings *)

Lemma StronglySorted_map {A B : Type} (R : A -> A -> Prop) (R' : B -> B -> Prop)
    (f : A -> B) (l : list A) :
  (forall x y, In x l -> In y l -> R x y -> R' (f x) (f y)) ->
  StronglySorted R l -> StronglySorted R' (map f l).
Proof.
  intros HR Hs. induction Hs as [|x l Hs IH Hx]; simpl; [constructor|].
  constructor.
  - apply IH. intros a b Ha Hb. apply HR; now right.
  - apply List.Forall_forall. intros y Hy. apply List.in_map_iff in Hy.
    destruct Hy as (z & <- & Hz). rewrite List.Forall_forall in Hx.
    apply HR; [now left|now right|auto].
Qed.

Lemma mapM_with_start_keys (h : heap) (ls : list loc) (keyed : list (Z * loc)) :
  mapM (with_start h) ls = Some keyed ->
  forall x, In x keyed -> fst x = start_at h (snd x).
Proof.
  revert keyed. induction ls as [|l ls IH]; intros keyed H x Hx; simpl in H.
  - injection H as <-. destruct Hx.
  - unfold with_start at 1 in H.
    destruct (read_node h l) as [n|] eqn:Hn; [|discriminate].
    destruct (mapM (with_start h) ls) as [ks|]; [|discriminate].
    injection H as <-. destruct Hx as [<-|Hx].
    + simpl. unfold start_at. now rewrite Hn.
    + now apply (IH ks).
Qed.

Lemma fold_None {A : Type} (F : state -> A -> option state) (l : list A) :
  fold_left (fun acc x => match acc with Some s => F s x | None => None end) l None
  = None.
Proof. induction l; simpl; auto. Qed.

Section SiblingOrder.

Variable h1 : heap.
Variable m : spanMap.
Hypothesis m_nodes :
  forall l, In l (map snd m) -> exists n, read_node h1 l = Some n /\ children n = [].

Local Abbreviation order := (order m).
Local Abbreviation par := (par h1 m).
Local Abbreviation inv := (inv h1 m).
Local Abbreviation up := (up h1 m).
Local Abbreviation level := (level h1 m).
Local Abbreviation sorted_inv := (sorted_inv h1 m).
Local Abbreviation arr_level := (arr_level h1 m).
Local Abbreviation kids_sorted := (kids_sorted h1).
Local Abbreviation by_start := (by_start h1).
Local Abbreviation below := (below h1 m).
Local Abbreviation sorts := (sorts h1 m).

Lemma start_at_inv (h : heap) (l : loc) :
  inv h -> In l order -> start_at h l = start_at h1 l.
Proof.
  intros Hinv Hl.
  destruct (inv_node h1 m m_nodes h l Hinv Hl) as (n1 & n & Hn1 & Hn & _ & Hs & _).
  unfold start_at. now rewrite Hn1, Hn.
Qed.

Lemma up_in_order (j : nat) :
  forall y c, In y order -> up j y = Some c -> In c order.
Proof.
  induction j as [|j IH]; intros y c Hy H; simpl in H.
  - now injection H as <-.
  - destruct (par y) as [p|] eqn:Hp; [|discriminate].
    apply (IH p c); [eapply par_in_order; eauto|exact H].
Qed.

(** The sort of one array. *)
Lemma sort_arr_sorts (st st1 : state) (a : aref) (d : nat) (sorted : list loc) :
  sorted_inv st -> arr_level a d -> sort_arr st a = Some (st1, sorted) ->
  by_start sorted
  /\ read_arr st1 a = Some sorted
  /\ (forall l, kids_sorted st l -> kids_sorted st1 l)
  /\ (forall l, a = AChildren l -> rootSpans st1 = rootSpans st).
Proof.
  intros Hst Ha Hsort.
  destruct (read_arr_levels h1 m m_nodes st a d Hst Ha) as (ls & Hread & Hls).
  destruct Hst as ((Hinv & Hkids) & Hroots).
  unfold sort_arr in Hsort. rewrite Hread in Hsort.
  destruct (mapM (with_start (st_heap st)) ls) as [keyed|] eqn:Hkeyed; [|discriminate].
  set (cmp := fun x y : Z * loc => fst x - fst y) in *.
  assert (Hsnd : map snd keyed = ls).
  { destruct (mapM_with_start h1 m m_nodes (st_heap st) ls Hinv) as (keyed' & Hk' & Hs').
    - intros x Hx. now apply Hls.
    - congruence. }
  assert (Hby : by_start (map snd (sort_by cmp keyed))).
  { apply (StronglySorted_map (cmp_le cmp)).
    - intros x y Hx Hy Hxy.
      apply (Permutation_in _ (sort_by_perm cmp keyed)) in Hx, Hy.
      assert (Hin : forall z, In z keyed -> fst z = start_at h1 (snd z)).
      { intros z Hz. rewrite (mapM_with_start_keys _ _ _ Hkeyed z Hz).
        apply start_at_inv; [exact Hinv|]. apply Hls. rewrite <- Hsnd.
        now apply List.in_map. }
      rewrite <- (Hin x Hx), <- (Hin y Hy). unfold cmp_le, cmp in Hxy. lia.
    - apply sort_by_sorted; unfold cmp; intros; lia. }
  destruct a as [|l]; simpl in *.
  - injection Hsort as <- <-. simpl. repeat split; auto. discriminate.
  - destruct (read_node (st_heap st) l) as [n|] eqn:Hn; [|discriminate].
    injection Hsort as <- <-. simpl. split; [exact Hby|]. split; [|split].
    + now erewrite read_write_eq by exact Hn.
    + intros l0 Hl0 n0 Hn0. simpl in Hn0.
      destruct (Nat.eq_dec l l0) as [<-|Hne].
      * erewrite read_write_eq in Hn0 by exact Hn. now injection Hn0 as <-.
      * rewrite read_write_ne in Hn0 by assumption. now apply Hl0.
    + reflexivity.
Qed.

(** The elements of [a] are sorted, and so is everything reached from
    them, once this holds below each element. *)
Lemma sorts_finish (st st1 st' : state) (a : aref) (d : nat) (sorted : list loc) :
  sorted_inv st -> arr_level a d -> sort_arr st a = Some (st1, sorted) ->
  sorted_inv st1 ->
  (forall l, kids_sorted st1 l -> kids_sorted st' l) ->
  rootSpans st' = rootSpans st1 ->
  (forall x, In x sorted ->
     kids_sorted st' x
     /\ forall y, In y order -> (exists j, up (S j) y = Some x) -> kids_sorted st' y) ->
  sorts a st st'.
Proof.
  intros Hst Ha Hsort Hst1 Hpres Hroots Hbelow.
  destruct (sort_arr_sorts st st1 a d sorted Hst Ha Hsort) as (Hby & Hread & Hp1 & Hr1).
  assert (Hreach : forall y j c, In y order -> up j y = Some c -> In c sorted ->
                                 kids_sorted st' y).
  { intros y j c Hy Hup Hc. destruct (Hbelow c Hc) as [Hc1 Hc2].
    destruct j as [|j].
    - simpl in Hup. now injection Hup as <-.
    - apply Hc2; eauto. }
  split; [auto|]. split.
  - destruct a as [|l]; simpl in *.
    + injection Hread as E. now rewrite Hroots, E.
    + split; [rewrite Hroots; now apply (Hr1 l)|].
      apply Hpres. intros n Hn. rewrite Hn in Hread. now injection Hread as ->.
  - intros y Hy Hb. destruct Hst1 as ((Hinv1 & Hkids1) & Hroots1).
    destruct a as [|l]; unfold below in Hb; simpl in Hread.
    + destruct Hb as (j & r & Hup & Hr).
      apply (Hreach y j r Hy Hup). injection Hread as <-.
      apply (Permutation_in _ (Permutation_sym Hroots1)). apply roots_in_spec.
      split; [eapply up_in_order; eauto|exact Hr].
    + destruct Hb as (j & Hup).
      replace (S j) with (j + 1)%nat in Hup by lia.
      rewrite (up_add h1 m) in Hup.
      destruct (up j y) as [c|] eqn:Hc; [|discriminate].
      simpl in Hup. destruct (par c) as [p|] eqn:Hp; [|discriminate].
      injection Hup as ->.
      apply (Hreach y j c Hy Hc).
      destruct Ha as (Hl & _).
      destruct (read_node (st_heap st1) l) as [n|] eqn:Hn; [|discriminate].
      injection Hread as <-.
      apply (Permutation_in _ (Permutation_sym (Hkids1 l n Hl Hn))).
      apply kids_in_spec. split; [eapply up_in_order; eauto|exact Hp].
Qed.

Lemma sortChildren_sorts (k : nat) :
  forall (d : nat) (st st' : state) (a : aref),
    sorted_inv st -> arr_level a d -> (length order <= d + k)%nat ->
    sortChildren (S k) st a = Some st' ->
    sorts a st st'.
Proof.
  induction k as [|k IH]; intros d st st' a Hst Ha Hfuel Hrun.
  - destruct (sort_arr_ok h1 m m_nodes st a d Hst Ha) as (st1 & sorted & Hsort & Hst1 & Hlev).
    cbn [sortChildren] in Hrun. rewrite Hsort in Hrun.
    destruct sorted as [|x sorted].
    + simpl in Hrun. injection Hrun as <-.
      apply (sorts_finish st st1 st1 a d [] Hst Ha Hsort Hst1); auto.
      intros x [].
    + destruct (Hlev x) as [Hx Hlx]; [now left|].
      pose proof (level_bound h1 m d x Hlx Hx). lia.
  - destruct (sort_arr_ok h1 m m_nodes st a d Hst Ha) as (st1 & sorted & Hsort & Hst1 & Hlev).
    change (sortChildren (S (S k)) st a)
      with (match sort_arr st a with
            | Some (st1, sorted) =>
                fold_left (fun acc l =>
                             match acc with
                             | Some s => sortChildren (S k) s (AChildren l)
                             | None => None
                             end) sorted (Some st1)
            | None => None
            end) in Hrun.
    rewrite Hsort in Hrun.
    assert (Hfold :
      (forall l, kids_sorted st1 l -> kids_sorted st' l)
      /\ rootSpans st' = rootSpans st1
      /\ forall x, In x sorted ->
           kids_sorted st' x
           /\ forall y, In y order -> (exists j, up (S j) y = Some x) -> kids_sorted st' y).
    { clear Hsort Hst Ha. revert st1 Hst1 Hrun.
      induction sorted as [|x sorted IHs]; intros st1 Hst1 Hrun.
      - simpl in Hrun. injection Hrun as <-.
        split; [auto|]. split; [reflexivity|]. intros z [].
      - cbn [fold_left] in Hrun.
        destruct (Hlev x) as [Hx Hlx]; [now left|].
        assert (Hax : arr_level (AChildren x) (S d)).
        { split; [assumption|]. now exists d. }
        destruct (sortChildren_ok h1 m m_nodes k (S d) st1 (AChildren x) Hst1 Hax)
          as (st2 & Hrun2 & Hst2); [lia|].
        rewrite Hrun2 in Hrun.
        destruct (IH (S d) st1 st2 (AChildren x) Hst1 Hax ltac:(lia) Hrun2)
          as (Hp2 & (Hr2 & Hx2) & Hb2).
        destruct (IHs ltac:(intros y Hy; apply Hlev; now right) st2 Hst2 Hrun)
          as (Hp' & Hr' & Hb').
        split; [auto|]. split; [congruence|].
        intros z [<-|Hz]; [|now apply Hb'].
        split; [now apply Hp'|]. intros y Hy Hyb. apply Hp'. now apply Hb2. }
    destruct Hfold as (Hp & Hr & Hb).
    now apply (sorts_finish st st1 st' a d sorted Hst Ha Hsort Hst1).
Qed.

End SiblingOrder.

Lemma StronglySorted_unmap {A B : Type} (R : B -> B -> Prop) (R' : A -> A -> Prop)
    (g : A -> B) (l : list A) :
  (forall x y, In x l -> In y l -> R (g x) (g y) -> R' x y) ->
  StronglySorted R (map g l) -> StronglySorted R' l.
Proof.
  induction l as [|a l IH]; intros HR Hs; [constructor|].
  simpl in Hs. apply StronglySorted_inv in Hs. destruct Hs as [Hs Ha].
  constructor.
  - apply IH; [|exact Hs]. intros x y Hx Hy. apply HR; now right.
  - apply List.Forall_forall. intros y Hy. apply HR; [now left|now right|].
    rewrite List.Forall_forall in Ha. apply Ha. now apply List.in_map.
Qed.

(** The order of the roots and of every [children] array of the forest. *)
Lemma forest_sorted (h : heap) (spans : list loc) (ss : list TraceSpan) :
  mapM (read_span h) spans = Some ss ->
  exists f,
    spanTree h spans = Some f
    /\ sorted_by_start f
    /\ (forall n, In n (forest_nodes f) -> sorted_by_start (node_kids n))
    /\ (forall n, In n (forest_nodes f) ->
          startMs (node_ts n) = start_time (ts_span (node_ts n)) - minTime ss).
Proof.
  intros Hss. destruct spans as [|l0 spans].
  { exists []. split; [apply spanTree_nil|]. split; [constructor|].
    split; intros n []. }
  destruct (spanTree_stages h _ ss Hss) as (st0 & st & f & Hfold & Hatt & Hsort & Hf
                                            & Hinv & Hall & Hrefs); [discriminate|].
  exists f. split; [exact Hf|].
  set (h1 := heap1 h ss (minTime ss)) in *. set (m := index1 h ss) in *.
  pose proof (index1_nodes h ss (minTime ss)) as Hnodes. fold h1 m in Hnodes.
  pose proof (index1_vals h ss (minTime ss)) as Hvals. fold m in Hvals.
  assert (Hlen : (length (order m) <= 0 + length (l0 :: spans))%nat).
  { unfold order. rewrite length_map. pose proof (index1_length h ss) as Hl.
    now rewrite (mapM_length _ _ _ Hss) in Hl. }
  destruct (sortChildren_sorts h1 m Hnodes (length (l0 :: spans)) 0%nat st0 st ARoots)
    as (_ & Hroots & Hbelow); auto.
  { now apply attached_sorted_inv. }
  { reflexivity. }
  pose proof (forest_node_facts h ss st f) as Hfacts. fold h1 m in Hfacts.
  assert (Hnode : forall n, In n (forest_nodes f) ->
            In (node_ref n) (order m)
            /\ (exists d, level h1 m d (node_ref n))
            /\ start_at h1 (node_ref n) = startMs (node_ts n)
            /\ startMs (node_ts n) = start_time (ts_span (node_ts n)) - minTime ss).
  { intros n Hn. destruct (Hfacts n Hinv Hall Hrefs Hn) as (Hget & _ & Hlev & _).
    pose proof (get_in_order h ss _ _ Hget) as Hord. fold m in Hord.
    split; [exact Hord|]. split; [exact Hlev|].
    pose proof (reified_read _ _ (forest_nodes_reified _ f n Hall Hn)) as Hread.
    destruct Hinv as ((Hi & _) & _).
    destruct (inv_node h1 m Hnodes _ _ Hi Hord) as (n1 & n' & Hn1 & Hn' & Hts & Hs & _).
    assert (n' = node_ts n) by congruence. subst n'.
    apply map_get_In in Hget.
    destruct (index1_entry h ss (minTime ss) _ _ Hget) as (s & _ & _ & Hr & _).
    fold h1 in Hr. assert (n1 = timelineSpan (minTime ss) s) by congruence. subst n1.
    split.
    - unfold start_at. now rewrite Hn1.
    - rewrite Hs, Hts. reflexivity. }
  assert (Hconv : forall l : list SpanNode,
            (forall n, In n l -> In n (forest_nodes f)) ->
            by_start h1 (map node_ref l) -> sorted_by_start l).
  { intros l Hl. apply StronglySorted_unmap. intros x y Hx Hy Hxy.
    destruct (Hnode x (Hl x Hx)) as (_ & _ & <- & _).
    destruct (Hnode y (Hl y Hy)) as (_ & _ & <- & _). exact Hxy. }
  split; [|split].
  - apply Hconv; [apply roots_are_nodes|]. rewrite Hrefs. exact Hroots.
  - intros n Hn. apply Hconv; [intros c Hc; eapply forest_nodes_kid; eauto|].
    destruct (Hnode n Hn) as (Hord & Hlev & _).
    pose proof (forest_nodes_reified _ f n Hall Hn) as Hre.
    destruct Hre as [r ts kids Hread Hkids _]. simpl in *. rewrite Hkids.
    now apply (Hbelow r Hord Hlev ts).
  - intros n Hn. now destruct (Hnode n Hn) as (_ & _ & _ & ?).
Qed.

(** X18: the roots of the forest and the children of each of its nodes are
    in ascending order of [startMs], which is the start of the span
    relative to the earliest start of the input. *)
Theorem X18_siblings_in_start_order (h : heap) (spans : list loc) (ss : list TraceSpan) :
  mapM (read_span h) spans = Some ss ->
  exists f,
    spanTree h spans = Some f
    /\ sorted_by_start f
    /\ (forall n, In n (forest_nodes f) -> sorted_by_start (node_kids n))
    /\ (forall n, In n (forest_nodes f) ->
          startMs (node_ts n) = start_time (ts_span (node_ts n)) - minTime ss).
Proof. apply forest_sorted. Qed.

Lemma X18_siblings_in_start_order_witness :
  exists f,
    spanTree sibling_heap [2%nat; 3%nat; 4%nat; 5%nat] = Some f
    /\ map node_id f = ["Q"; "R"]
    /\ flat_map (fun n => map node_id (node_kids n)) f = ["A"; "B"]
    /\ sorted_by_start f
    /\ (forall n, In n (forest_nodes f) -> sorted_by_start (node_kids n)).
Proof.
  destruct (X18_siblings_in_start_order sibling_heap [2%nat; 3%nat; 4%nat; 5%nat] _
              eq_refl) as (f & Hf & Hs & Hk & _).
  exists f. split; [exact Hf|].
  assert (Hf' : spanTree sibling_heap [2%nat; 3%nat; 4%nat; 5%nat] = Some f) by exact Hf.
  vm_compute in Hf'. injection Hf' as Hf'.
  split; [rewrite <- Hf'; reflexivity|]. split; [rewrite <- Hf'; reflexivity|].
  split; [exact Hs|exact Hk].
Defined.

(** ** Rows of the trace graph *)

Lemma level_id_root (ss : list TraceSpan) (d : nat) (k : string) :
  parent_id ss k = None -> level_id ss d k -> d = 0%nat.
Proof.
  intros Hp (r & Ha & _). destruct d as [|d]; [reflexivity|].
  simpl in Ha. now rewrite Hp in Ha.
Qed.

Lemma level_id_parent (ss : list TraceSpan) (d : nat) (k p : string) :
  parent_id ss k = Some p -> level_id ss d k -> exists d', d = S d' /\ level_id ss d' p.
Proof.
  intros Hp (r & Ha & Hr). destruct d as [|d].
  - simpl in Ha. injection Ha as <-. congruence.
  - exists d. split; [reflexivity|]. simpl in Ha. rewrite Hp in Ha. now exists r.
Qed.

Lemma level_id_child (ss : list TraceSpan) (d : nat) (k p : string) :
  parent_id ss k = Some p -> level_id ss d p -> level_id ss (S d) k.
Proof. intros Hp (r & Ha & Hr). exists r. simpl. now rewrite Hp. Qed.

Lemma level_id_unique (ss : list TraceSpan) (d : nat) :
  forall d' k, level_id ss d k -> level_id ss d' k -> d = d'.
Proof.
  induction d as [|d IH]; intros d' k H H'.
  - destruct H as (r & Ha & Hr). simpl in Ha. injection Ha as <-.
    symmetry. now apply (level_id_root ss d' k).
  - destruct (parent_id ss k) as [p|] eqn:Hp.
    + destruct (level_id_parent ss _ k p Hp H) as (d0 & [= ->] & H0).
      destruct (level_id_parent ss _ k p Hp H') as (d1 & -> & H1).
      f_equal. now apply (IH d1 p).
    + now apply (level_id_root ss _ k Hp) in H.
Qed.

Lemma level_id_bound (ss : list TraceSpan) (d : nat) (k : string) :
  indexed ss k -> level_id ss d k -> (d < length ss)%nat.
Proof.
  intros Hi Hl. apply (indexed_get [] ss) in Hi. destruct Hi as (l & Hl').
  apply (level_id_loc [] ss 0 d k l Hl') in Hl.
  pose proof (level_bound _ _ d l Hl (get_in_order [] ss k l Hl')) as Hb.
  pose proof (index1_length [] ss) as Hlen.
  unfold order in Hb. rewrite length_map in Hb. lia.
Qed.

Lemma on_cycle_no_level_id (ss : list TraceSpan) (k : string) (d : nat) :
  on_cycle ss k -> ~ level_id ss d k.
Proof.
  intros Hc Hl.
  assert (Hi : indexed ss k).
  { destruct Hc as (j & Hj & Ha). destruct j as [|j]; [lia|]. simpl in Ha.
    destruct (parent_id ss k) as [p|] eqn:Hp; [|discriminate].
    now apply (parent_id_indexed ss k p). }
  apply (indexed_get [] ss) in Hi. destruct Hi as (l & Hl').
  apply (level_id_loc [] ss 0 d k l Hl') in Hl.
  exact (on_cycle_no_level [] ss 0 k l d Hc Hl' Hl).
Qed.

Lemma find_last_nodup (ss : list TraceSpan) (s : TraceSpan) :
  List.NoDup (map span_id ss) -> In s ss -> find_last (span_id s) ss = Some s.
Proof.
  induction ss as [|x ss IH]; intros Hnd Hin; [destruct Hin|].
  simpl in Hnd. apply List.NoDup_cons_iff in Hnd. destruct Hnd as [Hx Hnd].
  simpl. destruct Hin as [->|Hin].
  - destruct (find_last (span_id s) ss) as [s'|] eqn:E.
    + apply find_last_In in E. destruct E as [E1 E2]. exfalso. apply Hx.
      rewrite <- E2. now apply List.in_map.
    + now rewrite String.eqb_refl.
  - now rewrite (IH Hnd Hin).
Qed.

Lemma byId_get_nodes (k : string) (ss : list TraceSpan) :
  TraceGraph.byId_get k (TraceGraph.nodes ss)
  = option_map TraceGraph.node_of (find_last k ss).
Proof.
  induction ss as [|s ss IH]; simpl; [reflexivity|]. rewrite IH.
  destruct (find_last k ss); simpl; [reflexivity|].
  now destruct (String.eqb k (span_id s)).
Qed.

Section GraphDepth.

Variable ss : list TraceSpan.
Hypothesis ids_nodup : List.NoDup (map span_id ss).

Local Abbreviation nodes := (TraceGraph.nodes ss).

(** The test [!n.parent || !byId.has(n.parent)] decides whether the span
    has a resolved parent. *)
Lemma graph_parent (s : TraceSpan) :
  In s ss ->
  parent_id ss (span_id s)
  = match truthy (parent_span_id s) with
    | Some p => match TraceGraph.byId_get p nodes with Some _ => Some p | None => None end
    | None => None
    end.
Proof.
  intros Hs. unfold parent_id. rewrite (find_last_nodup ss s ids_nodup Hs).
  destruct (truthy (parent_span_id s)) as [p|]; [|reflexivity].
  rewrite byId_get_nodes. now destruct (find_last p ss).
Qed.

(** What [depth] returns is the nesting level, and the memo table stays
    right. *)
Lemma depth_sound (fuel : nat) :
  forall s dm d dm',
    In s ss -> memo_ok ss dm ->
    TraceGraph.depth fuel nodes dm (TraceGraph.node_of s) = Some (d, dm') ->
    level_id ss d (span_id s) /\ memo_ok ss dm'.
Proof.
  induction fuel as [|fuel IH]; intros s dm d dm' Hs Hdm H; [discriminate|].
  pose proof (graph_parent s Hs) as Hp.
  cbn [TraceGraph.depth TraceGraph.node_of TraceGraph.n_parent TraceGraph.n_id] in H.
  destruct (truthy (parent_span_id s)) as [p|].
  - rewrite byId_get_nodes in *.
    destruct (find_last p ss) as [sp|] eqn:Hsp; simpl in *.
    + destruct (dm !! span_id s) as [d0|] eqn:Hmemo.
      * injection H as <- <-. split; [now apply Hdm|exact Hdm].
      * destruct (TraceGraph.depth fuel nodes dm (TraceGraph.node_of sp))
          as [[dp dm1]|] eqn:Hrec; [|discriminate].
        injection H as <- <-.
        destruct (find_last_In p ss sp Hsp) as [Hin Hid].
        destruct (IH sp dm dp dm1 Hin Hdm Hrec) as [Hlev Hdm1].
        rewrite Hid in Hlev.
        assert (Hl : level_id ss (S dp) (span_id s)) by (eapply level_id_child; eauto).
        split; [exact Hl|]. intros k d Hk.
        destruct (decide (k = span_id s)) as [->|Hne].
        -- rewrite lookup_insert_eq in Hk. now injection Hk as <-.
        -- rewrite lookup_insert_ne in Hk by congruence. now apply Hdm1.
    + injection H as <- <-. split; [|exact Hdm]. exists (span_id s). now split.
  - injection H as <- <-. split; [|exact Hdm]. exists (span_id s). now split.
Qed.

(** [depth] returns for a span with a nesting level. *)
Lemma depth_returns (fuel : nat) :
  forall s dm d,
    In s ss -> memo_ok ss dm -> level_id ss d (span_id s) -> (d < fuel)%nat ->
    exists r, TraceGraph.depth fuel nodes dm (TraceGraph.node_of s) = Some r.
Proof.
  induction fuel as [|fuel IH]; intros s dm d Hs Hdm Hl Hf; [lia|].
  pose proof (graph_parent s Hs) as Hp.
  cbn [TraceGraph.depth TraceGraph.node_of TraceGraph.n_parent TraceGraph.n_id].
  destruct (truthy (parent_span_id s)) as [p|]; [|eauto].
  rewrite byId_get_nodes in *.
  destruct (find_last p ss) as [sp|] eqn:Hsp; simpl in *; [|eauto].
  destruct (dm !! span_id s) as [d0|]; [eauto|].
  destruct (find_last_In p ss sp Hsp) as [Hin Hid].
  destruct (level_id_parent ss d _ p Hp Hl) as (d' & -> & Hl').
  rewrite <- Hid in Hl'.
  destruct (IH sp dm d' Hin Hdm Hl' ltac:(lia)) as ([dp dm1] & ->). eauto.
Qed.

(** [depth] does not return for a span without a nesting level. *)
Lemma depth_diverges (fuel : nat) :
  forall s dm,
    In s ss -> memo_ok ss dm -> (forall d, ~ level_id ss d (span_id s)) ->
    TraceGraph.depth fuel nodes dm (TraceGraph.node_of s) = None.
Proof.
  intros s dm Hs Hdm Hno.
  destruct (TraceGraph.depth fuel nodes dm (TraceGraph.node_of s)) as [[d dm']|] eqn:E;
    [|reflexivity].
  destruct (depth_sound fuel s dm d dm' Hs Hdm E) as [Hl _]. now apply Hno in Hl.
Qed.

Lemma rows_from_sound (fuel : nat) (l : list TraceSpan) :
  forall dm ds dm',
    (forall s, In s l -> In s ss) -> memo_ok ss dm ->
    TraceGraph.rows_from fuel nodes dm (TraceGraph.nodes l) = Some (ds, dm') ->
    Forall2 (fun s d => level_id ss d (span_id s)) l ds.
Proof.
  induction l as [|s l IH]; intros dm ds dm' Hl Hdm H.
  - simpl in H. injection H as <- _. constructor.
  - change (TraceGraph.nodes (s :: l))
      with (TraceGraph.node_of s :: TraceGraph.nodes l) in H.
    cbn [TraceGraph.rows_from] in H.
    destruct (TraceGraph.depth fuel nodes dm (TraceGraph.node_of s))
      as [[d dm1]|] eqn:Hd; [|discriminate].
    destruct (TraceGraph.rows_from fuel nodes dm1 (TraceGraph.nodes l))
      as [[ds' dm2]|] eqn:Hr; [|discriminate].
    injection H as <- <-.
    destruct (depth_sound fuel s dm d dm1 (Hl s (or_introl eq_refl)) Hdm Hd) as [Hlev Hdm1].
    constructor; [exact Hlev|].
    apply (IH dm1 ds' dm2); auto. intros s' Hs'. apply Hl. now right.
Qed.

Lemma rows_from_returns (fuel : nat) (l : list TraceSpan) :
  forall dm,
    (forall s, In s l -> In s ss /\ exists d, level_id ss d (span_id s) /\ (d < fuel)%nat) ->
    memo_ok ss dm ->
    exists r, TraceGraph.rows_from fuel nodes dm (TraceGraph.nodes l) = Some r.
Proof.
  induction l as [|s l IH]; intros dm Hl Hdm; [simpl; eauto|].
  change (TraceGraph.nodes (s :: l))
    with (TraceGraph.node_of s :: TraceGraph.nodes l).
  cbn [TraceGraph.rows_from].
  destruct (Hl s (or_introl eq_refl)) as (Hs & d & Hd & Hf).
  destruct (depth_returns fuel s dm d Hs Hdm Hd Hf) as ([d' dm1] & Hdep).
  rewrite Hdep.
  destruct (depth_sound fuel s dm d' dm1 Hs Hdm Hdep) as [_ Hdm1].
  destruct (IH dm1) as ([ds dm2] & Hr); auto.
  - intros s' Hs'. apply Hl. now right.
  - rewrite Hr. eauto.
Qed.

Lemma rows_from_diverges (fuel : nat) (l : list TraceSpan) :
  forall dm s,
    (forall s, In s l -> In s ss) -> memo_ok ss dm ->
    In s l -> (forall d, ~ level_id ss d (span_id s)) ->
    TraceGraph.rows_from fuel nodes dm (TraceGraph.nodes l) = None.
Proof.
  induction l as [|x l IH]; intros dm s Hl Hdm Hs Hno; [destruct Hs|].
  change (TraceGraph.nodes (x :: l))
    with (TraceGraph.node_of x :: TraceGraph.nodes l).
  cbn [TraceGraph.rows_from].
  destruct (TraceGraph.depth fuel nodes dm (TraceGraph.node_of x))
    as [[d dm1]|] eqn:Hd; [|reflexivity].
  destruct (depth_sound fuel x dm d dm1 (Hl x (or_introl eq_refl)) Hdm Hd) as [Hlev Hdm1].
  destruct Hs as [->|Hs]; [now apply Hno in Hlev|].
  rewrite (IH dm1 s); auto. intros s' Hs'. apply Hl. now right.
Qed.

End GraphDepth.

Lemma memo_ok_empty (ss : list TraceSpan) : memo_ok ss ∅.
Proof. intros k d H. now rewrite lookup_empty in H. Qed.

(** X19: in the trace graph (span ids pairwise distinct) the row of a span
    is its nesting level, whatever the order of the spans: when every span
    has one, [rows] returns the levels; when the parent links of some span
    run into a cycle, the recursion of [depth] never returns, whatever the
    depth allowed. *)
Theorem X19_graph_rows_are_levels (ss : list TraceSpan) :
  List.NoDup (map span_id ss) ->
  ((forall s, In s ss -> exists d, level_id ss d (span_id s)) ->
   exists ds,
     TraceGraph.rows (S (length ss)) (TraceGraph.nodes ss) = Some ds
     /\ Forall2 (fun s d => level_id ss d (span_id s)) ss ds)
  /\ (forall s, In s ss -> on_cycle ss (span_id s) ->
      forall fuel, TraceGraph.rows fuel (TraceGraph.nodes ss) = None).
Proof.
  intros Hnd. split.
  - intros Hall.
    destruct (rows_from_returns ss Hnd (S (length ss)) ss ∅) as ([ds dm] & Hr).
    + intros s Hs. split; [exact Hs|]. destruct (Hall s Hs) as (d & Hd).
      exists d. split; [exact Hd|].
      assert (d < length ss)%nat; [|lia].
      apply (level_id_bound ss d (span_id s)); [|exact Hd].
      exists s. now apply find_last_nodup.
    + apply memo_ok_empty.
    + exists ds. unfold TraceGraph.rows. rewrite Hr. split; [reflexivity|].
      apply (rows_from_sound ss Hnd (S (length ss)) ss ∅ ds dm); auto.
      apply memo_ok_empty.
  - intros s Hs Hc fuel. unfold TraceGraph.rows.
    rewrite (rows_from_diverges ss Hnd fuel ss ∅ s); auto.
    + apply memo_ok_empty.
    + intros d. now apply on_cycle_no_level_id.
Qed.

Lemma X19_graph_rows_are_levels_witness :
  TraceGraph.rows 4 (TraceGraph.nodes
                       [span_of "C" (Some "B") 20 30; span_of "B" (Some "A") 10 40;
                        span_of "A" None 0 100])
  = Some [2%nat; 1%nat; 0%nat]
  /\ forall fuel, TraceGraph.rows fuel (TraceGraph.nodes [span_of "X" (Some "X") 20 30])
                  = None.
Proof.
  split.
  - reflexivity.
  - apply (X19_graph_rows_are_levels [span_of "X" (Some "X") 20 30]) with
      (s := span_of "X" (Some "X") 20 30).
    + simpl. repeat constructor. intros [].
    + now left.
    + exists 1%nat. split; [lia|reflexivity].
Defined.

(** ** Time scale of the trace graph *)

Lemma ratio_mono (a a' b c : Z) :
  0 < b -> 0 <= c -> a <= a' ->
  (inject_Z a / inject_Z b * inject_Z c <= inject_Z a' / inject_Z b * inject_Z c)%Q.
Proof.
  intros Hb Hc Ha.
  assert (Hb' : (0 < inject_Z b)%Q) by (now rewrite (Zlt_Qlt 0 b) in Hb).
  assert (Hc' : (0 <= inject_Z c)%Q) by (now rewrite (Zle_Qle 0 c) in Hc).
  apply Qmult_le_compat_r; [|exact Hc'].
  unfold Qdiv. apply Qmult_le_compat_r.
  - now rewrite <- Zle_Qle.
  - apply Qlt_le_weak, Qinv_lt_0_compat, Hb'.
Qed.

Lemma node_in_bounds (ns : list TraceGraph.Node) (n : TraceGraph.Node) :
  In n ns ->
  fst (TraceGraph.timeBounds ns) <= TraceGraph.n_start n
  /\ TraceGraph.n_end n <= snd (TraceGraph.timeBounds ns).
Proof.
  destruct ns as [|n0 ns]; [intros []|]. intros Hin. simpl.
  destruct (min_list_le (TraceGraph.n_start n0) (map TraceGraph.n_start ns)) as [m1 m2].
  destruct (max_list_ge (TraceGraph.n_end n0) (map TraceGraph.n_end ns)) as [M1 M2].
  destruct Hin as [<-|Hin]; [lia|].
  specialize (m2 _ (in_map TraceGraph.n_start _ _ Hin)).
  specialize (M2 _ (in_map TraceGraph.n_end _ _ Hin)). lia.
Qed.

(** X20: the time scale of the trace graph divides by
    [Math.max(1, max - min)], so every bar is placed with finite numbers,
    also when all spans start and end at the same instant: the width is at
    least 2, the bar starts at or after the left padding, and a span that
    does not end before it starts ends at or before the right padding. *)
Theorem X20_graph_scale_finite (ns : list TraceGraph.Node) (n : TraceGraph.Node)
    (width : Z) :
  In n ns ->
  let bounds := TraceGraph.timeBounds ns in
  exists x1 x2 w,
    TraceGraph.scaleX bounds width (TraceGraph.n_start n) = JFin x1
    /\ TraceGraph.scaleX bounds width (TraceGraph.n_end n) = JFin x2
    /\ TraceGraph.barW bounds width n = JFin w
    /\ (2 <= w)%Q
    /\ (TraceGraph.padLeft + TraceGraph.padRight <= width ->
        (inject_Z TraceGraph.padLeft <= x1)%Q
        /\ (TraceGraph.n_start n <= TraceGraph.n_end n ->
            (x1 <= x2)%Q /\ (x2 <= inject_Z (width - TraceGraph.padRight))%Q)).
Proof.
  intros Hin bounds. destruct (node_in_bounds ns n Hin) as [Hlo Hhi].
  fold bounds in Hlo, Hhi.
  unfold TraceGraph.barW, TraceGraph.scaleX.
  set (lo := fst bounds) in *. set (hi := snd bounds) in *.
  set (r := Z.max 1 (hi - lo)).
  assert (Hr : 0 < r) by (unfold r; lia).
  rewrite !js_ratio by exact Hr.
  unfold TraceGraph.padLeft, TraceGraph.padRight in *.
  set (W := width - 80 - 20).
  set (o1 := (inject_Z (TraceGraph.n_start n - lo) / inject_Z r * inject_Z W)%Q).
  set (o2 := (inject_Z (TraceGraph.n_end n - lo) / inject_Z r * inject_Z W)%Q).
  unfold js_of_Z, js_add, js_sub, js_max, js_le.
  set (dx := (inject_Z 80 + o2 - (inject_Z 80 + o1))%Q).
  exists (inject_Z 80 + o1)%Q, (inject_Z 80 + o2)%Q,
    (if Qle_bool (inject_Z 2) dx then dx else inject_Z 2).
  split; [reflexivity|]. split; [reflexivity|]. split.
  { now destruct (Qle_bool (inject_Z 2) dx). }
  split.
  { destruct (Qle_bool (inject_Z 2) dx) eqn:E; [now apply Qle_bool_iff|apply Qle_refl]. }
  intros Hw.
  assert (HW : 0 <= W) by (unfold W; lia).
  split.
  - eapply Qle_trans; [|apply Qplus_le_r;
      apply (ratio_bounds (TraceGraph.n_start n - lo) r W Hr HW); lia].
    rewrite Qplus_0_r. apply Qle_refl.
  - intros Hse. split.
    + apply Qplus_le_r. apply ratio_mono; auto; lia.
    + eapply Qle_trans; [apply Qplus_le_r;
        apply (ratio_bounds (TraceGraph.n_end n - lo) r W Hr HW); unfold r; lia|].
      rewrite <- inject_Z_plus, <- Zle_Qle. unfold W. lia.
Qed.

Lemma X20_graph_scale_finite_witness :
  exists x1, TraceGraph.scaleX (TraceGraph.timeBounds (TraceGraph.nodes [instant_span]))
               1200 (TraceGraph.n_start (TraceGraph.node_of instant_span)) = JFin x1.
Proof.
  destruct (X20_graph_scale_finite (TraceGraph.nodes [instant_span])
              (TraceGraph.node_of instant_span) 1200) as (x1 & _ & _ & H & _).
  - now left.
  - now exists x1.
Defined.

(** ** The span timeline of [ImprovedTraceView] *)

Import ImprovedTraceView.

Lemma map_imap_id {A B : Type} (g : B -> A) (l : list A) :
  forall F : nat -> A -> B, (forall i a, g (F i a) = a) -> map g (imap F l) = l.
Proof.
  induction l as [|x l IH]; intros F HF; simpl; [reflexivity|].
  rewrite HF. f_equal. apply IH. intros i a. apply HF.
Qed.

Lemma in_imap {A B : Type} (l : list A) :
  forall (F : nat -> A -> B) (y : B),
    In y (imap F l) -> exists i a, y = F i a /\ In a l /\ l !! i = Some a.
Proof.
  induction l as [|x l IH]; intros F y Hy; simpl in Hy; [destruct Hy|].
  destruct Hy as [<-|Hy].
  - exists 0%nat, x. repeat split. now left.
  - destruct (IH _ y Hy) as (i & a & -> & Ha & Hi). exists (S i), a.
    repeat split; [now right|exact Hi].
Qed.

Lemma imap_sorted {A B : Type} (R : A -> A -> Prop) (R' : B -> B -> Prop) (l : list A) :
  forall F : nat -> A -> B,
    (forall i j a b, R a b -> R' (F i a) (F j b)) ->
    StronglySorted R l -> StronglySorted R' (imap F l).
Proof.
  induction l as [|x l IH]; intros F HF Hs; simpl; [constructor|].
  apply StronglySorted_inv in Hs. destruct Hs as [Hs Hx]. constructor.
  - apply IH; [|exact Hs]. intros i j a b. apply HF.
  - apply List.Forall_forall. intros y Hy.
    destruct (in_imap l _ y Hy) as (i & a & -> & Ha & _).
    apply HF. rewrite List.Forall_forall in Hx. now apply Hx.
Qed.

Lemma timelineData_eq (selected : string) (spans : list TraceSpan) :
  selected <> "" ->
  timelineData (Some selected) spans
  = match sort_by start_cmp
            (List.filter (fun s => String.eqb (trace_id s) selected) spans) with
    | [] => []
    | first :: rest => imap (timeline_item (start_time first)) (first :: rest)
    end.
Proof.
  intros Hne. unfold timelineData.
  assert (Ht : truthy (Some selected) = Some selected).
  { destruct selected; [congruence|reflexivity]. }
  rewrite Ht. destruct spans as [|s spans]; [reflexivity|].
  cbv zeta. unfold start_cmp, timeline_item.
  generalize (sort_by (fun a b : TraceSpan => start_time a - start_time b)
                (List.filter (fun span => String.eqb (trace_id span) selected)
                   (s :: spans))).
  intros [|first rest]; reflexivity.
Qed.

(** The rows of the timeline of a selected trace. *)
Lemma timeline_rows (selected : string) (spans : list TraceSpan) (i : nat)
    (item : TimelineItem) :
  timelineData (Some selected) spans !! i = Some item ->
  exists first rest s,
    sort_by start_cmp (List.filter (fun s => String.eqb (trace_id s) selected) spans)
    = first :: rest
    /\ timelineData (Some selected) spans
       = imap (timeline_item (start_time first)) (first :: rest)
    /\ item = timeline_item (start_time first) i s
    /\ (first :: rest) !! i = Some s
    /\ In s spans /\ trace_id s = selected
    /\ start_time first <= start_time s.
Proof.
  intros Hi.
  assert (Hne : selected <> "").
  { intros ->. destruct spans; discriminate. }
  rewrite (timelineData_eq selected spans Hne) in *.
  set (of_trace := List.filter (fun s => String.eqb (trace_id s) selected) spans) in *.
  destruct (sort_by start_cmp of_trace) as [|first rest] eqn:Hs; [discriminate|].
  rewrite list_lookup_imap in Hi.
  destruct ((first :: rest) !! i) as [s|] eqn:Hl; [|discriminate].
  simpl in Hi. injection Hi as <-.
  exists first, rest, s.
  assert (Hs_in : In s (first :: rest)).
  { apply list_elem_of_In. eapply list_elem_of_lookup_2; eauto. }
  assert (Hof : In s of_trace).
  { rewrite <- Hs in Hs_in. now apply (Permutation_in _ (sort_by_perm start_cmp of_trace)). }
  apply List.filter_In in Hof. destruct Hof as [Hin Heq].
  repeat split; auto.
  - now apply String.eqb_eq.
  - pose proof (sort_by_sorted start_cmp) as Hsorted.
    specialize (Hsorted ltac:(unfold start_cmp; intros; lia)
                        ltac:(unfold start_cmp; intros; lia) of_trace).
    rewrite Hs in Hsorted. apply StronglySorted_inv in Hsorted.
    destruct Hsorted as [_ Hall]. destruct Hs_in as [<-|Hr]; [lia|].
    rewrite List.Forall_forall in Hall. specialize (Hall s Hr).
    unfold cmp_le, start_cmp in Hall. lia.
Qed.

(** X21: the timeline of the selected trace has one row for each span of
    that trace, in ascending order of start (spans starting together keep
    their input order); rows are numbered from 0 and labelled from 1;
    offsets are relative to the earliest start, so the first row starts at 0
    and no row before it; the length of a row is the duration of its span.
    Without a selected trace the timeline is empty. *)
Theorem X21_timeline_rows (selected : string) (spans : list TraceSpan) :
  let data := timelineData (Some selected) spans in
  let of_trace := List.filter (fun s => String.eqb (trace_id s) selected) spans in
  (selected <> "" ->
   Permutation (map i_span data) of_trace
   /\ forall k, List.filter (fun s => start_time s =? k) (map i_span data)
                = List.filter (fun s => start_time s =? k) of_trace)
  /\ StronglySorted (fun a b => startX a <= startX b) data
  /\ (forall i item, data !! i = Some item ->
        i_y item = i /\ i_order item = S i /\ 0 <= startX item
        /\ i_duration item = end_time (i_span item) - start_time (i_span item)
        /\ endX item = startX item + i_duration item)
  /\ (forall item rest, data = item :: rest -> startX item = 0)
  /\ timelineData None spans = []
  /\ timelineData (Some "") spans = [].
Proof.
  intros data of_trace.
  assert (Hsorted : StronglySorted (cmp_le start_cmp) (sort_by start_cmp of_trace)).
  { apply sort_by_sorted; unfold start_cmp; intros; lia. }
  split; [|split; [|split; [|split; [|split]]]].
  - intros Hne. unfold data. rewrite (timelineData_eq selected spans Hne).
    fold of_trace.
    assert (Hmap : map i_span
                     match sort_by start_cmp of_trace with
                     | [] => []
                     | first :: rest => imap (timeline_item (start_time first)) (first :: rest)
                     end
                   = sort_by start_cmp of_trace).
    { destruct (sort_by start_cmp of_trace) as [|first rest]; [reflexivity|].
      now apply map_imap_id. }
    rewrite Hmap. split; [apply sort_by_perm|].
    intros k. apply (sort_by_stable start_cmp start_time).
    unfold start_cmp. intros a b E. lia.
  - destruct (String.eqb_spec selected "") as [->|Hne].
    { unfold data. destruct spans; constructor. }
    unfold data. rewrite (timelineData_eq selected spans Hne). fold of_trace.
    destruct (sort_by start_cmp of_trace) as [|first rest]; [constructor|].
    apply (imap_sorted (cmp_le start_cmp)); [|exact Hsorted].
    unfold cmp_le, start_cmp. intros i j a b Hab. simpl. lia.
  - intros i item Hi.
    destruct (timeline_rows selected spans i item Hi)
      as (first & rest & s & Hs & Hdata & -> & Hi' & _ & _ & Hle).
    simpl. repeat split; lia.
  - intros item rest Hd.
    assert (Hi : data !! 0%nat = Some item) by (now rewrite Hd).
    destruct (timeline_rows selected spans 0%nat item Hi)
      as (first & rest' & s & Hs & Hdata & -> & Hi' & _).
    simpl in Hi'. injection Hi' as <-. simpl. lia.
  - reflexivity.
  - now destruct spans.
Qed.

Lemma X21_timeline_rows_witness :
  Permutation
    (map i_span (timelineData (Some "t1") [error_span; instant_span]))
    (List.filter (fun s => String.eqb (trace_id s) "t1") [error_span; instant_span]).
Proof.
  destruct (X21_timeline_rows "t1" [error_span; instant_span]) as [H _].
  now destruct H.
Defined.

Lemma js_ratio_q (a b : Z) (c : Q) :
  0 < b ->
  js_mul (js_div (js_of_Z a) (js_of_Z b)) (JFin c) = JFin (inject_Z a / inject_Z b * c).
Proof.
  intros Hb. unfold js_of_Z, js_div, js_mul, q_zero. simpl Qnum.
  destruct (Z.eqb_spec b 0); [lia|]. reflexivity.
Qed.

Lemma ratio_q (a a' b : Z) (c : Q) :
  0 < b -> (0 <= c)%Q ->
  (0 <= a -> (0 <= inject_Z a / inject_Z b * c)%Q)
  /\ (a <= b -> (inject_Z a / inject_Z b * c <= c)%Q)
  /\ (a <= a' -> (inject_Z a / inject_Z b * c <= inject_Z a' / inject_Z b * c)%Q).
Proof.
  intros Hb Hc.
  assert (Hb' : (0 < inject_Z b)%Q) by (now rewrite (Zlt_Qlt 0 b) in Hb).
  split; [|split]; intros Ha.
  - apply Qmult_le_0_compat; [|exact Hc].
    apply Qle_shift_div_l; [exact Hb'|]. rewrite Qmult_0_l.
    now rewrite (Zle_Qle 0 a) in Ha.
  - assert (H1 : (inject_Z a / inject_Z b <= 1)%Q).
    { apply Qle_shift_div_r; [exact Hb'|]. rewrite Qmult_1_l. now rewrite <- Zle_Qle. }
    eapply Qle_trans; [apply Qmult_le_compat_r; [exact H1|exact Hc]|].
    rewrite Qmult_1_l. apply Qle_refl.
  - apply Qmult_le_compat_r; [|exact Hc].
    unfold Qdiv. apply Qmult_le_compat_r.
    + now rewrite <- Zle_Qle.
    + apply Qlt_le_weak, Qinv_lt_0_compat, Hb'.
Qed.

Lemma maxTime_ge (data : list TimelineItem) (item : TimelineItem) :
  In item data -> endX item <= maxTime data.
Proof.
  destruct data as [|d ds]; [intros []|]. intros Hin. simpl.
  destruct (max_list_ge (endX d) (map endX ds)) as [M1 M2].
  destruct Hin as [<-|Hin]; [exact M1|]. apply M2. now apply List.in_map.
Qed.

(** X22: the bars of [TimelineGraph], for spans that do not end before they
    start. When some span of the selected trace ends after the first one
    starts, every bar is placed with finite numbers between the left padding
    and the right end of the chart, its end not before its start. When every
    span ends at the instant the first one starts (a trace of one
    instantaneous span, say), [maxTime] is 0 and both ends of every bar are
    [NaN]. *)
Theorem X22_timeline_bars (selected : string) (spans : list TraceSpan) (chartWidth : Q)
    (item : TimelineItem) :
  let data := timelineData (Some selected) spans in
  (forall s, In s spans -> trace_id s = selected -> start_time s <= end_time s) ->
  (0 <= chartWidth)%Q ->
  In item data ->
  0 <= startX item <= endX item
  /\ endX item <= maxTime data
  /\ (0 < maxTime data ->
      exists x1 x2,
        bar_x (maxTime data) chartWidth (startX item) = JFin x1
        /\ bar_x (maxTime data) chartWidth (endX item) = JFin x2
        /\ (inject_Z paddingLeft <= x1)%Q /\ (x1 <= x2)%Q
        /\ (x2 <= inject_Z paddingLeft + chartWidth)%Q)
  /\ (maxTime data = 0 ->
      bar_x (maxTime data) chartWidth (startX item) = JNaN
      /\ bar_x (maxTime data) chartWidth (endX item) = JNaN).
Proof.
  intros data Hwf Hc Hin.
  pose proof (maxTime_ge data item Hin) as Hmax.
  assert (Hi : exists i, data !! i = Some item).
  { apply list_elem_of_In in Hin. now apply list_elem_of_lookup_1 in Hin. }
  destruct Hi as (i & Hi).
  destruct (timeline_rows selected spans i item Hi)
    as (first & rest & s & _ & _ & Hitem & _ & Hs & Htid & Hle).
  specialize (Hwf s Hs Htid).
  assert (H0 : 0 <= startX item <= endX item) by (subst item; simpl; lia).
  split; [exact H0|]. split; [exact Hmax|]. split.
  - intros Hpos. unfold bar_x. rewrite !js_ratio_q by exact Hpos.
    destruct (ratio_q (startX item) (endX item) (maxTime data) chartWidth Hpos Hc)
      as (R0 & _ & Rm).
    destruct (ratio_q (endX item) (endX item) (maxTime data) chartWidth Hpos Hc)
      as (_ & R1 & _).
    eexists _, _. split; [reflexivity|]. split; [reflexivity|].
    unfold js_of_Z. split; [|split].
    + eapply Qle_trans; [|apply Qplus_le_r; apply R0; lia].
      rewrite Qplus_0_r. apply Qle_refl.
    + apply Qplus_le_r. apply Rm. lia.
    + apply Qplus_le_r. now apply R1.
  - intros Hz. rewrite Hz.
    assert (Hs0 : startX item = 0) by lia. assert (He0 : endX item = 0) by lia.
    rewrite Hs0, He0. split; reflexivity.
Qed.

Lemma X22_timeline_bars_witness :
  bar_x (maxTime (timelineData (Some "t1") [instant_span])) 770
        (startX (timeline_item (start_time instant_span) 0 instant_span)) = JNaN.
Proof.
  destruct (X22_timeline_bars "t1" [instant_span] 770
              (timeline_item (start_time instant_span) 0 instant_span)) as (_ & _ & _ & H).
  - intros s [<-|[]] _. vm_compute. discriminate.
  - vm_compute. discriminate.
  - now left.
  - now apply H.
Defined.

(** ** Traces grouped by session *)

Import SessionGroups.

Lemma of_session_snoc (k : string) (seen : list TraceSummary) (t : TraceSummary) :
  of_session k (seen ++ [t])
  = of_session k seen ++ (if bool_decide (sessionId t = Some k) then [t] else []).
Proof. unfold of_session. rewrite List.filter_app. reflexivity. Qed.

Lemma group_after_snoc (sums : list SessionSummary) (seen : list TraceSummary)
    (t : TraceSummary) (k : string) :
  group_after sums (seen ++ [t]) k
  = if bool_decide (sessionId t = Some k)
    then Some (let group := match group_after sums seen k with
                            | Some g => g
                            | None => {| session := session_for sums k t; traces := [] |}
                            end in
               {| session := session group; traces := traces group ++ [t] |})
    else group_after sums seen k.
Proof.
  unfold group_after. rewrite of_session_snoc.
  destruct (bool_decide (sessionId t = Some k)).
  - destruct (of_session k seen); reflexivity.
  - now rewrite app_nil_r.
Qed.

Lemma group_fold (sums : list SessionSummary) (rest : list TraceSummary) :
  forall (seen : list TraceSummary) (groups : gmap string Group),
    (forall t k, In t rest -> sessionId t = Some k ->
                 SpanAggregates.is_proto_name k = false) ->
    (forall k, groups !! k = group_after sums seen k) ->
    exists groups',
      fold_left (group_step sums) rest (Some groups) = Some groups'
      /\ forall k, groups' !! k = group_after sums (seen ++ rest) k.
Proof.
  induction rest as [|t rest IH]; intros seen groups Hok Hinv.
  - exists groups. split; [reflexivity|]. intros k. now rewrite app_nil_r.
  - cbn [fold_left].
    assert (Hstep : exists g1, group_step sums (Some groups) t = Some g1
                               /\ forall k, g1 !! k = group_after sums (seen ++ [t]) k).
    { unfold group_step. destruct (sessionId t) as [k0|] eqn:Hk0.
      - rewrite (Hok t k0 (or_introl eq_refl) Hk0).
        eexists. split; [reflexivity|]. intros k. rewrite group_after_snoc, Hk0.
        destruct (decide (k0 = k)) as [->|Hne].
        + rewrite lookup_insert_eq, bool_decide_eq_true_2 by reflexivity.
          now rewrite Hinv.
        + rewrite lookup_insert_ne by assumption.
          rewrite bool_decide_eq_false_2 by congruence. apply Hinv.
      - exists groups. split; [reflexivity|]. intros k.
        rewrite group_after_snoc, Hk0, bool_decide_eq_false_2 by discriminate.
        apply Hinv. }
    destruct Hstep as (g1 & -> & Hg1).
    destruct (IH (seen ++ [t]) g1) as (groups' & Hfold & Hres); auto.
    + intros t' k Ht'. apply Hok. now right.
    + exists groups'. split; [exact Hfold|]. intros k.
      rewrite Hres, <- app_assoc. reflexivity.
Qed.

(** The groups, in closed form. *)
Lemma grouped (all : list TraceSummary) (sums : list SessionSummary) :
  (forall t k, In t all -> sessionId t = Some k ->
               SpanAggregates.is_proto_name k = false) ->
  exists groups,
    groupedTraces all sums = Some groups
    /\ forall k, groups !! k = sort_group <$> group_after sums all k.
Proof.
  intros Hok.
  destruct (group_fold sums all [] ∅ Hok) as (g & Hfold & Hg).
  { intros k. now rewrite lookup_empty. }
  exists (sort_group <$> g). unfold groupedTraces. rewrite Hfold.
  split; [reflexivity|]. intros k. now rewrite lookup_fmap, Hg.
Qed.

(** X23: [groupedTraces] (no session id names a member of
    [Object.prototype]) has one group for each session id that occurs; the
    group holds exactly the traces of that session, newest first, traces with
    the same start in input order; no group is empty; traces without a session
    id are in no group; the session of a group is the summary found for the
    id or, failing that, a placeholder created from the first trace of the
    session. *)
Theorem X23_traces_grouped_by_session (all : list TraceSummary)
    (sums : list SessionSummary) :
  (forall t k, In t all -> sessionId t = Some k ->
               SpanAggregates.is_proto_name k = false) ->
  exists groups,
    groupedTraces all sums = Some groups
    /\ (forall k, is_Some (groups !! k) <-> exists t, In t all /\ sessionId t = Some k)
    /\ (forall k g, groups !! k = Some g ->
          traces g <> []
          /\ Permutation (traces g) (of_session k all)
          /\ StronglySorted (fun a b => s_start_time b <= s_start_time a) (traces g)
          /\ (forall v, List.filter (fun t => s_start_time t =? v) (traces g)
                        = List.filter (fun t => s_start_time t =? v) (of_session k all))
          /\ (forall t, In t (traces g) -> sessionId t = Some k)
          /\ exists first rest,
               of_session k all = first :: rest
               /\ session g = session_for sums k first).
Proof.
  intros Hok. destruct (grouped all sums Hok) as (groups & Hg & Hlook).
  exists groups. split; [exact Hg|]. split.
  - intros k. rewrite Hlook. unfold group_after, of_session.
    split.
    + intros [g Hsome].
      destruct (List.filter _ all) as [|t rest] eqn:Hf; [discriminate|].
      assert (Hin : In t (List.filter
                            (fun t => bool_decide (sessionId t = Some k)) all))
        by (rewrite Hf; now left).
      apply List.filter_In in Hin. destruct Hin as [Hin Hk].
      exists t. split; [exact Hin|]. now apply bool_decide_eq_true_1 in Hk.
    + intros (t & Hin & Hk).
      assert (Hf : In t (List.filter
                           (fun t => bool_decide (sessionId t = Some k)) all)).
      { apply List.filter_In. split; [exact Hin|]. now apply bool_decide_eq_true_2. }
      destruct (List.filter _ all); [destruct Hf|]. now eexists.
  - intros k g Hk. rewrite Hlook in Hk. unfold group_after in Hk.
    destruct (of_session k all) as [|first rest] eqn:Hof; [discriminate|].
    cbn [fmap option_fmap option_map] in Hk. injection Hk as <-.
    unfold sort_group. cbn [session traces].
    set (l := first :: rest) in *.
    pose proof (sort_by_perm newest_first l) as Hperm.
    split; [|split; [|split; [|split; [|split]]]].
    + intros E. rewrite E in Hperm. apply Permutation_nil in Hperm. discriminate.
    + exact Hperm.
    + pose proof (sort_by_sorted newest_first) as Hs.
      specialize (Hs ltac:(unfold newest_first; intros; lia)
                     ltac:(unfold newest_first; intros; lia) l).
      eapply StronglySorted_map with (f := fun x => x) in Hs.
      * rewrite map_id in Hs. exact Hs.
      * intros x y _ _. unfold cmp_le, newest_first. lia.
    + intros v. apply (sort_by_stable newest_first s_start_time).
      unfold newest_first. intros a b E. lia.
    + intros t Ht. apply (Permutation_in _ Hperm) in Ht.
      rewrite <- Hof in Ht. apply List.filter_In in Ht.
      destruct Ht as [_ Ht]. now apply bool_decide_eq_true_1 in Ht.
    + now exists first, rest.
Qed.

Lemma X23_traces_grouped_by_session_witness :
  exists groups,
    groupedTraces session_traces [] = Some groups
    /\ is_Some (groups !! "c9")
    /\ ~ is_Some (groups !! "s2")
    /\ exists g, groups !! "s1" = Some g
                 /\ length (traces g) = 2%nat
                 /\ StronglySorted (fun a b => s_start_time b <= s_start_time a) (traces g)
                 /\ forall t, In t (traces g) -> sessionId t = Some "s1".
Proof.
  destruct (X23_traces_grouped_by_session session_traces [])
    as (groups & Hg & Hkeys & Hgroup).
  - intros t k [<-|[<-|[<-|[<-|[]]]]] Hk; vm_compute in Hk; try discriminate;
      injection Hk as <-; reflexivity.
  - exists groups. split; [exact Hg|]. split; [|split].
    + apply Hkeys. exists (summary_of (Some "s2") (Some "c9") 3 4).
      split; [right; right; right; left; reflexivity|reflexivity].
    + intros Hs. apply Hkeys in Hs. destruct Hs as (t & Ht & Hk).
      destruct Ht as [<-|[<-|[<-|[<-|[]]]]]; vm_compute in Hk; discriminate.
    + assert (Hs1 : is_Some (groups !! "s1")).
      { apply Hkeys. exists (summary_of (Some "s1") None 0 1).
        split; [left; reflexivity|reflexivity]. }
      destruct Hs1 as (g & Hs1). exists g. split; [exact Hs1|].
      destruct (Hgroup "s1" g Hs1) as (_ & Hperm & Hsorted & _ & Hall & _).
      split; [|split; [exact Hsorted|exact Hall]].
      rewrite (Permutation_length Hperm). reflexivity.
Defined.

(** ** Spans whose parent chain revisits a span *)

Lemma ancestor_id_add (ss : list TraceSpan) (a b : nat) :
  forall k,
    ancestor_id ss (a + b) k
    = match ancestor_id ss a k with
      | Some x => ancestor_id ss b x
      | None => None
      end.
Proof.
  induction a as [|a IH]; intros k; simpl; [reflexivity|].
  destruct (parent_id ss k) as [p|]; [apply IH|reflexivity].
Qed.

Lemma revisits_on_cycle (ss : list TraceSpan) (k : string) :
  chain_revisits ss k -> exists i c, ancestor_id ss i k = Some c /\ on_cycle ss c.
Proof.
  intros (i & j & c & Hij & Hi & Hj). exists i, c. split; [exact Hi|].
  exists (j - i)%nat. split; [lia|].
  replace j with (i + (j - i))%nat in Hj by lia.
  now rewrite ancestor_id_add, Hi in Hj.
Qed.

Lemma on_cycle_revisits (ss : list TraceSpan) (k : string) :
  on_cycle ss k -> chain_revisits ss k.
Proof. intros (j & Hj & Ha). exists 0%nat, j, k. now repeat split. Qed.

(** A span whose parent chain revisits a span has no nesting level. *)
Lemma revisits_no_level (ss : list TraceSpan) (k : string) (d : nat) :
  chain_revisits ss k -> ~ level_id ss d k.
Proof.
  intros Hrev (r & Hd & Hroot).
  destruct (revisits_on_cycle ss k Hrev) as (i & c & Hi & Hc).
  destruct (Nat.le_gt_cases i d) as [Hle|Hgt].
  - apply (on_cycle_no_level_id ss c (d - i) Hc). exists r. split; [|exact Hroot].
    replace d with (i + (d - i))%nat in Hd by lia.
    now rewrite ancestor_id_add, Hi in Hd.
  - replace i with (d + S (i - d - 1))%nat in Hi by lia.
    rewrite ancestor_id_add, Hd in Hi. simpl in Hi. now rewrite Hroot in Hi.
Qed.

Lemma revisits_parent (ss : list TraceSpan) (k : string) :
  chain_revisits ss k -> exists p, parent_id ss k = Some p /\ chain_revisits ss p.
Proof.
  intros (i & j & c & Hij & Hi & Hj).
  destruct j as [|j]; [lia|].
  simpl in Hj. destruct (parent_id ss k) as [p|] eqn:Hp; [|discriminate].
  exists p. split; [reflexivity|].
  destruct i as [|i].
  - simpl in Hi. injection Hi as <-.
    exists 0%nat, (S j), p. split; [lia|]. split; [reflexivity|].
    replace (S j) with (j + 1)%nat by lia.
    rewrite ancestor_id_add, Hj. simpl. now rewrite Hp.
  - simpl in Hi. rewrite Hp in Hi. exists i, j, c. split; [lia|]. now split.
Qed.

(** C1 (amended): on every well-formed input the builder returns (its
    recursion only follows [children] from the roots, where no cycle can be
    met). A span whose parent chain revisits a span - it lies on a cycle of
    parent references, a span that names itself as parent included, or it
    leads into such a cycle - is never a root and occurs nowhere in the
    returned forest: its parent reference resolves, the node of the span is
    in the [children] array of the node of that parent, and the parent is
    left out of the forest in the same way. *)
Theorem C1_cyclic_spans_left_out (h : heap) (spans : list loc) (ss : list TraceSpan) :
  mapM (read_span h) spans = Some ss ->
  exists st f,
    spanTree_state h spans = Some st
    /\ spanTree h spans = Some f
    /\ (forall k, chain_revisits ss k ->
          (forall n, In n f -> node_id n <> k)
          /\ (forall n, In n (forest_nodes f) -> node_id n <> k)
          /\ exists p lk lp nk np,
               parent_id ss k = Some p
               /\ chain_revisits ss p
               /\ map_get k (index1 h ss) = Some lk
               /\ map_get p (index1 h ss) = Some lp
               /\ read_node (st_heap st) lk = Some nk /\ span_id (ts_span nk) = k
               /\ read_node (st_heap st) lp = Some np /\ span_id (ts_span np) = p
               /\ In lk (children np))
    /\ (forall k, on_cycle ss k -> chain_revisits ss k)
    /\ (forall s, find_last (span_id s) ss = Some s ->
          truthy (parent_span_id s) = Some (span_id s) ->
          on_cycle ss (span_id s)).
Proof.
  intros Hss.
  destruct (spanTree_run h spans ss Hss) as (st & f & Hst & Hf & Hinv & Hall & Hrefs).
  exists st, f. split; [exact Hst|]. split; [exact Hf|].
  split; [|split; [apply on_cycle_revisits|apply self_parent_on_cycle]].
  intros k Hrev.
  assert (Hout : forall n, In n (forest_nodes f) -> node_id n <> k).
  { intros n Hn Hid.
    destruct (forest_node_facts h ss st f n Hinv Hall Hrefs Hn) as (Hg & _ & (d & Hd) & _).
    apply (level_id_loc h ss (minTime ss) d _ _ Hg) in Hd. rewrite Hid in Hd.
    exact (revisits_no_level ss k d Hrev Hd). }
  split; [intros n Hn; apply Hout; now apply roots_are_nodes|].
  split; [exact Hout|].
  destruct (revisits_parent ss k Hrev) as (p & Hp & Hprev).
  destruct (parent_id_indexed ss k p Hp) as [Hik Hip].
  apply (indexed_get h ss) in Hik, Hip.
  destruct Hik as (lk & Hlk). destruct Hip as (lp & Hlp).
  set (h1 := heap1 h ss (minTime ss)) in *. set (m := index1 h ss) in *.
  pose proof (index1_nodes h ss (minTime ss)) as Hnodes. fold h1 m in Hnodes.
  pose proof (get_in_order h ss k lk Hlk) as Hok.
  pose proof (get_in_order h ss p lp Hlp) as Hop. fold m in Hok, Hop.
  destruct Hinv as ((Hi & Hkids) & _).
  assert (Hnode : forall x l, map_get x m = Some l ->
            exists n, read_node (st_heap st) l = Some n /\ span_id (ts_span n) = x).
  { intros x l Hx.
    pose proof (get_in_order h ss x l Hx) as Hox. fold m in Hox.
    destruct (inv_node h1 m Hnodes _ _ Hi Hox) as (n1 & n & Hn1 & Hn & Hts & _).
    apply map_get_In in Hx.
    destruct (index1_entry h ss (minTime ss) x l Hx) as (s & _ & Hid & Hr & _).
    fold h1 in Hr. exists n. split; [exact Hn|].
    assert (n1 = timelineSpan (minTime ss) s) by congruence. subst n1.
    rewrite Hts. exact Hid. }
  destruct (Hnode k lk Hlk) as (nk & Hnk & Hidk).
  destruct (Hnode p lp Hlp) as (np & Hnp & Hidp).
  exists p, lk, lp, nk, np. repeat (split; [assumption|]).
  apply (Permutation_in _ (Permutation_sym (Hkids lp np Hop Hnp))).
  apply kids_in_spec. split; [exact Hok|].
  now apply (par_Some_id h ss (minTime ss) k p lk lp Hlk Hlp).
Qed.

Lemma C1_cyclic_spans_left_out_witness :
  let ss := [span_of "D" (Some "A") 0 10; span_of "A" (Some "B") 0 20;
             span_of "B" (Some "A") 5 15; span_of "R" None 0 100] in
  mapM (read_span cycle_heap) [2%nat; 3%nat; 4%nat; 5%nat] = Some ss
  /\ chain_revisits ss "D"
  /\ exists st f,
       spanTree_state cycle_heap [2%nat; 3%nat; 4%nat; 5%nat] = Some st
       /\ spanTree cycle_heap [2%nat; 3%nat; 4%nat; 5%nat] = Some f
       /\ map node_id f = ["R"]
       /\ (forall n, In n (forest_nodes f) -> node_id n <> "D")
       /\ exists lk lp np,
            map_get "D" (index1 cycle_heap ss) = Some lk
            /\ map_get "A" (index1 cycle_heap ss) = Some lp
            /\ read_node (st_heap st) lp = Some np
            /\ In lk (children np).
Proof.
  cbv zeta.
  set (ss := [span_of "D" (Some "A") 0 10; span_of "A" (Some "B") 0 20;
              span_of "B" (Some "A") 5 15; span_of "R" None 0 100]).
  assert (Hss : mapM (read_span cycle_heap) [2%nat; 3%nat; 4%nat; 5%nat] = Some ss)
    by reflexivity.
  assert (Hrev : chain_revisits ss "D").
  { exists 1%nat, 3%nat, "A". split; [lia|]. split; reflexivity. }
  split; [exact Hss|]. split; [exact Hrev|].
  destruct (C1_cyclic_spans_left_out cycle_heap [2%nat; 3%nat; 4%nat; 5%nat] ss Hss)
    as (st & f & Hst & Hf & Hk & _).
  destruct (Hk "D" Hrev) as (_ & Hout & p & lk & lp & nk & np & Hp & _ & Hlk & Hlp
                             & _ & _ & Hnp & _ & Hin).
  assert (p = "A") by (vm_compute in Hp; congruence). subst p.
  exists st, f. split; [exact Hst|]. split; [exact Hf|].
  split.
  - assert (Hf' : spanTree cycle_heap [2%nat; 3%nat; 4%nat; 5%nat] = Some f) by exact Hf.
    vm_compute in Hf'. injection Hf' as <-. reflexivity.
  - split; [exact Hout|]. exists lk, lp, np. repeat split; assumption.
Defined.
